(** * Command-Processor: a shallow embedding of [comp::CommandArgs],
      [comp::CommandCaller] and [comp::Commander]

    The header [CommandProcessor.hpp] declares, in namespace [comp], the
    classes [Option], [CommandConfig], [CommandArgs], [CommandStatus],
    [StatusHandler], [CommandCaller] and [Commander].  This development
    embeds the revision in which [CommandArgs::parse] owns the tokenizer
    (the one with the [unk_opt] sentinel) and [Commander::run] wraps the
    whole dispatch loop in a single [try]/[catch].

    Conventions:
    - [std::string] is [string], [ArgVec] is [list string];
    - [std::unordered_map<std::string, V>] is [gmap string V];
    - [size_t] values ([argSize], [count]) are [N]; the only arithmetic on
      them is [++count] under the guard [count < option.argSize()], so no
      wrap-around can occur and none is written out;
    - a C++ function that may throw returns an [outcome]; loops whose exit
      depends on the data take a [fuel] argument counting iterations. *)

From Stdlib Require Import ZArith NArith Ascii String Lia.
From stdpp Require Import base option list strings gmap.
From Equations Require Import Equations.
From Equations.Prop Require Import Logic.

Local Open Scope string_scope.
Local Open Scope list_scope.

(** ** Exceptions and outcomes *)

(** What a [throw] can raise.  The first four are the classes that the
    header and the standard-library calls it makes raise themselves; a
    callable bound to a command is user code and may throw anything: an
    object of another class derived from [std::exception], given by the
    text its [what()] returns, or an object of a type that does not derive
    from [std::exception] (an [int], a string literal, a class of the
    user's own), given by a description of the object. *)
Inductive exception : Type :=
| runtime_error (what_arg : string)
| invalid_argument (what_arg : string)
| out_of_range (what_arg : string)
| bad_function_call
| std_exception (what_arg : string)
| not_std (thrown : string).

(** Whether a handler [catch (const std::exception&)] catches it. *)
Definition is_std_exception (ex : exception) : bool :=
  match ex with
  | not_std _ => false
  | _ => true
  end.

(** [ex.what()], for what such a handler caught. *)
Definition what (ex : exception) : string :=
  match ex with
  | runtime_error w => w
  | invalid_argument w => w
  | out_of_range w => w
  | bad_function_call => "bad_function_call"
  | std_exception w => w
  | not_std _ => EmptyString
  end.

Inductive outcome (A : Type) : Type :=
| Ret (a : A)
| Throw (ex : exception)
| OutOfFuel.
Arguments Ret {A} a.
Arguments Throw {A} ex.
Arguments OutOfFuel {A}.

Definition obind {A B} (m : outcome A) (k : A -> outcome B) : outcome B :=
  match m with
  | Ret a => k a
  | Throw ex => Throw ex
  | OutOfFuel => OutOfFuel
  end.

#[global] Instance outcome_ret : MRet outcome := fun A a => Ret a.
#[global] Instance outcome_bind : MBind outcome := fun A B k m => obind m k.

(** The double-quote character of the messages. *)
Definition dquote : string := String "034"%char EmptyString.

(** ** Option *)

Module Option.
Record t : Type := mk {
  m_name : string;
  m_variadicSize : bool;
  m_argSize : N
}.

(** [Option::Option(const std::string& Name = "")] *)
Definition ctor (Name : string) : t := mk Name false 0%N.

Definition name (o : t) : string := m_name o.
Definition variadicSize (o : t) : bool := m_variadicSize o.
Definition argSize (o : t) : N := m_argSize o.

Definition set_name (o : t) (Name : string) : t :=
  mk Name (m_variadicSize o) (m_argSize o).
Definition set_variadicSize (o : t) (b : bool) : t :=
  mk (m_name o) b (m_argSize o).
Definition set_argSize (o : t) (ArgSize : N) : t :=
  mk (m_name o) (m_variadicSize o) ArgSize.
End Option.

(** [std::numeric_limits<size_t>::max()] for a 64-bit [size_t]. *)
Definition SIZE_MAX : N := (2 ^ 64 - 1)%N.

(** ** CommandConfig *)

Module CommandConfig.
Record t : Type := mk {
  m_name : string;
  m_options : gmap string Option.t
}.

Definition ctor (name : string) : t := mk name ∅.

(** [m_options[opt.name()] = opt] *)
Definition append (c : t) (opt : Option.t) : t :=
  mk (m_name c) (<[Option.name opt := opt]> (m_options c)).

Definition name (c : t) : string := m_name c.

Definition has (c : t) (name : string) : bool :=
  match m_options c !! name with
  | Some _ => true
  | None => false
  end.

Definition option (c : t) (name : string) : outcome Option.t :=
  match m_options c !! name with
  | None => Throw (runtime_error ("key " +:+ dquote +:+ name +:+ dquote +:+ " not found"))
  | Some o => Ret o
  end.
End CommandConfig.

(** ** CommandArgs *)

Module CommandArgs.
Record t : Type := mk {
  m_argTable : gmap string string;
  m_config : CommandConfig.t
}.
End CommandArgs.

(** [std::string::pop_back] on a non-empty string; the header only calls it
    under [!val.empty()]. *)
Fixpoint pop_back (s : string) : string :=
  match s with
  | EmptyString => EmptyString
  | String c EmptyString => EmptyString
  | String c s' => String c (pop_back s')
  end.

Definition empty (s : string) : bool :=
  match s with
  | EmptyString => true
  | String _ _ => false
  end.

Section Parse.
Variable m_config : CommandConfig.t.

Definition isProperty (val : string) : bool := CommandConfig.has m_config val.

Definition isCommand (val : string) : bool :=
  bool_decide (val = CommandConfig.name m_config).

(** The sentinel built at the top of [CommandArgs::parse]. *)
Definition unk_opt : Option.t :=
  Option.set_variadicSize
    (Option.set_argSize (Option.ctor "unknown") SIZE_MAX) true.

(** The inner [while (i < args.size() && !isProperty(args[i]))] loop.
    [args] is the part of the vector from index [i] on; the result is the
    part from the final [i] on together with [count] and [val]. *)
Fixpoint consume (argSize : N) (args : list string) (count : N) (val : string)
  : list string * N * string :=
  match args with
  | [] => (args, count, val)
  | a :: rest =>
      if isProperty a then (args, count, val)
      else if (count <? argSize)%N
           then consume argSize rest (count + 1)%N (val +:+ (a +:+ " "))
           else (args, count, val)
  end.

(** The outer [for (size_t i = 0; i < args.size();)] loop; one unit of
    [fuel] per iteration. *)
Fixpoint parse_loop (fuel : nat) (args : list string)
    (m_argTable : gmap string string) : outcome (gmap string string) :=
  match args with
  | [] => Ret m_argTable
  | a :: rest =>
      match fuel with
      | O => OutOfFuel
      | S fuel' =>
          if isCommand a && negb (CommandConfig.has m_config a)
          then parse_loop fuel' rest m_argTable
          else
            let '(key, args1) :=
              if isProperty a then (a, rest) else (Option.name unk_opt, args) in
            option ← (if CommandConfig.has m_config key
                      then CommandConfig.option m_config key
                      else Ret unk_opt);
            let '(args2, count, val) :=
              consume (Option.argSize option) args1 0%N EmptyString in
            let val := if negb (empty val) then pop_back val else val in
            if (count <? Option.argSize option)%N && negb (Option.variadicSize option)
            then Throw (runtime_error
                          ("not enough arguments " +:+ dquote +:+ key +:+ dquote))
            else parse_loop fuel' args2 (<[key := val]> m_argTable)
      end
  end.

(** [CommandArgs::parse], started on the empty table of a fresh object. *)
Definition parse (fuel : nat) (args : list string) : outcome (gmap string string) :=
  parse_loop fuel args ∅.
End Parse.

(** [CommandArgs::CommandArgs(const ArgVec& args, const CommandConfig& config)] *)
Definition CommandArgs_ctor (fuel : nat) (args : list string) (config : CommandConfig.t)
  : outcome CommandArgs.t :=
  tbl ← parse config fuel args;
  Ret (CommandArgs.mk tbl config).

(** ** The string stream behind [getStrVec] *)

(** The characters [std::getline] extracts from the unread part [ss] of the
    stream: everything before the first [delim], which is extracted and
    dropped, or everything when there is no [delim]. *)
Fixpoint read_line (ss : string) (delim : ascii) : string * string :=
  match ss with
  | EmptyString => (EmptyString, EmptyString)
  | String c ss' =>
      if Ascii.eqb c delim then (EmptyString, ss')
      else let '(val, rest) := read_line ss' delim in (String c val, rest)
  end.

(** [std::getline(ss, val, delim)]: [None] when no character at all can be
    extracted (the stream sets [failbit] and tests false), otherwise the
    extracted [val] and the unread rest. *)
Definition getline (ss : string) (delim : ascii) : option (string * string) :=
  match ss with
  | EmptyString => None
  | String _ _ => Some (read_line ss delim)
  end.

(** [while (std::getline(ss, val, ' ')) res.emplace_back(std::move(val));] *)
Equations? getline_loop (ss : string) (res : list string) : list string
  by wf (String.length ss) lt :=
  getline_loop ss res with inspect (getline ss " "%char) := {
    | exist _ (Some (val, ss')) Hget := getline_loop ss' (res ++ [val]);
    | exist _ None _ := res }.
Proof.
  assert (Hlen : forall s, String.length (read_line s " "%char).2 <= String.length s).
  { induction s as [|c s IH]; simpl; [lia|].
    destruct (Ascii.eqb c " "%char); simpl; [lia|].
    destruct (read_line s " "%char) as [v r]; simpl in *; lia. }
  destruct ss as [|c ss]; simpl in Hget; [discriminate|].
  specialize (Hlen ss).
  destruct (Ascii.eqb c " "%char).
  - injection Hget as _ <-. simpl. lia.
  - destruct (read_line ss " "%char) as [v r]; simpl in *.
    injection Hget as _ <-. lia.
Qed.

(** ** [std::stoul]

    [std::stoul(str)] is [strtoul(str.c_str(), &end, 10)]: leading white
    space is skipped, one optional sign is read, then the longest run of
    decimal digits.  No digit at all raises [std::invalid_argument]; a
    numeral that does not fit [unsigned long] raises [std::out_of_range];
    a leading minus negates the value in [unsigned long].  Characters after
    the digits are ignored.  [ulong_bits] is the width of [unsigned long]
    and the messages are those of libstdc++. *)

Definition isspace (c : ascii) : bool :=
  let n := nat_of_ascii c in
  Nat.eqb n 32 || (Nat.leb 9 n && Nat.leb n 13).

Definition digit (c : ascii) : option N :=
  let n := N_of_ascii c in
  if (48 <=? n)%N && (n <=? 57)%N then Some (n - 48)%N else None.

Fixpoint skip_space (s : string) : string :=
  match s with
  | String c s' => if isspace c then skip_space s' else s
  | EmptyString => s
  end.

(** The value of the longest digit prefix of [s], continuing from [acc];
    [None] when [s] starts with no digit. *)
Fixpoint read_digits (s : string) (acc : N) : option N :=
  match s with
  | String c s' =>
      match digit c with
      | Some d =>
          match read_digits s' (10 * acc + d)%N with
          | Some v => Some v
          | None => Some (10 * acc + d)%N
          end
      | None => None
      end
  | EmptyString => None
  end.

Definition stoul (ulong_bits : N) (str : string) : outcome N :=
  let s := skip_space str in
  let '(neg, s) :=
    match s with
    | String "-"%char s' => (true, s')
    | String "+"%char s' => (false, s')
    | _ => (false, s)
    end in
  match read_digits s 0%N with
  | None => Throw (invalid_argument "stoul")
  | Some v =>
      if (2 ^ ulong_bits <=? v)%N then Throw (out_of_range "stoul")
      else Ret (if neg then (2 ^ ulong_bits - v) mod 2 ^ ulong_bits else v)%N
  end.

(** The conversion of the [unsigned long] result to the [uint32_t] return
    type. *)
Definition to_uint32 (v : N) : N := (v mod 2 ^ 32)%N.

(** ** The accessors of CommandArgs *)

Definition key_not_found (name : string) : exception :=
  runtime_error ("key " +:+ dquote +:+ name +:+ dquote +:+ " not found").

Section Accessors.
Variable self : CommandArgs.t.

Definition getStrVec (name : string) (throwEx : bool) : outcome (list string) :=
  match CommandArgs.m_argTable self !! name with
  | None => if throwEx then Throw (key_not_found name) else Ret []
  | Some second => Ret (getline_loop second [])
  end.

Definition getString (name : string) : outcome string :=
  match CommandArgs.m_argTable self !! name with
  | None => Throw (key_not_found name)
  | Some second => Ret second
  end.

Definition getString_def (name : string) (defValue : string) : string :=
  match CommandArgs.m_argTable self !! name with
  | None => defValue
  | Some second => second
  end.

Definition getUInt (ulong_bits : N) (name : string) : outcome N :=
  match CommandArgs.m_argTable self !! name with
  | None => Throw (key_not_found name)
  | Some second => v ← stoul ulong_bits second; Ret (to_uint32 v)
  end.

Definition getUInt_def (ulong_bits : N) (name : string) (defValue : N) : outcome N :=
  match CommandArgs.m_argTable self !! name with
  | None => Ret defValue
  | Some second => v ← stoul ulong_bits second; Ret (to_uint32 v)
  end.

Definition has (name : string) : bool :=
  match CommandArgs.m_argTable self !! name with
  | None => false
  | Some _ => true
  end.

Definition command : string := CommandConfig.name (CommandArgs.m_config self).
End Accessors.

(** [std::tolower] in the "C" locale, on a [char] taken as its code 0..255:
    the upper-case letters go to their lower-case ones, every other
    character stays. *)
Definition std_tolower (ch : ascii) : ascii :=
  let n := nat_of_ascii ch in
  if Nat.leb 65 n && Nat.leb n 90 then ascii_of_nat (n + 32) else ch.

(** [CommandArgs::tolower(std::string& str)]: the new content of [str],
    which is also the string returned. *)
Fixpoint tolower (str : string) : string :=
  match str with
  | EmptyString => EmptyString
  | String ch str' => String (std_tolower ch) (tolower str')
  end.

(** ** CommandStatus, StatusHandler, CommandCaller *)

Module CommandStatus.
Inductive Status : Type := ERROR | OK.

Record t : Type := mk {
  name : string;
  status : Status;
  msg : string
}.
End CommandStatus.

(** What a run does to the outside: the calls it makes, in order. *)
Inductive event : Type :=
| Invoke (command : string) (args : list string)
    (** [invokeCommand(command, args)] reached [CommandCaller::invoke] *)
| Call (command : string) (cargs : CommandArgs.t)
    (** the callable bound to [command] was called with [cargs] *)
| Handle (stat : CommandStatus.t)
    (** [m_handler.handle(stat)] *)
| Override (stat : CommandStatus.t)
    (** the [handle] of a class derived from [StatusHandler] ran on [stat] *).

(** A computation that emits events and then returns, throws or hangs. *)
Definition eff (A : Type) : Type := list event * outcome A.

Module StatusHandler.
(** An object whose class is [StatusHandler] itself, as the member
    [m_handler] that [Commander] holds by value: the class has no data
    member, and [m_handler.handle(stat)] runs the body of
    [StatusHandler::handle]; all that is observable of it is that it was
    called with [stat]. *)
Record t : Type := mk { }.

Definition handle (self : t) (stat : CommandStatus.t) : eff unit :=
  ([Handle stat], Ret tt).


End StatusHandler.

Module CommandCaller.
(** Both [Callback] and [Method<Object>] have the shape
    [CommandStatus(const CommandArgs&)]; what the callable does besides
    returning or throwing is not modelled. *)
Definition callable : Type := CommandArgs.t -> outcome CommandStatus.t.

Record t : Type := mk {
  m_config : CommandConfig.t;
  m_callback : option callable;   (** [nullptr] is [None] *)
  m_invoke : option callable      (** an empty [std::function] is [None] *)
}.

Definition ctor : t := mk (CommandConfig.ctor EmptyString) None None.
Definition ctor_callback (callback : callable) (config : CommandConfig.t) : t :=
  mk config (Some callback) None.
Definition ctor_method (method : callable) (config : CommandConfig.t) : t :=
  mk config None (Some method).

Definition config (self : t) : CommandConfig.t := m_config self.

Definition invoke (fuel : nat) (self : t) (args : list string) : eff CommandStatus.t :=
  match CommandArgs_ctor fuel args (m_config self) with
  | Ret cargs =>
      match m_callback self with
      | Some callback =>
          ([Call (CommandConfig.name (m_config self)) cargs], callback cargs)
      | None =>
          match m_invoke self with
          | Some f => ([Call (CommandConfig.name (m_config self)) cargs], f cargs)
          | None => ([], Throw bad_function_call)
          end
      end
  | Throw ex => ([], Throw ex)
  | OutOfFuel => ([], OutOfFuel)
  end.
End CommandCaller.

(** ** Commander *)

Module Commander.
Record t : Type := mk {
  m_args : list string;
  m_commands : gmap string CommandCaller.t;
  m_handler : StatusHandler.t
}.

Definition ctor (args : list string) : t := mk args ∅ StatusHandler.mk.

Definition init (self : t) (args : list string) : t :=
  mk args (m_commands self) (m_handler self).

Definition appendCommand (self : t) (caller : CommandCaller.t) : t :=
  mk (m_args self)
     (<[CommandConfig.name (CommandCaller.config caller) := caller]> (m_commands self))
     (m_handler self).


Definition isCommand (self : t) (val : string) : bool :=
  match m_commands self !! val with
  | Some _ => true
  | None => false
  end.

(** [m_commands.at(command).invoke(args)] *)
Definition invokeCommand (fuel : nat) (self : t) (command : string) (args : list string)
  : eff CommandStatus.t :=
  match m_commands self !! command with
  | None => ([], Throw (out_of_range "unordered_map::at"))
  | Some caller =>
      let '(tr, r) := CommandCaller.invoke fuel caller args in
      (Invoke command args :: tr, r)
  end.

(** [while (i + 1 < m_args.size() && !isCommand(m_args[i + 1]))
      args.emplace_back(m_args[++i]);]
    [rest] is [m_args] from index [i + 1] on; the result is the grown
    [args] and [m_args] from the final [i + 1] on. *)
Fixpoint collect (self : t) (rest : list string) (args : list string)
  : list string * list string :=
  match rest with
  | [] => (args, rest)
  | b :: rest' =>
      if isCommand self b then (args, rest)
      else collect self rest' (args ++ [b])
  end.

(** The [for] loop inside the [try] block.  [args_i] is [m_args] from
    index [i] on and [command] the local of that name; the result carries
    the value of [command] at the point where the loop is left. *)
Fixpoint run_loop (pfuel fuel : nat) (self : t) (args_i : list string)
    (command : string) : list event * (string * outcome unit) :=
  match args_i with
  | [] => ([], (command, Ret tt))
  | a :: rest =>
      match fuel with
      | O => ([], (command, OutOfFuel))
      | S fuel' =>
          if isCommand self a then
            let command := a in
            let '(args, rest') := collect self rest [command] in
            let '(tr, r) := invokeCommand pfuel self command args in
            match r with
            | Ret stat =>
                let '(tr', out) := run_loop pfuel fuel' self rest' command in
                (tr ++ (StatusHandler.handle (m_handler self) stat).1 ++ tr', out)
            | Throw ex => (tr, (command, Throw ex))
            | OutOfFuel => (tr, (command, OutOfFuel))
            end
          else
            ((StatusHandler.handle (m_handler self)
                (CommandStatus.mk a CommandStatus.ERROR "not a command")).1,
             (command, Ret tt))
      end
  end.

(** [Commander::run()]: the loop, and the [catch (const std::exception&)]
    around it, which is the only handler: what it does not catch leaves
    [run]. *)
Definition run (fuel : nat) (self : t) : eff unit :=
  let '(tr, (command, r)) := run_loop fuel fuel self (m_args self) EmptyString in
  match r with
  | Throw ex =>
      if is_std_exception ex
      then (tr ++ (StatusHandler.handle (m_handler self)
                     (CommandStatus.mk command CommandStatus.ERROR (what ex))).1,
            Ret tt)
      else (tr, Throw ex)
  | _ => (tr, r)
  end.

Definition run_args (fuel : nat) (self : t) (args : list string) : eff unit :=
  run fuel (init self args).
End Commander.

(** * The other revisions of the header

    The repository holds three more revisions of [CommandProcessor.hpp].
    One is an unfinished state between the embedded revision and the later
    one; its [CommandArgs::parse] is the embedded one word for word.  The
    two others differ where the properties below look, and those parts are
    embedded here. *)

(** ** The earlier revision: no sentinel

    [CommandArgs::parse] files loose tokens under the command's own name,
    looks every key up with [m_config.option(key)], and throws on a value
    beyond the arity; [Commander::run] starts each segment empty. *)
Module RevD.
Definition unexpected_value (a : string) : exception :=
  runtime_error ("unexpected value " +:+ dquote +:+ a +:+ dquote).

Section Parse.
Variable m_config : CommandConfig.t.

Fixpoint consume (argSize : N) (args : list string) (count : N) (val : string)
  : outcome (list string * N * string) :=
  match args with
  | [] => Ret (args, count, val)
  | a :: rest =>
      if isProperty m_config a then Ret (args, count, val)
      else if (count <? argSize)%N
           then consume argSize rest (count + 1)%N (val +:+ (a +:+ " "))
           else Throw (unexpected_value a)
  end.

Fixpoint parse_loop (fuel : nat) (args : list string) (command_count : N)
    (m_argTable : gmap string string) : outcome (gmap string string) :=
  match args with
  | [] => Ret m_argTable
  | a :: rest =>
      match fuel with
      | O => OutOfFuel
      | S fuel' =>
          let '(key, count, args1) :=
            if isProperty m_config a then (a, 0%N, rest)
            else (CommandConfig.name m_config, command_count, args) in
          option ← CommandConfig.option m_config key;
          '(args2, count, val) ← consume (Option.argSize option) args1 count EmptyString;
          let val := if negb (empty val) then pop_back val else val in
          if (count <? Option.argSize option)%N && negb (Option.variadicSize option)
          then Throw (runtime_error
                        ("not enough arguments " +:+ dquote +:+ key +:+ dquote))
          else parse_loop fuel' args2 command_count (<[key := val]> m_argTable)
      end
  end.

Definition parse (fuel : nat) (args : list string) : outcome (gmap string string) :=
  parse_loop fuel args 0%N ∅.
End Parse.

Definition invoke (fuel : nat) (self : CommandCaller.t) (args : list string)
  : eff CommandStatus.t :=
  match parse (CommandCaller.m_config self) fuel args with
  | Ret tbl =>
      let cargs := CommandArgs.mk tbl (CommandCaller.m_config self) in
      match CommandCaller.m_callback self with
      | Some callback =>
          ([Call (CommandConfig.name (CommandCaller.m_config self)) cargs], callback cargs)
      | None =>
          match CommandCaller.m_invoke self with
          | Some f =>
              ([Call (CommandConfig.name (CommandCaller.m_config self)) cargs], f cargs)
          | None => ([], Throw bad_function_call)
          end
      end
  | Throw ex => ([], Throw ex)
  | OutOfFuel => ([], OutOfFuel)
  end.

Definition invokeCommand (fuel : nat) (self : Commander.t) (command : string)
    (args : list string) : eff CommandStatus.t :=
  match Commander.m_commands self !! command with
  | None => ([], Throw (out_of_range "unordered_map::at"))
  | Some caller =>
      let '(tr, r) := invoke fuel caller args in
      (Invoke command args :: tr, r)
  end.

(** As [Commander.run_loop], but [ArgVec args;] starts empty. *)
Fixpoint run_loop (pfuel fuel : nat) (self : Commander.t) (args_i : list string)
    (command : string) : list event * (string * outcome unit) :=
  match args_i with
  | [] => ([], (command, Ret tt))
  | a :: rest =>
      match fuel with
      | O => ([], (command, OutOfFuel))
      | S fuel' =>
          if Commander.isCommand self a then
            let command := a in
            let '(args, rest') := Commander.collect self rest [] in
            let '(tr, r) := invokeCommand pfuel self command args in
            match r with
            | Ret stat =>
                let '(tr', out) := run_loop pfuel fuel' self rest' command in
                (tr ++ (StatusHandler.handle (Commander.m_handler self) stat).1 ++ tr', out)
            | Throw ex => (tr, (command, Throw ex))
            | OutOfFuel => (tr, (command, OutOfFuel))
            end
          else
            ((StatusHandler.handle (Commander.m_handler self)
                (CommandStatus.mk a CommandStatus.ERROR "not a command")).1,
             (command, Ret tt))
      end
  end.

Definition run (fuel : nat) (self : Commander.t) : eff unit :=
  let '(tr, (command, r)) :=
    run_loop fuel fuel self (Commander.m_args self) EmptyString in
  match r with
  | Throw ex =>
      if is_std_exception ex
      then (tr ++ (StatusHandler.handle (Commander.m_handler self)
                     (CommandStatus.mk command CommandStatus.ERROR (what ex))).1,
            Ret tt)
      else (tr, Throw ex)
  | _ => (tr, r)
  end.
End RevD.

(** ** The later revision: [CommandParser]

    Segmentation and parsing move into [CommandParser], which [run] calls
    before its loop and outside its [try]; tokens before the first command
    form a segment named "unknown"; each segment has its own [try]/[catch],
    and [handle] returns a state that stops the loop when it is not 0. *)
Module RevB.
Record CommandArgs : Type := mkCommandArgs {
  m_command : string;
  m_argTable : gmap string string
}.

(** [CommandArgs::insert] *)
Definition insert (self : CommandArgs) (key val : string) : CommandArgs :=
  mkCommandArgs (m_command self) (<[key := val]> (m_argTable self)).

Record CommandParser : Type := mkCommandParser {
  p_args : list string;
  p_commands : list CommandArgs;
  p_configs : gmap string CommandConfig.t
}.

(** [CommandParser::config]: the shared pointer, [nullptr] being [None]. *)
Definition config (self : CommandParser) (name : string) : option CommandConfig.t :=
  p_configs self !! name.

Definition hasConfig (self : CommandParser) (name : string) : bool :=
  match p_configs self !! name with
  | Some _ => true
  | None => false
  end.

(** [conf && conf->has(name)] *)
Definition conf_has (conf : option CommandConfig.t) (name : string) : bool :=
  match conf with
  | Some c => CommandConfig.has c name
  | None => false
  end.

Section ParseCommand.
Variable conf : option CommandConfig.t.
Variable command : string.

Fixpoint consume (argSize : N) (args : list string) (count : N) (val : string)
  : list string * N * string :=
  match args with
  | [] => (args, count, val)
  | a :: rest =>
      if conf_has conf a then (args, count, val)
      else if (count <? argSize)%N
           then consume argSize rest (count + 1)%N (val +:+ (a +:+ " "))
           else (args, count, val)
  end.

Fixpoint parseCommand_loop (fuel : nat) (args : list string) (comargs : CommandArgs)
  : outcome CommandArgs :=
  match args with
  | [] => Ret comargs
  | a :: rest =>
      match fuel with
      | O => OutOfFuel
      | S fuel' =>
          if bool_decide (a = command) && negb (conf_has conf command)
          then parseCommand_loop fuel' rest comargs
          else
            '(option, args1) ←
              match conf with
              | Some c =>
                  if CommandConfig.has c a
                  then o ← CommandConfig.option c a; Ret (o, rest)
                  else Ret (unk_opt, args)
              | None => Ret (unk_opt, args)
              end;
            let '(args2, count, val) :=
              consume (Option.argSize option) args1 0%N EmptyString in
            let val := if negb (empty val) then pop_back val else val in
            if (count <? Option.argSize option)%N && negb (Option.variadicSize option)
            then Throw (runtime_error
                          ("not enough arguments " +:+ dquote
                             +:+ Option.name option +:+ dquote))
            else parseCommand_loop fuel' args2 (insert comargs (Option.name option) val)
      end
  end.
End ParseCommand.

Definition parseCommand (fuel : nat) (self : CommandParser) (command : string)
    (args : list string) : outcome CommandArgs :=
  parseCommand_loop (config self command) command fuel args
    (mkCommandArgs command ∅).

(** [while (i < m_args.size() && !hasConfig(m_args[i])) args.push_back(m_args[i++]);] *)
Fixpoint collect (self : CommandParser) (rest : list string) (args : list string)
  : list string * list string :=
  match rest with
  | [] => (args, rest)
  | b :: rest' =>
      if hasConfig self b then (args, rest)
      else collect self rest' (args ++ [b])
  end.

(** The loop of [CommandParser::parse()]; the result is the grown
    [m_commands]. *)
Fixpoint parse_loop (pfuel fuel : nat) (self : CommandParser) (args_i : list string)
    (m_commands : list CommandArgs) : outcome (list CommandArgs) :=
  match args_i with
  | [] => Ret m_commands
  | a :: rest =>
      match fuel with
      | O => OutOfFuel
      | S fuel' =>
          let '(command, rest0) :=
            if hasConfig self a then (a, rest) else ("unknown", args_i) in
          let '(args, rest') := collect self rest0 [command] in
          comargs ← parseCommand pfuel self command args;
          parse_loop pfuel fuel' self rest' (m_commands ++ [comargs])
      end
  end.

(** [CommandParser::parse(const ArgVec& args)]: [init(args); parse();] *)
Definition parse (fuel : nat) (self : CommandParser) (args : list string)
  : outcome CommandParser :=
  cmds ← parse_loop fuel fuel self args (p_commands self);
  Ret (mkCommandParser args cmds (p_configs self)).

(** What a run of this revision does to the outside. *)
Inductive event : Type :=
| Call (commandArgs : CommandArgs)
    (** the callable bound to [commandArgs.command()] was called *)
| Handle (stat : CommandStatus.t)
    (** [m_handler.handle(stat)] *).

Definition callable : Type := CommandArgs -> outcome CommandStatus.t.

Record CommandCaller : Type := mkCommandCaller {
  c_config : CommandConfig.t;
  c_callback : option callable   (** an empty [std::function] is [None] *)
}.

(** [CommandCaller::invoke(const CommandArgs& args)] *)
Definition invoke (self : CommandCaller) (args : CommandArgs)
  : list event * outcome CommandStatus.t :=
  match c_callback self with
  | Some f => ([Call args], f args)
  | None => ([], Throw bad_function_call)
  end.

Record Commander : Type := mkCommander {
  m_args : list string;
  m_parser : CommandParser;
  m_commands : gmap string CommandCaller
}.

Definition ctor : Commander := mkCommander [] (mkCommandParser [] [] ∅) ∅.

Definition init (self : Commander) (args : list string) : Commander :=
  mkCommander args (m_parser self) (m_commands self).

Definition appendCommand (self : Commander) (caller : CommandCaller) : Commander :=
  mkCommander (m_args self)
    (mkCommandParser (p_args (m_parser self)) (p_commands (m_parser self))
       (<[CommandConfig.name (c_config caller) := c_config caller]>
          (p_configs (m_parser self))))
    (<[CommandConfig.name (c_config caller) := caller]> (m_commands self)).

Definition isCommand (self : Commander) (val : string) : bool :=
  match m_commands self !! val with
  | Some _ => true
  | None => false
  end.

(** [Commander::invokeCommand(const CommandArgs& commandArgs)] *)
Definition invokeCommand (self : Commander) (commandArgs : CommandArgs)
  : list event * outcome CommandStatus.t :=
  match m_commands self !! m_command commandArgs with
  | None => ([], Throw (out_of_range "unordered_map::at"))
  | Some caller => invoke caller commandArgs
  end.

(** [m_handler.handle(stat)]: it is called with [stat], and the
    [StatusHandler] held by value returns 0. *)
Definition handle (stat : CommandStatus.t) : list event * Z := ([Handle stat], 0%Z).

(** The [for (size_t i = 0; state == 0 && i < commands.size(); ++i)] loop
    over [commands] from index [i] on, with its [try] and its
    [catch (const std::exception&)] inside; what that handler does not
    catch leaves the loop and [run]. *)
Fixpoint run_loop (self : Commander) (commands : list CommandArgs) (state : Z)
  : list event * outcome unit :=
  match commands with
  | [] => ([], Ret tt)
  | commandArgs :: commands' =>
      if negb (state =? 0)%Z then ([], Ret tt)
      else
        let error msg :=
          CommandStatus.mk (m_command commandArgs) CommandStatus.ERROR msg in
        if isCommand self (m_command commandArgs) then
          let '(tr, r) := invokeCommand self commandArgs in
          match r with
          | Ret stat =>
              let '(tr', out) := run_loop self commands' (handle stat).2 in
              (tr ++ (handle stat).1 ++ tr', out)
          | Throw ex =>
              if is_std_exception ex then
                let '(tr', out) :=
                  run_loop self commands' (handle (error (what ex))).2 in
                (tr ++ (handle (error (what ex))).1 ++ tr', out)
              else (tr, Throw ex)
          | OutOfFuel => (tr, OutOfFuel)
          end
        else
          let '(tr', out) :=
            run_loop self commands' (handle (error "not a command")).2 in
          ((handle (error "not a command")).1 ++ tr', out)
  end.

(** [Commander::run()]: [m_parser.parse(m_args)] runs before the loop and
    outside its [try]. *)
Definition run (fuel : nat) (self : Commander) : list event * outcome unit :=
  match parse fuel (m_parser self) (m_args self) with
  | Ret parser => run_loop self (p_commands parser) 0%Z
  | Throw ex => ([], Throw ex)
  | OutOfFuel => ([], OutOfFuel)
  end.

(** [CommandArgs::remove], [CommandArgs::has] and the two [getString] of
    this revision, on its own [CommandArgs]. *)
Definition remove (self : CommandArgs) (key : string) : CommandArgs :=
  mkCommandArgs (m_command self) (delete key (m_argTable self)).

Definition has (self : CommandArgs) (name : string) : bool :=
  match m_argTable self !! name with
  | Some _ => true
  | None => false
  end.

Definition getString (self : CommandArgs) (name : string) : outcome string :=
  match m_argTable self !! name with
  | None => Throw (key_not_found name)
  | Some second => Ret second
  end.

Definition getString_def (self : CommandArgs) (name defValue : string) : string :=
  match m_argTable self !! name with
  | None => defValue
  | Some second => second
  end.

(** [CommandParser::appendConfig] and [CommandParser::removeConfig] *)
Definition appendConfig (self : CommandParser) (pConfig : CommandConfig.t)
  : CommandParser :=
  mkCommandParser (p_args self) (p_commands self)
    (<[CommandConfig.name pConfig := pConfig]> (p_configs self)).

Definition removeConfig (self : CommandParser) (name : string) : CommandParser :=
  mkCommandParser (p_args self) (p_commands self) (delete name (p_configs self)).

(** [CommandParser::command(size_t index)] *)
Definition command_at (self : CommandParser) (index : nat) : outcome CommandArgs :=
  match p_commands self !! index with
  | Some comm => Ret comm
  | None => Throw (runtime_error "Out of range")
  end.

(** [std::find_if(m_commands.begin(), m_commands.end(), ...)] with the
    lambda [comm.command() == name]: the first such command, [None] being
    [m_commands.end()]. *)
Definition find_command (self : CommandParser) (name : string) : option CommandArgs :=
  List.find (fun comm => bool_decide (m_command comm = name)) (p_commands self).

(** [CommandParser::command(const std::string& name)] *)
Definition command_named (self : CommandParser) (name : string) : outcome CommandArgs :=
  match find_command self name with
  | Some comm => Ret comm
  | None => Throw (runtime_error "Out of range")
  end.

(** [CommandParser::hasCommand]: [return std::find_if(...) == m_commands.end();] *)
Definition hasCommand (self : CommandParser) (name : string) : bool :=
  match find_command self name with
  | Some _ => false
  | None => true
  end.

(** [CommandCaller::invoke(const ArgVec& args)], for a caller built with a
    config: a fresh parser with that one config parses [args], and the
    callable gets [cparser.command(0)]. *)
Definition invoke_args (fuel : nat) (self : CommandCaller) (args : list string)
  : list event * outcome CommandStatus.t :=
  let cparser := appendConfig (mkCommandParser [] [] ∅) (c_config self) in
  match parse fuel cparser args with
  | Ret cparser' =>
      match command_at cparser' 0 with
      | Ret cargs => invoke self cargs
      | Throw ex => ([], Throw ex)
      | OutOfFuel => ([], OutOfFuel)
      end
  | Throw ex => ([], Throw ex)
  | OutOfFuel => ([], OutOfFuel)
  end.

(** [Commander::removeCommand] *)
Definition removeCommand (self : Commander) (callerName : string) : Commander :=
  mkCommander (m_args self)
    (removeConfig (m_parser self) callerName)
    (delete callerName (m_commands self)).
End RevB.

(** * Notions used to state the properties *)

(** What the inner loop leaves in [val] after reading the tokens [l]. *)
Fixpoint spaced (l : list string) : string :=
  match l with
  | [] => EmptyString
  | a :: l' => (a +:+ " ") +:+ spaced l'
  end.

(** The value tokens a position offers: the tokens up to the next
    recognized option or the end of the segment. *)
Fixpoint supplied (cfg : CommandConfig.t) (rest : list string) : list string :=
  match rest with
  | [] => []
  | a :: rest' => if CommandConfig.has cfg a then [] else a :: supplied cfg rest'
  end.

(** How many of them an option of arity [argSize] takes. *)
Definition taken (cfg : CommandConfig.t) (argSize : N) (rest : list string) : nat :=
  N.to_nat (N.min argSize (N.of_nat (length (supplied cfg rest)))).

Definition arity_error (key : string) : exception :=
  runtime_error ("not enough arguments " +:+ dquote +:+ key +:+ dquote).

(** The option that governs tokens which follow no recognized option: the
    sentinel [unk_opt], unless the config itself declares a key equal to the
    sentinel's name. *)
Definition unknown_option (cfg : CommandConfig.t) : Option.t :=
  default unk_opt (CommandConfig.m_options cfg !! "unknown").

(** Loose tokens pass: the option that governs them has an arity other
    than 0 and is variadic or takes one value at a time.  The sentinel
    itself is such an option. *)
Definition loose_tokens_pass (cfg : CommandConfig.t) : bool :=
  negb (Option.argSize (unknown_option cfg) =? 0)%N
  && (Option.variadicSize (unknown_option cfg)
      || (Option.argSize (unknown_option cfg) =? 1)%N).

(** Every occurrence of a non-variadic option is followed by at least its
    declared number of value tokens before the next recognized option or
    the end of the segment. *)
Fixpoint arity_ok (cfg : CommandConfig.t) (T : list string) : bool :=
  match T with
  | [] => true
  | t :: rest =>
      match CommandConfig.m_options cfg !! t with
      | Some opt =>
          Option.variadicSize opt
          || (Option.argSize opt <=? N.of_nat (length (supplied cfg rest)))%N
      | None => true
      end && arity_ok cfg rest
  end.

(** A token survives the round trip when it holds no space. *)
Fixpoint no_space (s : string) : bool :=
  match s with
  | EmptyString => true
  | String c s' => negb (Ascii.eqb c " "%char) && no_space s'
  end.

(** The part of the text that [std::stoul] reads digits from: what follows
    the leading white space and one optional sign. *)
Definition numeral_part (str : string) : string :=
  match skip_space str with
  | String "-"%char s' => s'
  | String "+"%char s' => s'
  | s => s
  end.

Definition starts_with_digit (s : string) : bool :=
  match s with
  | String c _ => match digit c with Some _ => true | None => false end
  | EmptyString => false
  end.

(** The decimal digits a text starts with, and the number that a sequence
    of decimal digits writes. *)
Fixpoint leading_digits (s : string) : list N :=
  match s with
  | String c s' =>
      match digit c with
      | Some d => d :: leading_digits s'
      | None => []
      end
  | EmptyString => []
  end.

Definition decimal_value (ds : list N) : N :=
  fold_left (fun acc d => (10 * acc + d)%N) ds 0%N.

(** The text has a minus sign after its leading white space. *)
Definition has_minus (str : string) : bool :=
  match skip_space str with
  | String "-"%char _ => true
  | _ => false
  end.

(** A plain unsigned decimal numeral: one or more digits and nothing else. *)
Fixpoint all_digits (s : string) : bool :=
  match s with
  | EmptyString => true
  | String c s' => match digit c with Some _ => all_digits s' | None => false end
  end.

Definition valid_uint (s : string) : bool := negb (empty s) && all_digits s.

Definition is_ParseError (ex : exception) : Prop :=
  ex = invalid_argument "stoul" \/ ex = out_of_range "stoul".



(** The invariant of a config built with [append]: every option sits under
    its own name. *)
Definition keys_are_names (c : CommandConfig.t) : Prop :=
  forall k o, CommandConfig.m_options c !! k = Some o -> Option.name o = k.

Fixpoint ends_with_space (s : string) : bool :=
  match s with
  | EmptyString => false
  | String c EmptyString => Ascii.eqb c " "%char
  | String _ s' => ends_with_space s'
  end.

(** A character that is no upper-case letter. *)
Definition not_upper (ch : ascii) : bool :=
  negb (Nat.leb 65 (nat_of_ascii ch) && Nat.leb (nat_of_ascii ch) 90).

Fixpoint all_not_upper (s : string) : bool :=
  match s with
  | EmptyString => true
  | String ch s' => not_upper ch && all_not_upper s'
  end.

(** White space only. *)
Fixpoint all_space (s : string) : bool :=
  match s with
  | EmptyString => true
  | String c s' => isspace c && all_space s'
  end.

(** The segments a run handed to [invokeCommand], in the order of the
    calls. *)
Fixpoint invoked (tr : list event) : list (list string) :=
  match tr with
  | [] => []
  | Invoke _ args :: tr' => args :: invoked tr'
  | _ :: tr' => invoked tr'
  end.

(** The same with the command name put in front of each segment. *)
Fixpoint invoked_named (tr : list event) : list (list string) :=
  match tr with
  | [] => []
  | Invoke command args :: tr' => (command :: args) :: invoked_named tr'
  | _ :: tr' => invoked_named tr'
  end.

(** The statuses a run handed to [m_handler.handle], in the order of the
    calls. *)
Fixpoint handled (tr : list event) : list CommandStatus.t :=
  match tr with
  | [] => []
  | Handle stat :: tr' => stat :: handled tr'
  | _ :: tr' => handled tr'
  end.

(** A segment as the loop of [run] builds it: a registered command name
    followed by tokens that are not registered. *)
Definition segment_ok (self : Commander.t) (seg : list string) : Prop :=
  exists c vs,
    seg = c :: vs
    /\ Commander.isCommand self c = true
    /\ Forall (fun v => Commander.isCommand self v = false) vs.

(** Every caller of the registry sits under the name of its own config,
    as [appendCommand] puts it. *)
Definition registry_ok (self : Commander.t) : Prop :=
  forall k caller,
    Commander.m_commands self !! k = Some caller ->
    CommandConfig.name (CommandCaller.config caller) = k.

(** The later revision: the statuses a run handed to [m_handler.handle]. *)
Fixpoint revB_handled (tr : list RevB.event) : list CommandStatus.t :=
  match tr with
  | [] => []
  | RevB.Handle stat :: tr' => stat :: revB_handled tr'
  | _ :: tr' => revB_handled tr'
  end.

(** The later revision: the names of the segments that
    [CommandParser::parse] cuts [args] into: one per token that has a
    config, after a first segment "unknown" when the first token has none. *)
Definition revB_command_names (self : RevB.CommandParser) (args : list string)
  : list string :=
  match args with
  | [] => []
  | a :: _ =>
      (if RevB.hasConfig self a then [] else ["unknown"])
        ++ List.filter (RevB.hasConfig self) args
  end.

(** The later revision: the dispatcher's table and its parser's configs
    hold the same names. *)
Definition revB_in_sync (self : RevB.Commander) : Prop :=
  forall k, RevB.isCommand self k = RevB.hasConfig (RevB.m_parser self) k.

(** * Configurations and dispatchers used as examples *)

(** A command [cmd] with one option [--opt] of arity 1. *)
Definition cfg_opt1 : CommandConfig.t :=
  CommandConfig.append (CommandConfig.ctor "cmd")
    (Option.set_argSize (Option.ctor "--opt") 1).

(** A command whose config declares an option under the sentinel's name,
    with arity 2. *)
Definition cfg_unknown2 : CommandConfig.t :=
  CommandConfig.append (CommandConfig.ctor "cmd")
    (Option.set_argSize (Option.ctor "unknown") 2).

(** The same, with arity 0 (a default-constructed option). *)
Definition cfg_unknown0 : CommandConfig.t :=
  CommandConfig.append (CommandConfig.ctor "cmd") (Option.ctor "unknown").

(** The same, variadic with arity 1: loose tokens pass. *)
Definition cfg_unknown_v1 : CommandConfig.t :=
  CommandConfig.append (CommandConfig.ctor "cmd")
    (Option.set_variadicSize (Option.set_argSize (Option.ctor "unknown") 1) true).

(** A command whose name is one of its own options, of arity 1. *)
Definition cfg_self : CommandConfig.t :=
  CommandConfig.append (CommandConfig.ctor "cmd")
    (Option.set_argSize (Option.ctor "cmd") 1).

(** A command with a variadic option [--v] (up to 3 values) and a flag
    [--z] of arity 0. *)
Definition cfg_flags : CommandConfig.t :=
  CommandConfig.append
    (CommandConfig.append (CommandConfig.ctor "cmd")
       (Option.set_variadicSize (Option.set_argSize (Option.ctor "--v") 3) true))
    (Option.ctor "--z").

(** A handler that reports success and nothing else. *)
Definition ok_callback (name : string) : CommandCaller.callable :=
  fun _ => Ret (CommandStatus.mk name CommandStatus.OK EmptyString).

(** A command [cmd1] that declares the option [v1] with arity 2. *)
Definition cfg_cmd1 : CommandConfig.t :=
  CommandConfig.append (CommandConfig.ctor "cmd1")
    (Option.set_argSize (Option.ctor "v1") 2).

(** A dispatcher with the commands [cmd1] (that one) and [cmd2]. *)
Definition commander2 : Commander.t :=
  Commander.appendCommand
    (Commander.appendCommand (Commander.ctor [])
       (CommandCaller.ctor_callback (ok_callback "cmd1") cfg_cmd1))
    (CommandCaller.ctor_callback (ok_callback "cmd2") (CommandConfig.ctor "cmd2")).

(** The same dispatcher as [commander2], but [cmd1] declares no option. *)
Definition commander_plain : Commander.t :=
  Commander.appendCommand
    (Commander.appendCommand (Commander.ctor [])
       (CommandCaller.ctor_callback (ok_callback "cmd1") (CommandConfig.ctor "cmd1")))
    (CommandCaller.ctor_callback (ok_callback "cmd2") (CommandConfig.ctor "cmd2")).

(** A command [cmd2] that declares the option [v3] with arity 1. *)
Definition cfg_cmd2 : CommandConfig.t :=
  CommandConfig.append (CommandConfig.ctor "cmd2")
    (Option.set_argSize (Option.ctor "v3") 1).

(** A dispatcher with a plain [cmd1] and that [cmd2]. *)
Definition commander_cmd2 : Commander.t :=
  Commander.appendCommand
    (Commander.appendCommand (Commander.ctor [])
       (CommandCaller.ctor_callback (ok_callback "cmd1") (CommandConfig.ctor "cmd1")))
    (CommandCaller.ctor_callback (ok_callback "cmd2") cfg_cmd2).

(** A dispatcher for the earlier revision, where loose values need an
    option named after the command: [cmd1] declares [cmd1] with arity 2
    and [cmd2] declares [cmd2] with arity 1. *)
Definition commander_own : Commander.t :=
  Commander.appendCommand
    (Commander.appendCommand (Commander.ctor [])
       (CommandCaller.ctor_callback (ok_callback "cmd1")
          (CommandConfig.append (CommandConfig.ctor "cmd1")
             (Option.set_argSize (Option.ctor "cmd1") 2))))
    (CommandCaller.ctor_callback (ok_callback "cmd2")
       (CommandConfig.append (CommandConfig.ctor "cmd2")
          (Option.set_argSize (Option.ctor "cmd2") 1))).




(** [commander_plain] set to run on two segments. *)
Definition commander_ab : Commander.t :=
  Commander.init commander_plain ["cmd1"; "a"; "cmd2"; "b"].

(** A callable of the later revision that returns [OK] under [name]. *)
Definition ok_callback_B (name : string) : RevB.callable :=
  fun _ => Ret (CommandStatus.mk name CommandStatus.OK EmptyString).

(** A dispatcher of the later revision with the single command [cmd1] of
    [cfg_cmd1]. *)
Definition revB_commander_cmd1 : RevB.Commander :=
  RevB.appendCommand RevB.ctor
    (RevB.mkCommandCaller cfg_cmd1
       (Some (fun _ => Ret (CommandStatus.mk "cmd1" CommandStatus.OK EmptyString)))).

(** A dispatcher of the later revision with the single command [unknown]. *)
Definition revB_commander_unknown : RevB.Commander :=
  RevB.appendCommand RevB.ctor
    (RevB.mkCommandCaller (CommandConfig.ctor "unknown") (Some (ok_callback_B "unknown"))).

(** A dispatcher of the later revision without any command, as one run on
    [["notacommand"; "x"]] leaves it: the parser keeps what it parsed. *)
Definition revB_commander_ran : RevB.Commander :=
  RevB.mkCommander ["notacommand"; "x"]
    (RevB.mkCommandParser ["notacommand"; "x"]
       [RevB.mkCommandArgs "unknown" (<["unknown" := "notacommand x"]> ∅)] ∅)
    ∅.

(** A dispatcher of the later revision with the single command [x]. *)
Definition revB_commander_x : RevB.Commander :=
  RevB.appendCommand RevB.ctor
    (RevB.mkCommandCaller (CommandConfig.ctor "x")
       (Some (fun _ => Ret (CommandStatus.mk "x" CommandStatus.OK EmptyString)))).

(** * Properties *)

(** ** Strings *)

#[local] Arguments String.append !_ _ / : simpl nomatch.

Lemma append_nil_r (s : string) : s +:+ EmptyString = s.
Proof. induction s as [|c s IH]; simpl; [done | by rewrite IH]. Qed.

Lemma append_assoc (s t u : string) : (s +:+ t) +:+ u = s +:+ (t +:+ u).
Proof. induction s as [|c s IH]; simpl; [done | by rewrite IH]. Qed.

Lemma pop_back_append (s t : string) :
  t <> EmptyString -> pop_back (s +:+ t) = s +:+ pop_back t.
Proof.
  intros Ht. induction s as [|c s IH]; simpl; [done|].
  rewrite IH. destruct (s +:+ t) eqn:E; [|done].
  destruct s; simpl in E; [congruence | discriminate].
Qed.

Lemma spaced_nonempty a l : spaced (a :: l) <> EmptyString.
Proof. simpl. destruct a; simpl; discriminate. Qed.

Lemma pop_back_if_nonempty (s : string) :
  s <> EmptyString -> (if negb (empty s) then pop_back s else s) = pop_back s.
Proof. by destruct s. Qed.

(** The [if (!val.empty()) val.pop_back();] step turns the accumulated
    text into the tokens joined by single spaces. *)
Lemma pop_back_spaced (l : list string) :
  (if negb (empty (spaced l)) then pop_back (spaced l) else spaced l)
  = String.concat " " l.
Proof.
  induction l as [|a l IH]; [done|].
  rewrite pop_back_if_nonempty by apply spaced_nonempty.
  destruct l as [|b l].
  - cbn [spaced]. rewrite append_nil_r, pop_back_append by done.
    simpl. apply append_nil_r.
  - rewrite pop_back_if_nonempty in IH by apply spaced_nonempty.
    change (spaced (a :: b :: l)) with ((a +:+ " ") +:+ spaced (b :: l)).
    rewrite pop_back_append by apply spaced_nonempty.
    rewrite IH, append_assoc. done.
Qed.

(** ** The inner loop of [parse] *)

Lemma supplied_length cfg rest : length (supplied cfg rest) <= length rest.
Proof.
  induction rest as [|a rest IH]; simpl; [lia|].
  destruct (CommandConfig.has cfg a); simpl; lia.
Qed.

Lemma supplied_prefix cfg rest :
  supplied cfg rest = take (length (supplied cfg rest)) rest.
Proof.
  induction rest as [|a rest IH]; simpl; [done|].
  destruct (CommandConfig.has cfg a); simpl; [done | by rewrite <- IH].
Qed.

Lemma supplied_not_option cfg rest k :
  k ∈ supplied cfg rest -> CommandConfig.has cfg k = false.
Proof.
  induction rest as [|a rest IH]; simpl; [by intros ?%elem_of_nil|].
  destruct (CommandConfig.has cfg a) eqn:E; [by intros ?%elem_of_nil|].
  intros [->|?]%elem_of_cons; auto.
Qed.

Lemma consume_spec cfg argSize args count val :
  let m := taken cfg (argSize - count) args in
  consume cfg argSize args count val
  = (drop m args, (count + N.of_nat m)%N, val +:+ spaced (take m args)).
Proof.
  unfold taken.
  revert count val. induction args as [|a rest IH]; intros count val; cbn zeta.
  - cbn [consume supplied length]. rewrite N.min_0_r. simpl.
    by rewrite N.add_0_r, append_nil_r.
  - cbn [consume supplied]. unfold isProperty.
    destruct (CommandConfig.has cfg a) eqn:Ha.
    + cbn [length]. rewrite N.min_0_r. simpl. by rewrite N.add_0_r, append_nil_r.
    + destruct (N.ltb_spec count argSize) as [Hlt|Hge].
      * rewrite IH. cbn zeta. cbn [length].
        set (n := length (supplied cfg rest)).
        replace (N.to_nat (N.min (argSize - count) (N.of_nat (S n))))
          with (S (N.to_nat (N.min (argSize - (count + 1)) (N.of_nat n)))) by lia.
        cbn [drop take spaced].
        f_equal; [f_equal; lia|]. by rewrite !append_assoc.
      * replace (N.min (argSize - count) _) with 0%N by lia.
        simpl. by rewrite N.add_0_r, append_nil_r.
Qed.

(** From a fresh [count] and [val]: the loop takes [taken] tokens. *)
Lemma consume_fresh cfg argSize args :
  consume cfg argSize args 0%N EmptyString
  = (drop (taken cfg argSize args) args,
     N.of_nat (taken cfg argSize args),
     spaced (take (taken cfg argSize args) args)).
Proof.
  rewrite consume_spec. cbn zeta. by rewrite N.sub_0_r.
Qed.

(** ** One iteration of the outer loop of [parse] *)

Section Step.
Variable cfg : CommandConfig.t.
Implicit Types (args rest : list string) (tbl : gmap string string).

(** The cursor is on the command's own name, which is no option. *)
Lemma parse_loop_skip fuel a rest tbl :
  a = CommandConfig.name cfg ->
  CommandConfig.has cfg a = false ->
  parse_loop cfg (S fuel) (a :: rest) tbl = parse_loop cfg fuel rest tbl.
Proof.
  intros Ha Hhas. cbn [parse_loop]. unfold isCommand.
  by rewrite bool_decide_eq_true_2, Hhas.
Qed.

(** The cursor is on a recognized option. *)
Lemma parse_loop_option fuel o opt rest tbl :
  CommandConfig.m_options cfg !! o = Some opt ->
  parse_loop cfg (S fuel) (o :: rest) tbl =
    let m := taken cfg (Option.argSize opt) rest in
    if (N.of_nat m <? Option.argSize opt)%N && negb (Option.variadicSize opt)
    then Throw (arity_error o)
    else parse_loop cfg fuel (drop m rest) (<[o := String.concat " " (take m rest)]> tbl).
Proof.
  intros Ho. cbn [parse_loop]. unfold isProperty, CommandConfig.has, CommandConfig.option.
  rewrite Ho. rewrite andb_false_r. cbn [mbind outcome_bind obind].
  rewrite Ho. cbn [mbind outcome_bind obind].
  rewrite consume_fresh, pop_back_spaced. done.
Qed.

(** The cursor is on any other token. *)
Lemma parse_loop_value fuel a rest tbl :
  CommandConfig.has cfg a = false ->
  a <> CommandConfig.name cfg ->
  parse_loop cfg (S fuel) (a :: rest) tbl =
    let opt := unknown_option cfg in
    let m := taken cfg (Option.argSize opt) (a :: rest) in
    if (N.of_nat m <? Option.argSize opt)%N && negb (Option.variadicSize opt)
    then Throw (arity_error "unknown")
    else parse_loop cfg fuel (drop m (a :: rest))
           (<["unknown" := String.concat " " (take m (a :: rest))]> tbl).
Proof.
  intros Hhas Hne. cbn [parse_loop]. unfold isCommand, isProperty.
  rewrite bool_decide_eq_false_2 by done. rewrite Hhas. cbn [andb].
  unfold unknown_option, CommandConfig.has, CommandConfig.option.
  change (Option.name unk_opt) with "unknown".
  destruct (CommandConfig.m_options cfg !! "unknown") as [opt|] eqn:Hu;
    cbn [mbind outcome_bind obind default];
    rewrite consume_fresh, pop_back_spaced; done.
Qed.

(** The three cases are exhaustive. *)
Lemma cursor_cases a :
  (exists opt, CommandConfig.m_options cfg !! a = Some opt)
  \/ (CommandConfig.has cfg a = false /\ a = CommandConfig.name cfg)
  \/ (CommandConfig.has cfg a = false /\ a <> CommandConfig.name cfg).
Proof.
  unfold CommandConfig.has.
  destruct (CommandConfig.m_options cfg !! a) as [opt|]; [eauto|].
  destruct (decide (a = CommandConfig.name cfg)); auto.
Qed.

(** More fuel never changes a result that was reached. *)
Lemma parse_loop_fuel fuel fuel' args tbl :
  parse_loop cfg fuel args tbl <> OutOfFuel ->
  fuel <= fuel' ->
  parse_loop cfg fuel' args tbl = parse_loop cfg fuel args tbl.
Proof.
  revert fuel' args tbl.
  induction fuel as [|fuel IH]; intros fuel' args tbl Hres Hle.
  - destruct args; [by destruct fuel'|]. by simpl in Hres.
  - destruct args as [|a rest]; [by destruct fuel'|].
    destruct fuel' as [|fuel']; [lia|].
    destruct (cursor_cases a) as [[opt Ho]|[[Hh Hn]|[Hh Hn]]].
    + rewrite !(parse_loop_option _ _ _ _ _ Ho) in *. cbn zeta in *.
      destruct (_ && _); [done|]. apply IH; [done | lia].
    + rewrite !(parse_loop_skip _ _ _ _ Hn Hh) in *. apply IH; [done | lia].
    + rewrite !(parse_loop_value _ _ _ _ Hh Hn) in *. cbn zeta in *.
      destruct (_ && _); [done|]. apply IH; [done | lia].
Qed.
End Step.

(** ** Segments that satisfy every arity *)

Lemma arity_ok_drop cfg n T : arity_ok cfg T = true -> arity_ok cfg (drop n T) = true.
Proof.
  revert T. induction n as [|n IH]; intros [|t rest]; simpl; try done.
  intros [_ H]%andb_true_iff. by apply IH.
Qed.

Lemma taken_le_supplied cfg argSize rest :
  taken cfg argSize rest <= length (supplied cfg rest).
Proof. unfold taken. lia. Qed.

Lemma take_supplied_not_option cfg n rest k :
  n <= length (supplied cfg rest) ->
  k ∈ take n rest -> CommandConfig.has cfg k = false.
Proof.
  intros Hn Hk. apply (supplied_not_option cfg rest).
  apply (subseteq_take n). rewrite supplied_prefix, take_take.
  by rewrite Nat.min_l.
Qed.

Lemma option_in_drop cfg n rest k :
  n <= length (supplied cfg rest) ->
  k ∈ rest -> CommandConfig.has cfg k = true -> k ∈ drop n rest.
Proof.
  intros Hn Hk Hhas. rewrite <- (take_drop n rest) in Hk.
  apply elem_of_app in Hk as [Hk|Hk]; [|done].
  apply (take_supplied_not_option cfg) in Hk; [congruence | done].
Qed.

Lemma has_lookup cfg k :
  CommandConfig.has cfg k = true <-> is_Some (CommandConfig.m_options cfg !! k).
Proof.
  unfold CommandConfig.has.
  destruct (CommandConfig.m_options cfg !! k); split; intros H;
    first [done | by eexists | by destruct H].
Qed.

Lemma unknown_option_default cfg :
  CommandConfig.m_options cfg !! "unknown" = None -> unknown_option cfg = unk_opt.
Proof. unfold unknown_option. by intros ->. Qed.

Lemma taken_value_pos cfg a rest :
  CommandConfig.has cfg a = false ->
  1 <= taken cfg (Option.argSize unk_opt) (a :: rest).
Proof.
  intros Ha. unfold taken. cbn [supplied]. rewrite Ha. cbn [length].
  change (Option.argSize unk_opt) with SIZE_MAX.
  assert (1 <= SIZE_MAX)%N by by apply N.leb_le.
  lia.
Qed.

Lemma loose_tokens_pass_default cfg :
  CommandConfig.m_options cfg !! "unknown" = None -> loose_tokens_pass cfg = true.
Proof. intros Hunk. unfold loose_tokens_pass. by rewrite unknown_option_default. Qed.

Lemma parse_loop_arity_ok cfg :
  loose_tokens_pass cfg = true ->
  forall fuel T tbl,
    length T <= fuel ->
    arity_ok cfg T = true ->
    exists tbl',
      parse_loop cfg fuel T tbl = Ret tbl'
      /\ (forall k, is_Some (tbl !! k) -> is_Some (tbl' !! k))
      /\ (forall k, k ∈ T -> CommandConfig.has cfg k = true -> is_Some (tbl' !! k)).
Proof.
  intros Hunk. induction fuel as [|fuel IH]; intros T tbl Hlen Hok.
  { destruct T; [|simpl in Hlen; lia]. exists tbl. split; [done|].
    split; [done|]. by intros k ?%elem_of_nil. }
  destruct T as [|a rest].
  { exists tbl. split; [done|]. split; [done|]. by intros k ?%elem_of_nil. }
  simpl in Hlen. cbn [arity_ok] in Hok. apply andb_true_iff in Hok as [Ha Hrest].
  destruct (cursor_cases cfg a) as [[opt Ho]|[[Hh Hn]|[Hh Hn]]].
  - rewrite (parse_loop_option _ _ _ _ _ _ Ho). cbn zeta.
    rewrite Ho in Ha. set (m := taken cfg (Option.argSize opt) rest).
    assert (Hm : m <= length (supplied cfg rest)) by apply taken_le_supplied.
    assert (Hno : (N.of_nat m <? Option.argSize opt)%N
                  && negb (Option.variadicSize opt) = false).
    { destruct (Option.variadicSize opt); [by rewrite andb_false_r|].
      simpl in Ha. apply N.leb_le in Ha. rewrite andb_true_r.
      apply N.ltb_ge. unfold m, taken. lia. }
    rewrite Hno.
    destruct (IH (drop m rest) (<[a := String.concat " " (take m rest)]> tbl))
      as (tbl' & Hrun & Hkeep & Hkeys).
    { rewrite length_drop. lia. }
    { by apply arity_ok_drop. }
    exists tbl'. split; [done|]. split.
    + intros k Hk. apply Hkeep. destruct (decide (a = k)) as [->|Hne].
      * rewrite lookup_insert_eq. eauto.
      * by rewrite lookup_insert_ne.
    + intros k [->|Hk]%elem_of_cons Hhas.
      * apply Hkeep. rewrite lookup_insert_eq. eauto.
      * apply Hkeys; [|done]. by apply (option_in_drop cfg).
  - rewrite (parse_loop_skip _ _ _ _ _ Hn Hh).
    destruct (IH rest tbl) as (tbl' & Hrun & Hkeep & Hkeys); [lia | done |].
    exists tbl'. split; [done|]. split; [done|].
    intros k [->|Hk]%elem_of_cons Hhas; [congruence | by apply Hkeys].
  - rewrite (parse_loop_value _ _ _ _ _ Hh Hn). cbn zeta.
    set (m := taken cfg (Option.argSize (unknown_option cfg)) (a :: rest)).
    assert (Hm : m <= length (supplied cfg (a :: rest))) by apply taken_le_supplied.
    unfold loose_tokens_pass in Hunk.
    apply andb_true_iff in Hunk as Hu. destruct Hu as [Hnz Hone].
    apply negb_true_iff, N.eqb_neq in Hnz.
    assert (Hpos : 1 <= m).
    { unfold m, taken. cbn [supplied]. rewrite Hh. cbn [length]. lia. }
    assert (Hno : (N.of_nat m <? Option.argSize (unknown_option cfg))%N
                  && negb (Option.variadicSize (unknown_option cfg)) = false).
    { apply orb_true_iff in Hone as [-> | Hone]; [by rewrite andb_false_r|].
      apply N.eqb_eq in Hone. apply andb_false_iff. left. apply N.ltb_ge. lia. }
    rewrite Hno.
    destruct (IH (drop m (a :: rest))
                (<["unknown" := String.concat " " (take m (a :: rest))]> tbl))
      as (tbl' & Hrun & Hkeep & Hkeys).
    { rewrite length_drop. simpl. lia. }
    { apply arity_ok_drop. cbn [arity_ok]. by rewrite Ha, Hrest. }
    exists tbl'. split; [done|]. split.
    + intros k Hk. apply Hkeep. destruct (decide ("unknown" = k)) as [<-|Hne].
      * rewrite lookup_insert_eq. eauto.
      * by rewrite lookup_insert_ne.
    + intros k Hk Hhas. apply Hkeys; [|done]. by apply (option_in_drop cfg).
Qed.

(** C1, amended: take a config in which the option that governs loose
    tokens (the sentinel, or the config's own option "unknown" when it
    declares one) has an arity other than 0 and is variadic or of arity 1;
    a config that declares no "unknown" is one.  For every segment in which
    each occurrence of a non-variadic option is followed by at least its
    arity of value tokens, [CommandArgs::parse] returns (for every fuel
    that covers the segment's length) a table with an entry for every
    recognized option key that appears in the segment. *)
Theorem parse_arity_ok_succeeds (cfg : CommandConfig.t) (T : list string) :
  loose_tokens_pass cfg = true ->
  arity_ok cfg T = true ->
  exists tbl,
    (forall fuel, length T <= fuel -> parse cfg fuel T = Ret tbl)
    /\ (forall k, k ∈ T -> CommandConfig.has cfg k = true -> is_Some (tbl !! k)).
Proof.
  intros Hunk Hok.
  destruct (parse_loop_arity_ok cfg Hunk (length T) T ∅) as (tbl & Hrun & _ & Hkeys);
    [done | done |].
  exists tbl. split; [|done].
  intros fuel Hfuel. unfold parse.
  rewrite (parse_loop_fuel cfg (length T) fuel); [done | by rewrite Hrun | done].
Qed.

Lemma parse_arity_ok_succeeds_witness :
  (exists tbl,
     (forall fuel, length ["cmd"; "loose"; "--opt"; "v"] <= fuel ->
        parse cfg_opt1 fuel ["cmd"; "loose"; "--opt"; "v"] = Ret tbl)
     /\ (forall k, k ∈ ["cmd"; "loose"; "--opt"; "v"] ->
           CommandConfig.has cfg_opt1 k = true -> is_Some (tbl !! k)))
  /\ (exists tbl,
       (forall fuel, length ["a"; "b"] <= fuel ->
          parse cfg_unknown_v1 fuel ["a"; "b"] = Ret tbl)
       /\ (forall k, k ∈ ["a"; "b"] ->
             CommandConfig.has cfg_unknown_v1 k = true -> is_Some (tbl !! k))).
Proof.
  split.
  - apply (parse_arity_ok_succeeds cfg_opt1 ["cmd"; "loose"; "--opt"; "v"]);
      reflexivity.
  - apply (parse_arity_ok_succeeds cfg_unknown_v1 ["a"; "b"]); reflexivity.
Defined.

(** C1 as stated fails: the segment [["a"]] holds no occurrence of any
    option, yet parsing it against [cfg_unknown2] raises the arity error,
    because the loose token is checked against the declared "unknown",
    which is neither variadic nor of arity 1. *)
Lemma parse_arity_ok_counterexample :
  arity_ok cfg_unknown2 ["a"] = true
  /\ parse cfg_unknown2 (length ["a"]) ["a"] = Throw (arity_error "unknown")
  /\ ~ (exists tbl,
          (forall fuel, length ["a"] <= fuel -> parse cfg_unknown2 fuel ["a"] = Ret tbl)
          /\ (forall k, k ∈ ["a"] -> CommandConfig.has cfg_unknown2 k = true ->
                is_Some (tbl !! k))).
Proof.
  split; [reflexivity|]. split; [reflexivity|].
  intros (tbl & Hrun & _). specialize (Hrun 1 (le_n _)). discriminate Hrun.
Qed.

(** With a declared "unknown" of arity 0 the loop makes no progress on a
    loose token: no amount of fuel lets [parse] return. *)
Lemma parse_unknown0_hangs fuel tbl :
  parse_loop cfg_unknown0 fuel ["a"] tbl = OutOfFuel.
Proof.
  revert tbl. induction fuel as [|fuel IH]; intros tbl; [done|].
  rewrite parse_loop_value; [|done|done]. cbn zeta.
  change (unknown_option cfg_unknown0) with (Option.ctor "unknown").
  change (taken cfg_unknown0 (Option.argSize (Option.ctor "unknown")) ["a"]) with 0.
  cbn [andb N.ltb N.compare N.of_nat Option.argSize Option.ctor Option.m_argSize drop take].
  apply IH.
Qed.

(** ** Fuel and prefixes *)

Section Compose.
Variable cfg : CommandConfig.t.
Implicit Types (args rest pre : list string) (tbl : gmap string string).

(** An iteration that takes no token and raises nothing leaves the cursor
    where it was: the loop spins. *)
Lemma parse_loop_spins a rest :
  CommandConfig.has cfg a = false ->
  a <> CommandConfig.name cfg ->
  taken cfg (Option.argSize (unknown_option cfg)) (a :: rest) = 0 ->
  (N.of_nat 0 <? Option.argSize (unknown_option cfg))%N
    && negb (Option.variadicSize (unknown_option cfg)) = false ->
  forall fuel tbl, parse_loop cfg fuel (a :: rest) tbl = OutOfFuel.
Proof.
  intros Hh Hn Hm Hc. induction fuel as [|fuel IH]; intros tbl; [done|].
  rewrite (parse_loop_value _ _ _ _ _ Hh Hn). cbn zeta. rewrite Hm, Hc.
  apply IH.
Qed.

(** A result that is reached at all is reached within [length args]
    iterations. *)
Lemma parse_loop_length fuel args tbl :
  parse_loop cfg fuel args tbl <> OutOfFuel ->
  parse_loop cfg (length args) args tbl = parse_loop cfg fuel args tbl.
Proof.
  revert args tbl. induction fuel as [|fuel IH]; intros args tbl Hres.
  { destruct args; [done | by simpl in Hres]. }
  destruct args as [|a rest]; [done|]. cbn [length].
  destruct (cursor_cases cfg a) as [[opt Ho]|[[Hh Hn]|[Hh Hn]]].
  - rewrite !(parse_loop_option _ _ _ _ _ _ Ho) in *. cbn zeta in *.
    destruct (_ && _); [done|].
    rewrite <- (IH _ _ Hres). apply parse_loop_fuel.
    + by rewrite (IH _ _ Hres).
    + rewrite length_drop. lia.
  - rewrite !(parse_loop_skip _ _ _ _ _ Hn Hh) in *. by apply IH.
  - destruct (decide (taken cfg (Option.argSize (unknown_option cfg)) (a :: rest) = 0))
      as [Hm|Hm].
    + rewrite (parse_loop_value _ _ _ _ _ Hh Hn) in Hres. cbn zeta in Hres.
      rewrite Hm in Hres.
      destruct ((N.of_nat 0 <? _)%N && _) eqn:Hc in Hres.
      * rewrite !(parse_loop_value _ _ _ _ _ Hh Hn). cbn zeta.
        by rewrite Hm, Hc.
      * by rewrite (parse_loop_spins a rest Hh Hn Hm Hc) in Hres.
    + rewrite !(parse_loop_value _ _ _ _ _ Hh Hn) in *. cbn zeta in *.
      destruct (_ && _); [done|].
      rewrite <- (IH _ _ Hres). apply parse_loop_fuel.
      * by rewrite (IH _ _ Hres).
      * rewrite length_drop. simpl. lia.
Qed.

Lemma parse_loop_enough fuel args tbl r :
  parse_loop cfg fuel args tbl = r ->
  r <> OutOfFuel ->
  forall fuel', length args <= fuel' -> parse_loop cfg fuel' args tbl = r.
Proof.
  intros <- Hr fuel' Hle.
  rewrite <- (parse_loop_length fuel) by done.
  apply parse_loop_fuel; [|done]. by rewrite (parse_loop_length fuel).
Qed.

Lemma supplied_app_option pre o rest :
  CommandConfig.has cfg o = true ->
  supplied cfg (pre ++ o :: rest) = supplied cfg pre.
Proof.
  intros Ho. induction pre as [|a pre IH]; simpl; [by rewrite Ho|].
  destruct (CommandConfig.has cfg a); [done | by rewrite IH].
Qed.

Lemma taken_app_option argSize pre o rest :
  CommandConfig.has cfg o = true ->
  taken cfg argSize (pre ++ o :: rest) = taken cfg argSize pre.
Proof. intros Ho. unfold taken. by rewrite supplied_app_option. Qed.

Lemma taken_le_length argSize args : taken cfg argSize args <= length args.
Proof.
  pose proof (taken_le_supplied cfg argSize args).
  pose proof (supplied_length cfg args). lia.
Qed.

(** Parsing a prefix that is followed by a recognized option goes through
    the same iterations as parsing the prefix alone. *)
Lemma parse_loop_app fuel pre tbl tbl1 o rest :
  CommandConfig.has cfg o = true ->
  parse_loop cfg fuel pre tbl = Ret tbl1 ->
  exists used, forall g,
    parse_loop cfg (used + g) (pre ++ o :: rest) tbl = parse_loop cfg g (o :: rest) tbl1.
Proof.
  intros Ho. revert pre tbl.
  induction fuel as [|fuel IH]; intros pre tbl Hpre.
  { destruct pre; [|done]. injection Hpre as <-. by exists 0. }
  destruct pre as [|a pre]. { injection Hpre as <-. by exists 0. }
  destruct (cursor_cases cfg a) as [[opt Hopt]|[[Hh Hn]|[Hh Hn]]].
  - rewrite (parse_loop_option _ _ _ _ _ _ Hopt) in Hpre. cbn zeta in Hpre.
    destruct (_ && _) eqn:Hc; [done|].
    destruct (IH _ _ Hpre) as [used Hused]. exists (S used). intros g.
    cbn [app Nat.add]. rewrite (parse_loop_option _ _ _ _ _ _ Hopt). cbn zeta.
    rewrite (taken_app_option _ _ _ _ Ho), Hc.
    pose proof (taken_le_length (Option.argSize opt) pre).
    rewrite drop_app_le, take_app_le by done. apply Hused.
  - rewrite (parse_loop_skip _ _ _ _ _ Hn Hh) in Hpre.
    destruct (IH _ _ Hpre) as [used Hused]. exists (S used). intros g.
    cbn [app Nat.add]. rewrite (parse_loop_skip _ _ _ _ _ Hn Hh). apply Hused.
  - rewrite (parse_loop_value _ _ _ _ _ Hh Hn) in Hpre. cbn zeta in Hpre.
    destruct (_ && _) eqn:Hc; [done|].
    destruct (IH _ _ Hpre) as [used Hused]. exists (S used). intros g.
    change ((a :: pre) ++ o :: rest) with (a :: (pre ++ o :: rest)).
    cbn [Nat.add]. rewrite (parse_loop_value _ _ _ _ _ Hh Hn). cbn zeta.
    change (a :: (pre ++ o :: rest)) with ((a :: pre) ++ o :: rest).
    rewrite (taken_app_option _ _ _ _ Ho), Hc.
    pose proof (taken_le_length (Option.argSize (unknown_option cfg)) (a :: pre)).
    rewrite drop_app_le, take_app_le by done. apply Hused.
Qed.

(** The outcome of a segment [pre ++ o :: rest] whose prefix parses is the
    outcome of the loop resumed on [o :: rest]. *)
Lemma parse_loop_resume fuel g pre tbl tbl1 o rest r :
  CommandConfig.has cfg o = true ->
  parse_loop cfg fuel pre tbl = Ret tbl1 ->
  parse_loop cfg g (o :: rest) tbl1 = r ->
  r <> OutOfFuel ->
  forall fuel', length (pre ++ o :: rest) <= fuel' ->
    parse_loop cfg fuel' (pre ++ o :: rest) tbl = r.
Proof.
  intros Ho Hpre Hr Hne.
  destruct (parse_loop_app fuel pre tbl tbl1 o rest Ho Hpre) as [used Hused].
  apply (parse_loop_enough (used + g)); [|done]. by rewrite Hused.
Qed.
End Compose.

(** The condition of [loose_tokens_pass] cannot be weakened: where it
    fails, the segment made of one loose token, which holds no occurrence
    of any option, does not parse. *)
Lemma parse_loose_token_fails cfg a :
  loose_tokens_pass cfg = false ->
  CommandConfig.has cfg a = false ->
  a <> CommandConfig.name cfg ->
  arity_ok cfg [a] = true
  /\ forall fuel, parse cfg fuel [a] = OutOfFuel
                  \/ parse cfg fuel [a] = Throw (arity_error "unknown").
Proof.
  intros Hpass Hh Hn. split.
  { cbn [arity_ok]. unfold CommandConfig.has in Hh.
    by destruct (CommandConfig.m_options cfg !! a). }
  intros fuel. unfold parse.
  destruct (N.eq_dec (Option.argSize (unknown_option cfg)) 0%N) as [Hz|Hnz].
  - left. apply parse_loop_spins; [done | done | |by rewrite Hz].
    unfold taken. by rewrite Hz, N.min_0_l.
  - destruct fuel as [|fuel]; [by left|]. right.
    rewrite (parse_loop_value _ _ _ _ _ Hh Hn). cbn zeta.
    unfold loose_tokens_pass in Hpass.
    apply andb_false_iff in Hpass as [Hp|Hp].
    { apply negb_false_iff, N.eqb_eq in Hp. by destruct Hnz. }
    apply orb_false_iff in Hp as [Hvar Hone]. apply N.eqb_neq in Hone.
    assert (Hm : taken cfg (Option.argSize (unknown_option cfg)) [a] = 1).
    { unfold taken. cbn [supplied]. rewrite Hh. cbn [length]. lia. }
    rewrite Hm, Hvar.
    assert (Hlt : (N.of_nat 1 <? Option.argSize (unknown_option cfg))%N = true)
      by (apply N.ltb_lt; lia).
    by rewrite Hlt.
Qed.

(** ** Options of fixed arity *)

Lemma supplied_drop cfg n rest :
  n <= length (supplied cfg rest) ->
  supplied cfg (drop n rest) = drop n (supplied cfg rest).
Proof.
  revert rest. induction n as [|n IH]; intros rest Hn; [done|].
  destruct rest as [|a rest]; [done|]. simpl in *.
  destruct (CommandConfig.has cfg a); simpl in *; [lia|]. apply IH. lia.
Qed.

Lemma take_supplied cfg n rest :
  n <= length (supplied cfg rest) -> take n rest = take n (supplied cfg rest).
Proof.
  intros Hn. rewrite supplied_prefix, take_take. by rewrite Nat.min_l.
Qed.

(** *** The same place in the earlier revision *)

(** The earlier revision: a value beyond the arity is an error. *)
Lemma revD_consume_surplus cfg argSize args count val :
  (argSize < count + N.of_nat (length (supplied cfg args)))%N ->
  (count <= argSize)%N ->
  RevD.consume cfg argSize args count val
  = Throw (RevD.unexpected_value (default EmptyString (args !! N.to_nat (argSize - count)))).
Proof.
  revert count val. induction args as [|a rest IH]; intros count val Hlt Hle.
  { simpl in Hlt. lia. }
  cbn [RevD.consume supplied] in *. unfold isProperty.
  destruct (CommandConfig.has cfg a) eqn:Ha; [simpl in Hlt; lia|].
  cbn [length] in Hlt.
  destruct (N.ltb_spec count argSize) as [Hc|Hc].
  - rewrite IH by lia.
    replace (N.to_nat (argSize - count)) with (S (N.to_nat (argSize - (count + 1)))) by lia.
    done.
  - replace (N.to_nat (argSize - count)) with 0 by lia. done.
Qed.

Lemma revD_parse_surplus_throws cfg fuel o opt rest command_count tbl :
  CommandConfig.m_options cfg !! o = Some opt ->
  N.to_nat (Option.argSize opt) < length (supplied cfg rest) ->
  RevD.parse_loop cfg (S fuel) (o :: rest) command_count tbl
  = Throw (RevD.unexpected_value
             (default EmptyString (rest !! N.to_nat (Option.argSize opt)))).
Proof.
  intros Ho Hk. cbn [RevD.parse_loop].
  unfold isProperty, CommandConfig.has, CommandConfig.option. rewrite Ho.
  cbv beta iota. rewrite Ho. cbn [mbind outcome_bind obind].
  rewrite revD_consume_surplus by lia. by rewrite N.sub_0_r.
Qed.

(** The earlier revision: values within the arity are taken as in the
    embedded revision. *)
Lemma revD_consume_fits cfg argSize args :
  forall count val,
    (count + N.of_nat (length (supplied cfg args)) <= argSize)%N ->
    RevD.consume cfg argSize args count val = Ret (consume cfg argSize args count val).
Proof.
  induction args as [|a rest IH]; intros count val Hfit; [done|].
  cbn [RevD.consume consume supplied] in *. unfold isProperty in *.
  destruct (CommandConfig.has cfg a); [done|]. cbn [length] in Hfit.
  destruct (N.ltb_spec count argSize) as [Hc|Hc]; [|lia].
  apply IH. lia.
Qed.

Lemma revD_parse_loop_option cfg fuel o opt rest command_count tbl :
  CommandConfig.m_options cfg !! o = Some opt ->
  length (supplied cfg rest) <= N.to_nat (Option.argSize opt) ->
  RevD.parse_loop cfg (S fuel) (o :: rest) command_count tbl =
    let m := length (supplied cfg rest) in
    if (N.of_nat m <? Option.argSize opt)%N && negb (Option.variadicSize opt)
    then Throw (arity_error o)
    else RevD.parse_loop cfg fuel (drop m rest) command_count
           (<[o := String.concat " " (take m rest)]> tbl).
Proof.
  intros Ho Hfit. cbn [RevD.parse_loop].
  unfold isProperty, CommandConfig.has, CommandConfig.option. rewrite Ho.
  cbv beta iota. rewrite Ho. cbn [mbind outcome_bind obind].
  rewrite revD_consume_fits by lia. cbn [mbind outcome_bind obind].
  rewrite consume_fresh, pop_back_spaced.
  assert (Hm : taken cfg (Option.argSize opt) rest = length (supplied cfg rest))
    by (unfold taken; lia).
  by rewrite Hm.
Qed.

(** C2, amended: let [o] be declared with [variadic = false] and arity
    [k].  In the revision with the sentinel, let [o] occur in a segment
    after a prefix that parses.  If fewer than [k] value tokens follow it
    (before the next recognized option or the end), parsing the segment
    raises the arity error that names [o].  If at least [k] follow, exactly
    the first [k] are stored under [o], joined by single spaces, and
    parsing goes on with what is left: with exactly [k] that is the next
    key or the end of the segment (and then parsing returns), with more
    than [k] the surplus tokens are stored under the sentinel key
    "unknown".  In the earlier revision, whenever the loop's cursor is on
    [o]: fewer than [k] values raise the same arity error, exactly [k] are
    stored under [o] and parsing goes on after them, and with more than
    [k] the value after the [k]-th raises "unexpected value". *)
Theorem parse_fixed_arity (cfg : CommandConfig.t) (o : string) (opt : Option.t)
    (pre rest : list string) (fuel0 : nat) (tbl1 : gmap string string) :
  CommandConfig.m_options cfg !! o = Some opt ->
  Option.variadicSize opt = false ->
  parse cfg fuel0 pre = Ret tbl1 ->
  let k := N.to_nat (Option.argSize opt) in
  let vs := supplied cfg rest in
  let T := pre ++ o :: rest in
  (length vs < k ->
     forall fuel, length T <= fuel -> parse cfg fuel T = Throw (arity_error o))
  /\ (k <= length vs ->
      forall g r,
        parse_loop cfg g (drop k rest) (<[o := String.concat " " (take k vs)]> tbl1) = r ->
        r <> OutOfFuel ->
        forall fuel, length T <= fuel -> parse cfg fuel T = r)
  /\ (length vs = k ->
      supplied cfg (drop k rest) = []
      /\ (drop k rest = [] ->
          forall fuel, length T <= fuel ->
            parse cfg fuel T = Ret (<[o := String.concat " " vs]> tbl1)))
  /\ (k < length vs ->
      CommandConfig.m_options cfg !! "unknown" = None ->
      head (drop k vs) <> Some (CommandConfig.name cfg) ->
      (N.of_nat (length vs) <= SIZE_MAX)%N ->
      forall g r,
        parse_loop cfg g (drop (length vs) rest)
          (<["unknown" := String.concat " " (drop k vs)]>
             (<[o := String.concat " " (take k vs)]> tbl1)) = r ->
        r <> OutOfFuel ->
        forall fuel, length T <= fuel -> parse cfg fuel T = r)
  /\ (forall fuel command_count tbl,
        (length vs < k ->
         RevD.parse_loop cfg (S fuel) (o :: rest) command_count tbl
         = Throw (arity_error o))
        /\ (length vs = k ->
            RevD.parse_loop cfg (S fuel) (o :: rest) command_count tbl
            = RevD.parse_loop cfg fuel (drop k rest) command_count
                (<[o := String.concat " " vs]> tbl))
        /\ (k < length vs ->
            RevD.parse_loop cfg (S fuel) (o :: rest) command_count tbl
            = Throw (RevD.unexpected_value (default EmptyString (vs !! k))))).
Proof.
  intros Ho Hvar Hpre k vs T.
  assert (Hhas : CommandConfig.has cfg o = true) by (apply has_lookup; eauto).
  assert (Hstep : forall g,
    parse_loop cfg (S g) (o :: rest) tbl1 =
      if (N.of_nat (Nat.min k (length vs)) <? Option.argSize opt)%N
      then Throw (arity_error o)
      else parse_loop cfg g (drop (Nat.min k (length vs)) rest)
             (<[o := String.concat " " (take (Nat.min k (length vs)) vs)]> tbl1)).
  { intros g. rewrite (parse_loop_option _ _ _ _ _ _ Ho). cbn zeta.
    rewrite Hvar, andb_true_r.
    assert (Hm : taken cfg (Option.argSize opt) rest = Nat.min k (length vs))
      by (unfold taken, k, vs; lia).
    rewrite Hm. rewrite (take_supplied cfg (Nat.min k (length vs))); [done|].
    fold vs. lia. }
  assert (Hge : k <= length vs ->
      forall g r,
        parse_loop cfg g (drop k rest) (<[o := String.concat " " (take k vs)]> tbl1) = r ->
        r <> OutOfFuel ->
        forall fuel, length T <= fuel -> parse cfg fuel T = r).
  { intros Hk g r Hr Hne fuel Hfuel.
    apply (parse_loop_resume cfg fuel0 (S g) pre ∅ tbl1 o rest); try done.
    rewrite Hstep, Nat.min_l by done.
    assert (Hc : (N.of_nat k <? Option.argSize opt)%N = false)
      by (apply N.ltb_ge; unfold k; lia).
    by rewrite Hc. }
  split; [|split; [exact Hge|split; [|split]]].
  - intros Hlt fuel Hfuel.
    apply (parse_loop_resume cfg fuel0 1 pre ∅ tbl1 o rest); try done.
    rewrite Hstep, Nat.min_r by lia.
    assert (Hc : (N.of_nat (length vs) <? Option.argSize opt)%N = true)
      by (apply N.ltb_lt; unfold k in Hlt; lia).
    by rewrite Hc.
  - intros Hk. split.
    + rewrite supplied_drop by (fold vs; lia). fold vs. apply drop_ge. lia.
    + intros Hnil fuel Hfuel. apply (Hge ltac:(lia) 0); [|done|done].
      rewrite Hnil. cbn [parse_loop]. rewrite take_ge; [done|lia].
  - intros Hk Hunk Hhead Hmax g r Hr Hne fuel Hfuel.
    apply (Hge ltac:(lia) (S g)); [|done|done].
    assert (Hsup : supplied cfg (drop k rest) = drop k vs)
      by (apply supplied_drop; fold vs; lia).
    destruct (drop k rest) as [|t rest'] eqn:Hdrop.
    { simpl in Hsup. symmetry in Hsup. apply (f_equal length) in Hsup.
      rewrite length_drop in Hsup. simpl in Hsup. lia. }
    assert (Ht : head (drop k vs) = Some t /\ CommandConfig.has cfg t = false).
    { rewrite <- Hsup. cbn [supplied].
      destruct (CommandConfig.has cfg t) eqn:E; [|done].
      exfalso. cbn [supplied] in Hsup. rewrite E in Hsup.
      apply (f_equal length) in Hsup.
      rewrite length_drop in Hsup. simpl in Hsup. lia. }
    destruct Ht as [Ht Hnot].
    rewrite parse_loop_value; [|done|congruence]. cbn zeta.
    rewrite (unknown_option_default _ Hunk).
    change (Option.variadicSize unk_opt) with true. rewrite andb_false_r.
    assert (Hm : taken cfg (Option.argSize unk_opt) (t :: rest') = length vs - k).
    { unfold taken. rewrite Hsup, length_drop.
      change (Option.argSize unk_opt) with SIZE_MAX. lia. }
    rewrite Hm, <- Hdrop, drop_drop, take_drop_commute.
    replace (k + (length vs - k)) with (length vs) by lia.
    replace (take (length vs) rest) with vs by apply supplied_prefix.
    exact Hr.
  - intros fuel command_count tbl. split; [|split].
    + intros Hlt. rewrite (revD_parse_loop_option _ _ _ _ _ _ _ Ho) by (fold vs; lia).
      cbn zeta. fold vs. rewrite Hvar, andb_true_r.
      assert (Hc : (N.of_nat (length vs) <? Option.argSize opt)%N = true)
        by (apply N.ltb_lt; unfold k in Hlt; lia).
      by rewrite Hc.
    + intros Hk. rewrite (revD_parse_loop_option _ _ _ _ _ _ _ Ho) by (fold vs; lia).
      cbn zeta. fold vs. rewrite Hvar, andb_true_r.
      assert (Hc : (N.of_nat (length vs) <? Option.argSize opt)%N = false)
        by (apply N.ltb_ge; unfold k in Hk; lia).
      rewrite Hc, Hk. replace (take k rest) with vs; [done|].
      unfold vs. rewrite supplied_prefix. fold vs. by rewrite Hk.
    + intros Hk. rewrite (revD_parse_surplus_throws _ _ _ _ _ _ _ Ho) by (fold vs; lia).
      fold k. do 2 f_equal. unfold vs. rewrite supplied_prefix. fold vs.
      rewrite lookup_take_lt by done. done.
Qed.

Lemma parse_fixed_arity_witness :
  parse cfg_opt1 2 ["cmd"; "--opt"] = Throw (arity_error "--opt")
  /\ parse cfg_opt1 3 ["cmd"; "--opt"; "v"] = Ret (<["--opt" := "v"]> ∅)
  /\ parse cfg_opt1 5 ["cmd"; "--opt"; "v"; "w"; "x"]
     = Ret (<["unknown" := "w x"]> (<["--opt" := "v"]> ∅))
  /\ RevD.parse_loop cfg_opt1 2 ["--opt"; "v"] 0 ∅
     = RevD.parse_loop cfg_opt1 1 [] 0 (<["--opt" := "v"]> ∅).
Proof.
  split; [|split; [|split]].
  - apply (parse_fixed_arity cfg_opt1 "--opt" (Option.set_argSize (Option.ctor "--opt") 1)
             ["cmd"] [] 1 ∅ eq_refl eq_refl eq_refl); vm_compute; lia.
  - apply (parse_fixed_arity cfg_opt1 "--opt" (Option.set_argSize (Option.ctor "--opt") 1)
             ["cmd"] ["v"] 1 ∅ eq_refl eq_refl eq_refl);
      [reflexivity | reflexivity | vm_compute; lia].
  - eapply (parse_fixed_arity cfg_opt1 "--opt" (Option.set_argSize (Option.ctor "--opt") 1)
              ["cmd"] ["v"; "w"; "x"] 1 ∅ eq_refl eq_refl eq_refl) with (g := 0);
      [vm_compute; lia | reflexivity | discriminate | apply N.leb_le; reflexivity
      | reflexivity | discriminate | vm_compute; lia].
  - apply (parse_fixed_arity cfg_opt1 "--opt" (Option.set_argSize (Option.ctor "--opt") 1)
             [] ["v"] 0 ∅ eq_refl eq_refl eq_refl). reflexivity.
Defined.

(** C2 as stated fails in the earlier revision: there [--opt], of arity 1,
    followed by three values does not leave the surplus to anything; the
    second value raises "unexpected value". *)
Lemma parse_fixed_arity_counterexample :
  CommandConfig.m_options cfg_opt1 !! "--opt"
  = Some (Option.set_argSize (Option.ctor "--opt") 1)
  /\ supplied cfg_opt1 ["v"; "w"; "x"] = ["v"; "w"; "x"]
  /\ RevD.parse cfg_opt1 5 ["--opt"; "v"; "w"; "x"] = Throw (RevD.unexpected_value "w")
  /\ ~ (exists tbl, RevD.parse cfg_opt1 5 ["--opt"; "v"; "w"; "x"] = Ret tbl).
Proof.
  split; [reflexivity|]. split; [reflexivity|]. split; [reflexivity|].
  intros [tbl Htbl]. discriminate Htbl.
Qed.



(** ** The command's own name as a token *)

(** C5: when the loop's cursor is on a token equal to the command's own
    name and that name is not a declared option, the iteration only
    advances the cursor: the table is left as it was (so a segment that is
    just the command token yields the empty table).  When the name is also
    a declared option, the iteration is an ordinary option occurrence: the
    name becomes the key, takes the following value tokens up to its arity,
    and is subject to the arity check. *)
Theorem parse_command_token (cfg : CommandConfig.t) (fuel : nat)
    (rest : list string) (tbl : gmap string string) :
  let name := CommandConfig.name cfg in
  (CommandConfig.has cfg name = false ->
     parse_loop cfg (S fuel) (name :: rest) tbl = parse_loop cfg fuel rest tbl
     /\ parse cfg (S fuel) (name :: rest) = parse cfg fuel rest
     /\ parse cfg (S fuel) [name] = Ret ∅)
  /\ (forall opt, CommandConfig.m_options cfg !! name = Some opt ->
        let m := taken cfg (Option.argSize opt) rest in
        parse_loop cfg (S fuel) (name :: rest) tbl =
          if (N.of_nat m <? Option.argSize opt)%N && negb (Option.variadicSize opt)
          then Throw (arity_error name)
          else parse_loop cfg fuel (drop m rest)
                 (<[name := String.concat " " (take m rest)]> tbl)).
Proof.
  intros name. split.
  - intros Hhas. unfold parse.
    rewrite !(parse_loop_skip cfg) by done. by destruct fuel.
  - intros opt Ho. by apply parse_loop_option.
Qed.

Lemma parse_command_token_witness :
  parse cfg_opt1 3 ["cmd"; "cmd"; "cmd"] = Ret ∅
  /\ parse cfg_self 2 ["cmd"; "v"] = Ret (<["cmd" := "v"]> ∅)
  /\ parse cfg_self 1 ["cmd"] = Throw (arity_error "cmd").
Proof.
  split; [|split].
  - unfold parse.
    rewrite (proj1 (proj1 (parse_command_token cfg_opt1 2 ["cmd"; "cmd"] ∅) eq_refl)).
    rewrite (proj1 (proj1 (parse_command_token cfg_opt1 1 ["cmd"] ∅) eq_refl)).
    exact (proj2 (proj2 (proj1 (parse_command_token cfg_opt1 0 [] ∅) eq_refl))).
  - unfold parse.
    rewrite (proj2 (parse_command_token cfg_self 1 ["v"] ∅) _ eq_refl). reflexivity.
  - unfold parse.
    rewrite (proj2 (parse_command_token cfg_self 0 [] ∅) _ eq_refl). reflexivity.
Defined.

(** ** Occurrences that take no value *)

(** [parse] only writes the keys it meets under its cursor and the sentinel
    key. *)
Lemma parse_loop_untouched cfg k :
  k <> "unknown" ->
  forall fuel args tbl tbl',
    parse_loop cfg fuel args tbl = Ret tbl' ->
    k ∉ args ->
    tbl' !! k = tbl !! k.
Proof.
  intros Hk. induction fuel as [|fuel IH]; intros args tbl tbl' Hrun Hnot.
  { destruct args; [|done]. by injection Hrun as <-. }
  destruct args as [|a rest]. { by injection Hrun as <-. }
  apply not_elem_of_cons in Hnot as Hnot'. destruct Hnot' as [Hka Hkrest].
  destruct (cursor_cases cfg a) as [[opt Ho]|[[Hh Hn]|[Hh Hn]]].
  - rewrite (parse_loop_option _ _ _ _ _ _ Ho) in Hrun. cbn zeta in Hrun.
    destruct (_ && _); [done|].
    rewrite (IH _ _ _ Hrun).
    + by rewrite lookup_insert_ne.
    + intros Hin. apply Hkrest. by apply (subseteq_drop _ rest) in Hin.
  - rewrite (parse_loop_skip _ _ _ _ _ Hn Hh) in Hrun. by apply (IH _ _ _ Hrun).
  - rewrite (parse_loop_value _ _ _ _ _ Hh Hn) in Hrun. cbn zeta in Hrun.
    destruct (_ && _); [done|].
    rewrite (IH _ _ _ Hrun).
    + by rewrite lookup_insert_ne.
    + intros Hin. apply Hnot. by apply (subseteq_drop _ (a :: rest)) in Hin.
Qed.

(** C10: an option [o] that is variadic or of arity 0 and is immediately
    followed by a recognized option or by the end of the segment stores the
    empty string under [o] and parsing goes on right after it.  On the table
    at that point [has(o)] is true, [getString(o)] is the empty string and
    [getStrVec(o)] is the empty sequence; the same holds on the finished
    [CommandArgs] when the rest of the segment does not write [o] again. *)
Theorem parse_zero_values (cfg : CommandConfig.t) (o : string) (opt : Option.t)
    (pre rest : list string) (fuel0 : nat) (tbl1 : gmap string string) :
  CommandConfig.m_options cfg !! o = Some opt ->
  Option.variadicSize opt = true \/ Option.argSize opt = 0%N ->
  supplied cfg rest = [] ->
  parse cfg fuel0 pre = Ret tbl1 ->
  let T := pre ++ o :: rest in
  (forall g r,
     parse_loop cfg g rest (<[o := EmptyString]> tbl1) = r ->
     r <> OutOfFuel ->
     forall fuel, length T <= fuel -> parse cfg fuel T = r)
  /\ (let cargs := CommandArgs.mk (<[o := EmptyString]> tbl1) cfg in
      has cargs o = true
      /\ getString cargs o = Ret EmptyString
      /\ getStrVec cargs o false = Ret [])
  /\ (forall g tbl',
        parse_loop cfg g rest (<[o := EmptyString]> tbl1) = Ret tbl' ->
        o ∉ rest -> o <> "unknown" ->
        forall fuel, length T <= fuel ->
          exists cargs,
            CommandArgs_ctor fuel T cfg = Ret cargs
            /\ has cargs o = true
            /\ getString cargs o = Ret EmptyString
            /\ getStrVec cargs o false = Ret []).
Proof.
  intros Ho Hzero Hsup Hpre T.
  assert (Hhas : CommandConfig.has cfg o = true) by (apply has_lookup; eauto).
  assert (Hm : taken cfg (Option.argSize opt) rest = 0).
  { unfold taken. rewrite Hsup. simpl. lia. }
  assert (Hc : (N.of_nat 0 <? Option.argSize opt)%N
               && negb (Option.variadicSize opt) = false).
  { destruct Hzero as [->| ->]; [by rewrite andb_false_r | done]. }
  assert (Hresume : forall g r,
     parse_loop cfg g rest (<[o := EmptyString]> tbl1) = r ->
     r <> OutOfFuel ->
     forall fuel, length T <= fuel -> parse cfg fuel T = r).
  { intros g r Hr Hne fuel Hfuel.
    apply (parse_loop_resume cfg fuel0 (S g) pre ∅ tbl1 o rest); try done.
    rewrite (parse_loop_option _ _ _ _ _ _ Ho). cbn zeta.
    by rewrite Hm, Hc. }
  assert (Hacc : forall tbl, tbl !! o = Some EmptyString ->
     has (CommandArgs.mk tbl cfg) o = true
     /\ getString (CommandArgs.mk tbl cfg) o = Ret EmptyString
     /\ getStrVec (CommandArgs.mk tbl cfg) o false = Ret []).
  { intros tbl Hlook. unfold has, getString, getStrVec. cbn [CommandArgs.m_argTable].
    by rewrite Hlook. }
  split; [exact Hresume|]. split.
  - apply Hacc. by rewrite lookup_insert_eq.
  - intros g tbl' Hrun Hnot Hne fuel Hfuel.
    exists (CommandArgs.mk tbl' cfg). split.
    + unfold CommandArgs_ctor. by rewrite (Hresume g (Ret tbl') Hrun).
    + apply Hacc. rewrite (parse_loop_untouched cfg o Hne g rest _ tbl' Hrun Hnot).
      by rewrite lookup_insert_eq.
Qed.

Lemma parse_zero_values_witness :
  exists cargs,
    CommandArgs_ctor 3 ["cmd"; "--v"; "--z"] cfg_flags = Ret cargs
    /\ has cargs "--v" = true
    /\ getString cargs "--v" = Ret EmptyString
    /\ getStrVec cargs "--v" false = Ret [].
Proof.
  eapply (proj2 (proj2 (parse_zero_values cfg_flags "--v"
            (Option.set_variadicSize (Option.set_argSize (Option.ctor "--v") 3) true)
            ["cmd"] ["--z"] 1 ∅ eq_refl (or_introl eq_refl) eq_refl eq_refl)) 1).
  - reflexivity.
  - intros [H|H]%elem_of_cons; [discriminate H | by apply elem_of_nil in H].
  - discriminate.
  - vm_compute. lia.
Defined.

(** ** [getStrVec] against the parser's joining *)

Lemma getline_loop_empty res : getline_loop EmptyString res = res.
Proof. by simp getline_loop. Qed.

Lemma getline_loop_step ss res val ss' :
  getline ss " "%char = Some (val, ss') ->
  getline_loop ss res = getline_loop ss' (res ++ [val]).
Proof.
  intros Hget. funelim (getline_loop ss res).
  - match goal with
    | H1 : getline ?s _ = Some _, H2 : getline ?s _ = Some _ |- _ =>
        rewrite H1 in H2; injection H2 as <- <-
    end.
    reflexivity.
  - congruence.
Qed.

Lemma read_line_token t s :
  no_space t = true ->
  read_line (t +:+ String " "%char s) " "%char = (t, s).
Proof.
  induction t as [|c t IH]; simpl; [done|].
  intros [Hc Ht]%andb_true_iff. apply negb_true_iff in Hc. rewrite Hc.
  by rewrite IH.
Qed.

Lemma read_line_last t :
  no_space t = true -> read_line t " "%char = (t, EmptyString).
Proof.
  induction t as [|c t IH]; simpl; [done|].
  intros [Hc Ht]%andb_true_iff. apply negb_true_iff in Hc. rewrite Hc.
  by rewrite IH.
Qed.

Lemma getline_loop_concat ts res :
  Forall (fun t => no_space t = true) ts ->
  last ts <> Some EmptyString ->
  getline_loop (String.concat " " ts) res = res ++ ts.
Proof.
  revert res. induction ts as [|t ts IH]; intros res Hts Hlast.
  { simpl. by rewrite getline_loop_empty, app_nil_r. }
  apply Forall_cons in Hts as [Ht Hts].
  destruct ts as [|t2 ts].
  - cbn [String.concat]. destruct t as [|c t]; [done|].
    rewrite (getline_loop_step _ _ (String c t) EmptyString).
    + by rewrite getline_loop_empty.
    + cbn [getline]. by rewrite read_line_last.
  - change (String.concat " " (t :: t2 :: ts))
      with (t +:+ String " "%char (String.concat " " (t2 :: ts))).
    rewrite (getline_loop_step _ _ t (String.concat " " (t2 :: ts))).
    + rewrite IH; [by rewrite <- app_assoc | done | done].
    + assert (Hr := read_line_token t (String.concat " " (t2 :: ts)) Ht).
      destruct (t +:+ String " "%char (String.concat " " (t2 :: ts))) eqn:E.
      * by destruct t.
      * cbn [getline]. by rewrite Hr.
Qed.

Lemma supplied_all cfg ts :
  Forall (fun t => CommandConfig.has cfg t = false) ts -> supplied cfg ts = ts.
Proof.
  induction 1 as [|t ts Ht _ IH]; simpl; [done|]. by rewrite Ht, IH.
Qed.

(** C8, amended: when no token holds a space character and the last token
    is not empty, [getStrVec] on a key whose value is the tokens joined by
    single spaces returns exactly the tokens.  That joined text is what the
    parser stores for the value tokens it read, so parsing an option
    followed by such tokens (as many as its arity) and asking [getStrVec]
    for the option gives the tokens back. *)
Theorem getStrVec_concat (tbl : gmap string string) (cfg : CommandConfig.t)
    (key : string) (ts : list string) (throwEx : bool) :
  Forall (fun t => no_space t = true) ts ->
  last ts <> Some EmptyString ->
  getStrVec (CommandArgs.mk (<[key := String.concat " " ts]> tbl) cfg) key throwEx = Ret ts
  /\ (if negb (empty (spaced ts)) then pop_back (spaced ts) else spaced ts)
     = String.concat " " ts
  /\ (forall opt fuel,
        CommandConfig.m_options cfg !! key = Some opt ->
        Option.argSize opt = N.of_nat (length ts) ->
        Forall (fun t => CommandConfig.has cfg t = false) ts ->
        exists cargs,
          CommandArgs_ctor (S fuel) (key :: ts) cfg = Ret cargs
          /\ getStrVec cargs key throwEx = Ret ts).
Proof.
  intros Hts Hlast.
  assert (Hget : forall tbl',
    getStrVec (CommandArgs.mk (<[key := String.concat " " ts]> tbl') cfg) key throwEx
    = Ret ts).
  { intros tbl'. unfold getStrVec. cbn [CommandArgs.m_argTable].
    rewrite lookup_insert_eq. by rewrite getline_loop_concat. }
  split; [apply Hget|]. split; [apply pop_back_spaced|].
  intros opt fuel Ho Hk Hvals.
  exists (CommandArgs.mk (<[key := String.concat " " ts]> ∅) cfg).
  split; [|apply Hget].
  unfold CommandArgs_ctor, parse. rewrite (parse_loop_option _ _ _ _ _ _ Ho). cbn zeta.
  assert (Hm : taken cfg (Option.argSize opt) ts = length ts).
  { unfold taken. rewrite supplied_all by done. lia. }
  rewrite Hm, Hk, N.ltb_irrefl, drop_all, firstn_all. cbn [andb].
  by destruct fuel.
Qed.

Lemma getStrVec_concat_witness :
  getStrVec (CommandArgs.mk (<["k" := "a b c"]> ∅) cfg_opt1) "k" false
  = Ret ["a"; "b"; "c"]
  /\ exists cargs,
       CommandArgs_ctor 1 ["--opt"; "a"] cfg_opt1 = Ret cargs
       /\ getStrVec cargs "--opt" false = Ret ["a"].
Proof.
  split.
  - apply (getStrVec_concat ∅ cfg_opt1 "k" ["a"; "b"; "c"] false).
    + repeat constructor.
    + discriminate.
  - apply (proj2 (proj2 (getStrVec_concat ∅ cfg_opt1 "--opt" ["a"] false
                           ltac:(repeat constructor) ltac:(discriminate)))
             (Option.set_argSize (Option.ctor "--opt") 1) 0);
      [reflexivity | reflexivity | repeat constructor].
Defined.

(** C8 as stated fails for a token that holds a space and for an empty last
    token, also when the value is the one the parser stored. *)
Lemma getStrVec_concat_counterexample :
  getStrVec (CommandArgs.mk (<["k" := String.concat " " ["a"; "b"; "x y"]]> ∅) cfg_opt1)
    "k" false = Ret ["a"; "b"; "x"; "y"]
  /\ getStrVec (CommandArgs.mk (<["k" := String.concat " " ["a"; "b"; EmptyString]]> ∅) cfg_opt1)
       "k" false = Ret ["a"; "b"]
  /\ (cargs ← CommandArgs_ctor 4 ["--v"; "a"; "b"; "x y"] cfg_flags;
      getStrVec cargs "--v" false) = Ret ["a"; "b"; "x"; "y"]
  /\ ~ (forall ts : list string,
          getStrVec (CommandArgs.mk (<["k" := String.concat " " ts]> ∅) cfg_opt1) "k" false
          = Ret ts).
Proof.
  split; [reflexivity|]. split; [reflexivity|]. split; [reflexivity|].
  intros H. specialize (H ["a"; "b"; "x y"]). discriminate H.
Qed.

(** ** [getUInt] *)

Lemma read_digits_None s acc :
  read_digits s acc = None <-> starts_with_digit s = false.
Proof.
  destruct s as [|c s]; simpl; [done|].
  destruct (digit c); [|done].
  destruct (read_digits s _); split; discriminate.
Qed.

Lemma stoul_numeral_part w str :
  stoul w str =
    match read_digits (numeral_part str) 0%N with
    | None => Throw (invalid_argument "stoul")
    | Some v =>
        if (2 ^ w <=? v)%N then Throw (out_of_range "stoul")
        else Ret (if match skip_space str with String "-"%char _ => true | _ => false end
                  then (2 ^ w - v) mod 2 ^ w else v)%N
    end.
Proof.
  unfold stoul, numeral_part.
  destruct (skip_space str) as [|c s]; [done|].
  destruct c as [[] [] [] [] [] [] [] []]; reflexivity.
Qed.

Lemma stoul_cases w str :
  (starts_with_digit (numeral_part str) = false ->
     stoul w str = Throw (invalid_argument "stoul"))
  /\ (starts_with_digit (numeral_part str) = true ->
      stoul w str = Throw (out_of_range "stoul") \/ exists v, stoul w str = Ret v).
Proof.
  rewrite stoul_numeral_part. split; intros Hd.
  - apply (proj2 (read_digits_None _ 0%N)) in Hd. by rewrite Hd.
  - destruct (read_digits (numeral_part str) 0%N) as [v|] eqn:E.
    + destruct (2 ^ w <=? v)%N; eauto.
    + apply (proj1 (read_digits_None _ 0%N)) in E. congruence.
Qed.

Lemma stoul_throws w str ex : stoul w str = Throw ex -> is_ParseError ex.
Proof.
  rewrite stoul_numeral_part. unfold is_ParseError.
  destruct (read_digits _ _) as [v|]; [destruct (2 ^ w <=? v)%N|];
    intros [= <-]; auto.
Qed.

Lemma read_digits_value s :
  forall acc,
    read_digits s acc
    = match leading_digits s with
      | [] => None
      | ds => Some (fold_left (fun acc d => (10 * acc + d)%N) ds acc)
      end.
Proof.
  induction s as [|c s IH]; intros acc; [done|].
  cbn [read_digits leading_digits]. destruct (digit c) as [d|]; [|done].
  rewrite IH. by destruct (leading_digits s).
Qed.

Lemma leading_digits_start s :
  starts_with_digit s = true <-> leading_digits s <> [].
Proof.
  destruct s as [|c s]; cbn [starts_with_digit leading_digits]; [done|].
  by destruct (digit c).
Qed.

Lemma numeral_part_plain s :
  starts_with_digit s = true -> numeral_part s = s /\ has_minus s = false.
Proof.
  destruct s as [|c s]; [done|]. cbn [starts_with_digit].
  destruct (digit c) as [d|] eqn:Hd; [intros _ | done].
  unfold numeral_part, has_minus. cbn [skip_space].
  destruct c as [[] [] [] [] [] [] [] []]; first [discriminate Hd | by vm_compute].
Qed.

(** C7, amended: without a default, [getUInt] raises the key-not-found
    error when the key is absent; with a default it returns the default
    when the key is absent.  When the key is present both forms do the same
    thing, whatever the default.  They raise [std::invalid_argument] when
    no decimal digit follows the leading white space and optional sign of
    the stored text.  Otherwise the text has a leading numeral, and what
    follows its digits is ignored: they raise [std::out_of_range] exactly
    when the numeral does not fit [unsigned long], and else return its
    value, negated in [unsigned long] under a minus sign, reduced modulo
    2^32.  So a valid unsigned integer that fits is read as its value
    modulo 2^32, and no other error is raised for a present key. *)
Theorem getUInt_errors (cargs : CommandArgs.t) (ulong_bits : N) (name : string) :
  (CommandArgs.m_argTable cargs !! name = None ->
     getUInt cargs ulong_bits name = Throw (key_not_found name)
     /\ forall defValue, getUInt_def cargs ulong_bits name defValue = Ret defValue)
  /\ (forall second, CommandArgs.m_argTable cargs !! name = Some second ->
        let v := decimal_value (leading_digits (numeral_part second)) in
        (forall defValue,
           getUInt_def cargs ulong_bits name defValue = getUInt cargs ulong_bits name)
        /\ (starts_with_digit (numeral_part second) = false ->
            getUInt cargs ulong_bits name = Throw (invalid_argument "stoul"))
        /\ (starts_with_digit (numeral_part second) = true ->
            (2 ^ ulong_bits <= v)%N ->
            getUInt cargs ulong_bits name = Throw (out_of_range "stoul"))
        /\ (starts_with_digit (numeral_part second) = true ->
            (v < 2 ^ ulong_bits)%N ->
            getUInt cargs ulong_bits name
            = Ret (to_uint32 (if has_minus second
                              then (2 ^ ulong_bits - v) mod 2 ^ ulong_bits
                              else v)%N))
        /\ (valid_uint second = true ->
            (decimal_value (leading_digits second) < 2 ^ ulong_bits)%N ->
            getUInt cargs ulong_bits name
            = Ret (to_uint32 (decimal_value (leading_digits second))))
        /\ (forall ex, getUInt cargs ulong_bits name = Throw ex -> is_ParseError ex)).
Proof.
  split.
  - unfold getUInt, getUInt_def. by intros ->.
  - intros second Hs v. unfold getUInt, getUInt_def. rewrite Hs. split; [done|].
    assert (Hnum : starts_with_digit (numeral_part second) = true ->
              stoul ulong_bits second
              = if (2 ^ ulong_bits <=? v)%N then Throw (out_of_range "stoul")
                else Ret (if has_minus second
                          then (2 ^ ulong_bits - v) mod 2 ^ ulong_bits else v)%N).
    { intros Hd. rewrite stoul_numeral_part, read_digits_value.
      apply leading_digits_start in Hd. fold (has_minus second).
      subst v. unfold decimal_value.
      by destruct (leading_digits (numeral_part second)). }
    split; [|split; [|split; [|split]]].
    + intros Hd. by rewrite (proj1 (stoul_cases ulong_bits second) Hd).
    + intros Hd Hbig. rewrite (Hnum Hd).
      by rewrite (proj2 (N.leb_le _ _) Hbig).
    + intros Hd Hfit. rewrite (Hnum Hd).
      by rewrite (proj2 (N.leb_gt _ _) Hfit).
    + intros [Hne Hall]%andb_true_iff Hfit.
      assert (Hd : starts_with_digit second = true).
      { destruct second as [|c s]; [done|]. cbn [all_digits] in Hall.
        cbn [starts_with_digit]. by destruct (digit c). }
      destruct (numeral_part_plain second Hd) as [Hplain Hminus].
      subst v. rewrite Hplain in Hnum. rewrite (Hnum Hd), Hminus.
      by rewrite (proj2 (N.leb_gt _ _) Hfit).
    + intros ex. destruct (stoul ulong_bits second) as [w| ex' |] eqn:E; try done.
      intros [= <-]. by apply (stoul_throws ulong_bits second).
Qed.

Lemma getUInt_errors_witness :
  getUInt (CommandArgs.mk (<["n" := "42"]> ∅) cfg_opt1) 64 "m"
    = Throw (key_not_found "m")
  /\ getUInt_def (CommandArgs.mk (<["n" := "42"]> ∅) cfg_opt1) 64 "m" 7%N = Ret 7%N
  /\ getUInt_def (CommandArgs.mk (<["n" := "abc"]> ∅) cfg_opt1) 64 "n" 7%N
     = Throw (invalid_argument "stoul")
  /\ getUInt (CommandArgs.mk (<["n" := "99999999999999999999999999abc"]> ∅) cfg_opt1)
       64 "n"
     = Throw (out_of_range "stoul")
  /\ getUInt (CommandArgs.mk (<["n" := "42"]> ∅) cfg_opt1) 64 "n" = Ret 42%N.
Proof.
  split; [|split; [|split; [|split]]].
  - apply (getUInt_errors (CommandArgs.mk (<["n" := "42"]> ∅) cfg_opt1) 64 "m").
    reflexivity.
  - apply (getUInt_errors (CommandArgs.mk (<["n" := "42"]> ∅) cfg_opt1) 64 "m").
    reflexivity.
  - destruct (proj2 (getUInt_errors (CommandArgs.mk (<["n" := "abc"]> ∅) cfg_opt1) 64 "n")
                "abc") as (Hdef & Hbad & _); [reflexivity|].
    rewrite Hdef. apply Hbad. reflexivity.
  - destruct (proj2 (getUInt_errors
                       (CommandArgs.mk (<["n" := "99999999999999999999999999abc"]> ∅)
                          cfg_opt1) 64 "n")
                "99999999999999999999999999abc") as (_ & _ & Hbig & _); [reflexivity|].
    apply Hbig; [reflexivity | by apply N.leb_le].
  - destruct (proj2 (getUInt_errors (CommandArgs.mk (<["n" := "42"]> ∅) cfg_opt1) 64 "n")
                "42") as (_ & _ & _ & _ & Hval & _); [reflexivity|].
    apply Hval; [reflexivity | by apply N.ltb_lt].
Defined.

(** C7 as stated fails: "42abc" and "-1" are not valid unsigned integers,
    yet [getUInt] returns a value for them instead of raising. *)
Lemma getUInt_errors_counterexample :
  valid_uint "42abc" = false
  /\ getUInt (CommandArgs.mk (<["n" := "42abc"]> ∅) cfg_opt1) 64 "n" = Ret 42%N
  /\ valid_uint "-1" = false
  /\ getUInt (CommandArgs.mk (<["n" := "-1"]> ∅) cfg_opt1) 64 "n" = Ret 4294967295%N
  /\ ~ (forall second ulong_bits,
          valid_uint second = false ->
          exists ex,
            getUInt (CommandArgs.mk (<["n" := second]> ∅) cfg_opt1) ulong_bits "n"
            = Throw ex).
Proof.
  repeat (split; [reflexivity|]).
  intros H. destruct (H "42abc" 64%N eq_refl) as [ex Hex]. discriminate Hex.
Qed.

(** ** The 32-bit truncation in [getUInt] *)

Lemma pow2_split (w : N) : (32 <= w -> 2 ^ w = 2 ^ (w - 32) * 2 ^ 32)%N.
Proof.
  intros Hw. rewrite <- N.pow_add_r. f_equal. lia.
Qed.

Lemma to_uint32_minus_one (w : N) :
  (32 <= w)%N -> to_uint32 (2 ^ w - 1) = 4294967295%N.
Proof.
  intros Hw. unfold to_uint32. rewrite (pow2_split w Hw).
  assert (Hq : (1 <= 2 ^ (w - 32))%N).
  { assert (2 ^ (w - 32) <> 0)%N by (apply N.pow_nonzero; lia). lia. }
  set (q := (2 ^ (w - 32))%N) in *.
  replace (q * 2 ^ 32 - 1)%N with (4294967295 + (q - 1) * 2 ^ 32)%N by lia.
  rewrite N.Div0.mod_add. reflexivity.
Qed.

(** C9: whenever [std::stoul] accepts the stored text, both forms of
    [getUInt] return its value reduced modulo 2^32 and raise nothing.  In
    particular "-1" yields 4294967295 for every [unsigned long] of at least
    32 bits, and "4294967296" yields 0 for every [unsigned long] wider than
    32 bits. *)
Theorem getUInt_truncates (cargs : CommandArgs.t) (ulong_bits : N) (name : string) :
  (forall second v,
     CommandArgs.m_argTable cargs !! name = Some second ->
     stoul ulong_bits second = Ret v ->
     getUInt cargs ulong_bits name = Ret (v mod 2 ^ 32)%N
     /\ forall defValue,
          getUInt_def cargs ulong_bits name defValue = Ret (v mod 2 ^ 32)%N)
  /\ (CommandArgs.m_argTable cargs !! name = Some "-1" ->
      (32 <= ulong_bits)%N ->
      getUInt cargs ulong_bits name = Ret 4294967295%N)
  /\ (CommandArgs.m_argTable cargs !! name = Some "4294967296" ->
      (32 < ulong_bits)%N ->
      getUInt cargs ulong_bits name = Ret 0%N).
Proof.
  unfold getUInt, getUInt_def. split; [|split].
  - intros second v -> Hv. by rewrite Hv.
  - intros -> Hw. rewrite stoul_numeral_part.
    change (read_digits (numeral_part "-1") 0%N) with (Some 1%N).
    assert (Hlt : (1 < 2 ^ ulong_bits)%N) by (apply N.pow_gt_1; lia).
    assert (Hc : (2 ^ ulong_bits <=? 1)%N = false) by (apply N.leb_gt; lia).
    cbv beta iota. rewrite Hc.
    change (skip_space "-1") with "-1". cbv iota.
    rewrite N.mod_small by lia.
    cbn [mbind outcome_bind obind]. by rewrite to_uint32_minus_one.
  - intros -> Hw. rewrite stoul_numeral_part.
    change (read_digits (numeral_part "4294967296") 0%N) with (Some (2 ^ 32)%N).
    assert (Hlt : (2 ^ 32 < 2 ^ ulong_bits)%N) by (apply N.pow_lt_mono_r; lia).
    assert (Hc : (2 ^ ulong_bits <=? 2 ^ 32)%N = false) by (apply N.leb_gt; lia).
    cbv beta iota. rewrite Hc. reflexivity.
Qed.

Lemma getUInt_truncates_witness :
  getUInt (CommandArgs.mk (<["n" := "-1"]> ∅) cfg_opt1) 64 "n" = Ret 4294967295%N
  /\ getUInt (CommandArgs.mk (<["n" := "4294967296"]> ∅) cfg_opt1) 64 "n" = Ret 0%N
  /\ getUInt_def (CommandArgs.mk (<["n" := "4294967298"]> ∅) cfg_opt1) 64 "n" 7%N = Ret 2%N.
Proof.
  split; [|split].
  - apply (getUInt_truncates (CommandArgs.mk (<["n" := "-1"]> ∅) cfg_opt1) 64 "n");
      [reflexivity | by apply N.leb_le].
  - apply (getUInt_truncates (CommandArgs.mk (<["n" := "4294967296"]> ∅) cfg_opt1) 64 "n");
      [reflexivity | by apply N.ltb_lt].
  - apply (proj1 (getUInt_truncates (CommandArgs.mk (<["n" := "4294967298"]> ∅) cfg_opt1)
                    64 "n") "4294967298" 4294967298%N); reflexivity.
Defined.

(** ** [Commander::run] *)

Section Run.
Variable self : Commander.t.
Implicit Types (args rest : list string) (command : string).

Lemma isCommand_true command caller :
  Commander.m_commands self !! command = Some caller ->
  Commander.isCommand self command = true.
Proof. unfold Commander.isCommand. by intros ->. Qed.

Lemma isCommand_false command :
  Commander.m_commands self !! command = None ->
  Commander.isCommand self command = false.
Proof. unfold Commander.isCommand. by intros ->. Qed.

Lemma invokeCommand_registered pfuel command caller args :
  Commander.m_commands self !! command = Some caller ->
  Commander.invokeCommand pfuel self command args
  = (Invoke command args :: (CommandCaller.invoke pfuel caller args).1,
     (CommandCaller.invoke pfuel caller args).2).
Proof.
  unfold Commander.invokeCommand. intros ->.
  by destruct (CommandCaller.invoke pfuel caller args).
Qed.

Lemma run_loop_nil pfuel fuel command :
  Commander.run_loop pfuel fuel self [] command = ([], (command, Ret tt)).
Proof. by destruct fuel. Qed.

(** One iteration of the [for] loop on a registered command name. *)
Lemma run_loop_command pfuel fuel a rest command caller :
  Commander.m_commands self !! a = Some caller ->
  Commander.run_loop pfuel (S fuel) self (a :: rest) command =
    let args := (Commander.collect self rest [a]).1 in
    let rest' := (Commander.collect self rest [a]).2 in
    let tr := (CommandCaller.invoke pfuel caller args).1 in
    match (CommandCaller.invoke pfuel caller args).2 with
    | Ret stat =>
        (Invoke a args :: tr ++ [Handle stat]
           ++ (Commander.run_loop pfuel fuel self rest' a).1,
         (Commander.run_loop pfuel fuel self rest' a).2)
    | Throw ex => (Invoke a args :: tr, (a, Throw ex))
    | OutOfFuel => (Invoke a args :: tr, (a, OutOfFuel))
    end.
Proof.
  intros Ha. cbn [Commander.run_loop]. rewrite (isCommand_true _ _ Ha).
  destruct (Commander.collect self rest [a]) as [args rest'].
  rewrite (invokeCommand_registered _ _ _ _ Ha). cbn zeta. cbn [fst snd].
  destruct (CommandCaller.invoke pfuel caller args) as [tr [stat|ex|]];
    cbn [fst snd]; [|done|done].
  by destruct (Commander.run_loop pfuel fuel self rest' a).
Qed.

(** One iteration on any other token: the error status, and [break]. *)
Lemma run_loop_not_command pfuel fuel a rest command :
  Commander.m_commands self !! a = None ->
  Commander.run_loop pfuel (S fuel) self (a :: rest) command =
    ([Handle (CommandStatus.mk a CommandStatus.ERROR "not a command")],
     (command, Ret tt)).
Proof.
  intros Ha. cbn [Commander.run_loop]. by rewrite (isCommand_false _ Ha).
Qed.
End Run.

(** ** Two commands in a row *)

Section RunD.
Variable self : Commander.t.

Lemma revD_run_loop_nil pfuel fuel command :
  RevD.run_loop pfuel fuel self [] command = ([], (command, Ret tt)).
Proof. by destruct fuel. Qed.

(** One iteration of the loop of the earlier revision on a registered
    command name: the segment starts empty. *)
Lemma revD_run_loop_command pfuel fuel a rest command caller :
  Commander.m_commands self !! a = Some caller ->
  RevD.run_loop pfuel (S fuel) self (a :: rest) command =
    let args := (Commander.collect self rest []).1 in
    let rest' := (Commander.collect self rest []).2 in
    let tr := (RevD.invoke pfuel caller args).1 in
    match (RevD.invoke pfuel caller args).2 with
    | Ret stat =>
        (Invoke a args :: tr ++ [Handle stat]
           ++ (RevD.run_loop pfuel fuel self rest' a).1,
         (RevD.run_loop pfuel fuel self rest' a).2)
    | Throw ex => (Invoke a args :: tr, (a, Throw ex))
    | OutOfFuel => (Invoke a args :: tr, (a, OutOfFuel))
    end.
Proof.
  intros Ha. cbn [RevD.run_loop]. rewrite (isCommand_true _ _ _ Ha).
  destruct (Commander.collect self rest []) as [args rest'].
  unfold RevD.invokeCommand. rewrite Ha. cbn zeta. cbn [fst snd].
  destruct (RevD.invoke pfuel caller args) as [tr [stat|ex|]];
    cbn [fst snd]; [|done|done].
  by destruct (RevD.run_loop pfuel fuel self rest' a).
Qed.
End RunD.

(** C3, amended: let [cmd1] and [cmd2] be registered and [v1], [v2], [v3]
    not be registered command names.  Let the invocation of [cmd1] on its
    segment return a status (its segment parses against its config and its
    handler returns), and let the invocation of [cmd2] return a status or
    raise an exception derived from [std::exception].  Then running
    [[cmd1; v1; v2; cmd2; v3]] invokes [cmd1] on its segment, hands its
    status to [m_handler.handle], invokes [cmd2] on its segment and hands a
    second status to [m_handler.handle]: the one [cmd2]'s handler
    returned, or the [ERROR] status made from the exception.  Nothing else
    is handed over.  The segments are [[cmd1; v1; v2]] and [[cmd2; v3]] in
    the revision with the sentinel; in the earlier revision they leave the
    command name out: [[v1; v2]] and [[v3]]. *)
Theorem run_two_commands (fuel : nat) (self : Commander.t)
    (cmd1 cmd2 v1 v2 v3 : string) (caller1 caller2 : CommandCaller.t) :
  Commander.m_commands self !! cmd1 = Some caller1 ->
  Commander.m_commands self !! cmd2 = Some caller2 ->
  Commander.m_commands self !! v1 = None ->
  Commander.m_commands self !! v2 = None ->
  Commander.m_commands self !! v3 = None ->
  let f := S (S fuel) in
  let args := [cmd1; v1; v2; cmd2; v3] in
  (forall tr1 stat1,
     CommandCaller.invoke f caller1 [cmd1; v1; v2] = (tr1, Ret stat1) ->
     let inv2 := CommandCaller.invoke f caller2 [cmd2; v3] in
     let tr := Invoke cmd1 [cmd1; v1; v2] :: tr1 ++ [Handle stat1]
                 ++ Invoke cmd2 [cmd2; v3] :: inv2.1 in
     (forall stat2,
        inv2.2 = Ret stat2 ->
        Commander.run_args f self args = (tr ++ [Handle stat2], Ret tt))
     /\ (forall ex,
           inv2.2 = Throw ex -> is_std_exception ex = true ->
           Commander.run_args f self args
           = (tr ++ [Handle (CommandStatus.mk cmd2 CommandStatus.ERROR (what ex))],
              Ret tt)))
  /\ (forall tr1 stat1,
        RevD.invoke f caller1 [v1; v2] = (tr1, Ret stat1) ->
        let inv2 := RevD.invoke f caller2 [v3] in
        let tr := Invoke cmd1 [v1; v2] :: tr1 ++ [Handle stat1]
                    ++ Invoke cmd2 [v3] :: inv2.1 in
        (forall stat2,
           inv2.2 = Ret stat2 ->
           RevD.run f (Commander.init self args) = (tr ++ [Handle stat2], Ret tt))
        /\ (forall ex,
              inv2.2 = Throw ex -> is_std_exception ex = true ->
              RevD.run f (Commander.init self args)
              = (tr ++ [Handle (CommandStatus.mk cmd2 CommandStatus.ERROR (what ex))],
                 Ret tt))).
Proof.
  intros H1 H2 Hv1 Hv2 Hv3 f args.
  set (self' := Commander.init self args).
  assert (Hcol : forall seg1 seg2,
    Commander.collect self' [v1; v2; cmd2; v3] seg1 = (seg1 ++ [v1; v2], [cmd2; v3])
    /\ Commander.collect self' [v3] seg2 = (seg2 ++ [v3], [])).
  { intros seg1 seg2. cbn [Commander.collect]. unfold Commander.isCommand.
    cbn [self' Commander.init Commander.m_commands]. rewrite Hv1, Hv2, H2, Hv3.
    by rewrite <- !app_assoc. }
  split.
  - intros tr1 stat1 Hinv1 inv2 tr.
    assert (Hloop : Commander.run_loop f f self' args EmptyString
      = match inv2.2 with
        | Ret stat2 => (tr ++ [Handle stat2], (cmd2, Ret tt))
        | Throw ex => (tr, (cmd2, Throw ex))
        | OutOfFuel => (tr, (cmd2, OutOfFuel))
        end).
    { unfold args, f. rewrite (run_loop_command self' _ _ _ _ _ caller1 H1). cbn zeta.
      rewrite (proj1 (Hcol [cmd1] [cmd2])). cbn [fst snd app]. fold f.
      rewrite Hinv1. cbn [fst snd].
      rewrite (run_loop_command self' _ _ _ _ _ caller2 H2). cbn zeta.
      rewrite (proj2 (Hcol [cmd1] [cmd2])). cbn [fst snd app]. fold f. fold inv2.
      unfold tr. destruct (inv2.2) as [stat2|ex|]; [|done|done].
      rewrite run_loop_nil. cbn [fst snd]. f_equal.
      rewrite ?app_nil_r. cbn [app]. f_equal.
      by rewrite <- ?app_assoc. }
    unfold Commander.run_args, Commander.run. fold self'.
    change (Commander.m_args self') with args.
    rewrite Hloop. split.
    + by intros stat2 ->.
    + intros ex -> Hstd. by rewrite Hstd.
  - intros tr1 stat1 Hinv1 inv2 tr.
    assert (Hloop : RevD.run_loop f f self' args EmptyString
      = match inv2.2 with
        | Ret stat2 => (tr ++ [Handle stat2], (cmd2, Ret tt))
        | Throw ex => (tr, (cmd2, Throw ex))
        | OutOfFuel => (tr, (cmd2, OutOfFuel))
        end).
    { unfold args, f. rewrite (revD_run_loop_command self' _ _ _ _ _ caller1 H1). cbn zeta.
      rewrite (proj1 (Hcol [] [])). cbn [fst snd app]. fold f.
      rewrite Hinv1. cbn [fst snd].
      rewrite (revD_run_loop_command self' _ _ _ _ _ caller2 H2). cbn zeta.
      rewrite (proj2 (Hcol [] [])). cbn [fst snd app]. fold f. fold inv2.
      unfold tr. destruct (inv2.2) as [stat2|ex|]; [|done|done].
      rewrite revD_run_loop_nil. cbn [fst snd]. f_equal.
      rewrite ?app_nil_r. cbn [app]. f_equal.
      by rewrite <- ?app_assoc. }
    unfold RevD.run.
    change (Commander.m_args self') with args.
    rewrite Hloop. split.
    + by intros stat2 ->.
    + intros ex -> Hstd. by rewrite Hstd.
Qed.

Lemma run_two_commands_witness :
  (exists cargs1 cargs2,
     Commander.run_args 2 commander_plain ["cmd1"; "v1"; "v2"; "cmd2"; "v3"]
     = ([Invoke "cmd1" ["cmd1"; "v1"; "v2"]; Call "cmd1" cargs1;
         Handle (CommandStatus.mk "cmd1" CommandStatus.OK EmptyString);
         Invoke "cmd2" ["cmd2"; "v3"]; Call "cmd2" cargs2;
         Handle (CommandStatus.mk "cmd2" CommandStatus.OK EmptyString)],
        Ret tt))
  /\ (exists cargs1,
       Commander.run_args 2 commander_cmd2 ["cmd1"; "v1"; "v2"; "cmd2"; "v3"]
       = ([Invoke "cmd1" ["cmd1"; "v1"; "v2"]; Call "cmd1" cargs1;
           Handle (CommandStatus.mk "cmd1" CommandStatus.OK EmptyString);
           Invoke "cmd2" ["cmd2"; "v3"];
           Handle (CommandStatus.mk "cmd2" CommandStatus.ERROR
                     (what (arity_error "v3")))],
          Ret tt))
  /\ (exists cargs1 cargs2,
       RevD.run 2 (Commander.init commander_own ["cmd1"; "v1"; "v2"; "cmd2"; "v3"])
       = ([Invoke "cmd1" ["v1"; "v2"]; Call "cmd1" cargs1;
           Handle (CommandStatus.mk "cmd1" CommandStatus.OK EmptyString);
           Invoke "cmd2" ["v3"]; Call "cmd2" cargs2;
           Handle (CommandStatus.mk "cmd2" CommandStatus.OK EmptyString)],
          Ret tt)).
Proof.
  split; [|split].
  - eexists _, _.
    eapply (proj1 (proj1 (run_two_commands 0 commander_plain "cmd1" "cmd2" "v1" "v2" "v3"
                     (CommandCaller.ctor_callback (ok_callback "cmd1") (CommandConfig.ctor "cmd1"))
                     (CommandCaller.ctor_callback (ok_callback "cmd2") (CommandConfig.ctor "cmd2"))
                     eq_refl eq_refl eq_refl eq_refl eq_refl) _ _ eq_refl)).
    reflexivity.
  - eexists _.
    eapply (proj2 (proj1 (run_two_commands 0 commander_cmd2 "cmd1" "cmd2" "v1" "v2" "v3"
                     (CommandCaller.ctor_callback (ok_callback "cmd1") (CommandConfig.ctor "cmd1"))
                     (CommandCaller.ctor_callback (ok_callback "cmd2") cfg_cmd2)
                     eq_refl eq_refl eq_refl eq_refl eq_refl) _ _ eq_refl)
              (arity_error "v3")); reflexivity.
  - eexists _, _.
    eapply (proj1 (proj2 (run_two_commands 0 commander_own "cmd1" "cmd2" "v1" "v2" "v3"
                     _ _ eq_refl eq_refl eq_refl eq_refl eq_refl) _ _ eq_refl)).
    reflexivity.
Defined.

(** C3 as stated fails.  With [commander2], where [cmd1] declares [v1] with
    arity 2, the segment [[cmd1; v1; v2]] does not parse; the only status
    handed over is the error for [cmd1], and [cmd2] is never invoked.  In
    the earlier revision the segment handed to [cmd1] is [[v1; v2]], not
    [[cmd1; v1; v2]], and a command without an option of its own name, as
    in [commander_plain], fails on it. *)
Lemma run_two_commands_counterexample :
  Commander.isCommand commander2 "cmd1" = true
  /\ Commander.isCommand commander2 "cmd2" = true
  /\ Commander.isCommand commander2 "v1" = false
  /\ Commander.isCommand commander2 "v2" = false
  /\ Commander.isCommand commander2 "v3" = false
  /\ Commander.run_args 5 commander2 ["cmd1"; "v1"; "v2"; "cmd2"; "v3"]
     = ([Invoke "cmd1" ["cmd1"; "v1"; "v2"];
         Handle (CommandStatus.mk "cmd1" CommandStatus.ERROR (what (arity_error "v1")))],
        Ret tt)
  /\ RevD.run 5 (Commander.init commander_plain ["cmd1"; "v1"; "v2"; "cmd2"; "v3"])
     = ([Invoke "cmd1" ["v1"; "v2"];
         Handle (CommandStatus.mk "cmd1" CommandStatus.ERROR
                   (what (key_not_found "cmd1")))],
        Ret tt).
Proof. repeat split; reflexivity. Qed.

(** ** Failures inside [run] *)

Lemma parse_loop_terminates cfg :
  Option.argSize (unknown_option cfg) <> 0%N ->
  forall fuel args tbl,
    length args <= fuel -> parse_loop cfg fuel args tbl <> OutOfFuel.
Proof.
  intros Hpos. induction fuel as [|fuel IH]; intros args tbl Hlen.
  { destruct args; [done | simpl in Hlen; lia]. }
  destruct args as [|a rest]; [done|]. simpl in Hlen.
  destruct (cursor_cases cfg a) as [[opt Ho]|[[Hh Hn]|[Hh Hn]]].
  - rewrite (parse_loop_option _ _ _ _ _ _ Ho). cbn zeta.
    destruct (_ && _); [done|]. apply IH. rewrite length_drop. lia.
  - rewrite (parse_loop_skip _ _ _ _ _ Hn Hh). apply IH. lia.
  - rewrite (parse_loop_value _ _ _ _ _ Hh Hn). cbn zeta.
    destruct (_ && _); [done|]. apply IH. rewrite length_drop.
    assert (1 <= taken cfg (Option.argSize (unknown_option cfg)) (a :: rest)).
    { unfold taken. cbn [supplied]. rewrite Hh. cbn [length]. lia. }
    simpl. lia.
Qed.



Section RunFailures.
Variable self : Commander.t.





End RunFailures.






(** ** What the other revisions do at the same places *)

(** The later revision: the inner loop is the embedded one when the command
    has a config. *)
Lemma revB_consume cfg argSize args count val :
  RevB.consume (Some cfg) argSize args count val = consume cfg argSize args count val.
Proof.
  revert count val. induction args as [|a rest IH]; intros count val; [done|].
  cbn [RevB.consume consume RevB.conf_has]. unfold isProperty.
  destruct (CommandConfig.has cfg a); [done|].
  destruct (count <? argSize)%N; [apply IH | done].
Qed.

(** The later revision: the rule of C5 for the token under the cursor. *)
Lemma revB_parseCommand_command_token conf command fuel rest comargs :
  (RevB.conf_has conf command = false ->
     RevB.parseCommand_loop conf command (S fuel) (command :: rest) comargs
     = RevB.parseCommand_loop conf command fuel rest comargs)
  /\ (forall cfg opt,
        conf = Some cfg ->
        CommandConfig.m_options cfg !! command = Some opt ->
        let m := taken cfg (Option.argSize opt) rest in
        RevB.parseCommand_loop conf command (S fuel) (command :: rest) comargs =
          if (N.of_nat m <? Option.argSize opt)%N && negb (Option.variadicSize opt)
          then Throw (arity_error (Option.name opt))
          else RevB.parseCommand_loop conf command fuel (drop m rest)
                 (RevB.insert comargs (Option.name opt)
                    (String.concat " " (take m rest)))).
Proof.
  split.
  - intros Hhas. cbn [RevB.parseCommand_loop].
    by rewrite bool_decide_eq_true_2, Hhas.
  - intros cfg opt -> Ho. cbn [RevB.parseCommand_loop RevB.conf_has].
    unfold CommandConfig.has, CommandConfig.option. rewrite Ho.
    rewrite andb_false_r. cbn [mbind outcome_bind obind].
    rewrite revB_consume, consume_fresh, pop_back_spaced. done.
Qed.

(** The later revision parses before its loop and outside its [try]: an
    arity error leaves [run] as an exception, and nothing is handed to
    [m_handler.handle]. *)
Lemma revB_run_parse_error_escapes :
  RevB.run 3 (RevB.init revB_commander_cmd1 ["cmd1"; "v1"; "v2"])
  = ([], Throw (arity_error "v1")).
Proof. reflexivity. Qed.

(** * Further properties of the embedded revision *)

(** ** What [parse] writes and what it raises *)

Lemma parse_loop_keys cfg :
  forall fuel args tbl tbl',
    parse_loop cfg fuel args tbl = Ret tbl' ->
    forall k, is_Some (tbl' !! k) ->
      is_Some (tbl !! k)
      \/ (CommandConfig.has cfg k = true /\ k ∈ args)
      \/ k = "unknown".
Proof.
  induction fuel as [|fuel IH]; intros args tbl tbl' Hrun k Hk.
  { destruct args; [|done]. injection Hrun as <-. by left. }
  destruct args as [|a rest]. { injection Hrun as <-. by left. }
  destruct (cursor_cases cfg a) as [[opt Ho]|[[Hh Hn]|[Hh Hn]]].
  - rewrite (parse_loop_option _ _ _ _ _ _ Ho) in Hrun. cbn zeta in Hrun.
    destruct (_ && _); [done|].
    destruct (IH _ _ _ Hrun k Hk) as [Hin|[[Hhas Hin]|Hu]]; [| |by right; right].
    + destruct (decide (a = k)) as [<-|Hne].
      * right; left. split; [apply has_lookup; eauto | apply list_elem_of_here].
      * rewrite lookup_insert_ne in Hin by done. by left.
    + right; left. split; [done|]. apply elem_of_cons. right.
      revert Hin. apply subseteq_drop.
  - rewrite (parse_loop_skip _ _ _ _ _ Hn Hh) in Hrun.
    destruct (IH _ _ _ Hrun k Hk) as [Hin|[[Hhas Hin]|Hu]];
      [by left | | by right; right].
    right; left. split; [done|]. apply elem_of_cons. by right.
  - rewrite (parse_loop_value _ _ _ _ _ Hh Hn) in Hrun. cbn zeta in Hrun.
    destruct (_ && _); [done|].
    destruct (IH _ _ _ Hrun k Hk) as [Hin|[[Hhas Hin]|Hu]]; [| |by right; right].
    + destruct (decide ("unknown" = k)) as [<-|Hne]; [by right; right|].
      rewrite lookup_insert_ne in Hin by done. by left.
    + right; left. split; [done|]. revert Hin. apply subseteq_drop.
Qed.

(** X1: every key of the table that [CommandArgs::parse] builds is either a
    token of the segment that is a declared option of the config, or the
    sentinel key "unknown". *)
Theorem parse_keys (cfg : CommandConfig.t) (fuel : nat) (args : list string)
    (tbl : gmap string string) :
  parse cfg fuel args = Ret tbl ->
  forall k, is_Some (tbl !! k) ->
    (CommandConfig.has cfg k = true /\ k ∈ args) \/ k = "unknown".
Proof.
  intros Hrun k Hk.
  destruct (parse_loop_keys cfg fuel args ∅ tbl Hrun k Hk) as [Hin|H]; [|done].
  rewrite lookup_empty in Hin. by destruct Hin.
Qed.

Lemma parse_keys_witness :
  (CommandConfig.has cfg_opt1 "--opt" = true
   /\ "--opt" ∈ ["cmd"; "--opt"; "v"; "w"; "x"])
  \/ "--opt" = "unknown".
Proof.
  apply (parse_keys cfg_opt1 5 ["cmd"; "--opt"; "v"; "w"; "x"]
           (<["unknown" := "w x"]> (<["--opt" := "v"]> ∅))).
  - reflexivity.
  - exists "v". reflexivity.
Defined.

Lemma parse_loop_throws cfg :
  forall fuel args tbl ex,
    parse_loop cfg fuel args tbl = Throw ex ->
    exists k opt,
      ex = arity_error k
      /\ CommandConfig.m_options cfg !! k = Some opt
      /\ Option.variadicSize opt = false
      /\ (0 < Option.argSize opt)%N.
Proof.
  induction fuel as [|fuel IH]; intros args tbl ex Hrun.
  { by destruct args. }
  destruct args as [|a rest]; [done|].
  destruct (cursor_cases cfg a) as [[opt Ho]|[[Hh Hn]|[Hh Hn]]].
  - rewrite (parse_loop_option _ _ _ _ _ _ Ho) in Hrun. cbn zeta in Hrun.
    destruct (_ && _) eqn:Hc; [|by apply (IH _ _ _ Hrun)].
    injection Hrun as <-. apply andb_true_iff in Hc as [Hlt Hv].
    apply N.ltb_lt in Hlt. apply negb_true_iff in Hv.
    exists a, opt. split; [done|]. split; [done|]. split; [done|].
    eapply N.le_lt_trans; [apply N.le_0_l | exact Hlt].
  - rewrite (parse_loop_skip _ _ _ _ _ Hn Hh) in Hrun. by apply (IH _ _ _ Hrun).
  - rewrite (parse_loop_value _ _ _ _ _ Hh Hn) in Hrun. cbn zeta in Hrun.
    destruct (_ && _) eqn:Hc; [|by apply (IH _ _ _ Hrun)].
    injection Hrun as <-. apply andb_true_iff in Hc as [Hlt Hv].
    apply N.ltb_lt in Hlt. apply negb_true_iff in Hv.
    unfold unknown_option in *.
    destruct (CommandConfig.m_options cfg !! "unknown") as [opt|] eqn:Hu;
      cbn [default] in *; [|done].
    exists "unknown", opt. split; [done|]. split; [done|]. split; [done|].
    eapply N.le_lt_trans; [apply N.le_0_l | exact Hlt].
Qed.

(** X2: the only exception [CommandArgs::parse] raises is the arity error,
    and it names a key that the config declares as a non-variadic option of
    positive arity.  So [parse] never raises "key not found", and raises
    nothing at all for a config whose options are all variadic or of
    arity 0. *)
Theorem parse_only_arity_errors (cfg : CommandConfig.t) (fuel : nat)
    (args : list string) (ex : exception) :
  parse cfg fuel args = Throw ex ->
  exists k opt,
    ex = arity_error k
    /\ CommandConfig.m_options cfg !! k = Some opt
    /\ Option.variadicSize opt = false
    /\ (0 < Option.argSize opt)%N.
Proof. apply parse_loop_throws. Qed.

Lemma parse_only_arity_errors_witness :
  exists k opt,
    arity_error "--opt" = arity_error k
    /\ CommandConfig.m_options cfg_opt1 !! k = Some opt
    /\ Option.variadicSize opt = false
    /\ (0 < Option.argSize opt)%N.
Proof.
  apply (parse_only_arity_errors cfg_opt1 2 ["cmd"; "--opt"]). reflexivity.
Defined.

(** X3: [CommandArgs::parse] comes back (returns or throws) within as many
    iterations as the segment has tokens, whenever the option that governs
    loose tokens has a non-zero arity, which is so unless the config
    declares "unknown" with arity 0.  With arity 0 it never comes back from
    a segment whose first token is neither an option nor the command
    name. *)
Theorem parse_returns_or_hangs (cfg : CommandConfig.t) :
  (Option.argSize (unknown_option cfg) <> 0%N ->
     forall args fuel, length args <= fuel -> parse cfg fuel args <> OutOfFuel)
  /\ (Option.argSize (unknown_option cfg) = 0%N ->
      forall a rest,
        CommandConfig.has cfg a = false ->
        a <> CommandConfig.name cfg ->
        forall fuel, parse cfg fuel (a :: rest) = OutOfFuel).
Proof.
  split.
  - intros Hpos args fuel Hlen. by apply parse_loop_terminates.
  - intros Hzero a rest Hh Hn fuel. unfold parse.
    apply parse_loop_spins; [done | done | |].
    + unfold taken. by rewrite Hzero, N.min_0_l.
    + by rewrite Hzero.
Qed.

Lemma parse_returns_or_hangs_witness :
  parse cfg_opt1 4 ["cmd"; "loose"; "--opt"; "v"] <> OutOfFuel
  /\ forall fuel, parse cfg_unknown0 fuel ["a"; "b"] = OutOfFuel.
Proof.
  split.
  - apply (proj1 (parse_returns_or_hangs cfg_opt1)); [by vm_compute | vm_compute; lia].
  - apply (proj2 (parse_returns_or_hangs cfg_unknown0)); [reflexivity.. | discriminate].
Defined.

(** ** Repeated keys, variadic options, loose tokens *)

(** X4: the last occurrence of an option wins, for an option that is not
    named "unknown" (the key that loose tokens are stored under).  When an
    occurrence of such an [o] passes its arity check and the rest of the
    segment does not meet [o] again, the finished table holds under [o]
    exactly the values this occurrence took, joined by single spaces,
    whatever earlier occurrences in the prefix had stored. *)
Theorem parse_last_occurrence (cfg : CommandConfig.t) (o : string) (opt : Option.t)
    (pre rest : list string) (fuel0 g : nat) (tbl1 tbl' : gmap string string) :
  CommandConfig.m_options cfg !! o = Some opt ->
  Option.variadicSize opt = true
  \/ (Option.argSize opt <= N.of_nat (length (supplied cfg rest)))%N ->
  parse cfg fuel0 pre = Ret tbl1 ->
  let m := taken cfg (Option.argSize opt) rest in
  parse_loop cfg g (drop m rest) (<[o := String.concat " " (take m rest)]> tbl1)
  = Ret tbl' ->
  o ∉ drop m rest ->
  o <> "unknown" ->
  (forall fuel, length (pre ++ o :: rest) <= fuel ->
     parse cfg fuel (pre ++ o :: rest) = Ret tbl')
  /\ tbl' !! o = Some (String.concat " " (take m rest)).
Proof.
  intros Ho Har Hpre m Hrun Hnot Hne.
  assert (Hhas : CommandConfig.has cfg o = true) by (apply has_lookup; eauto).
  split.
  - intros fuel Hfuel.
    apply (parse_loop_resume cfg fuel0 (S g) pre ∅ tbl1 o rest); try done.
    rewrite (parse_loop_option _ _ _ _ _ _ Ho). cbn zeta. fold m.
    assert (Hc : (N.of_nat m <? Option.argSize opt)%N
                 && negb (Option.variadicSize opt) = false).
    { destruct Har as [-> | Hle]; [by rewrite andb_false_r|].
      apply andb_false_iff. left. apply N.ltb_ge. unfold m, taken. lia. }
    by rewrite Hc.
  - rewrite (parse_loop_untouched cfg o Hne g _ _ tbl' Hrun Hnot).
    by rewrite lookup_insert_eq.
Qed.

Lemma parse_last_occurrence_witness :
  parse cfg_opt1 5 ["cmd"; "--opt"; "first"; "--opt"; "second"]
  = Ret (<["--opt" := "second"]> (<["--opt" := "first"]> ∅))
  /\ (<["--opt" := "second"]> (<["--opt" := "first"]> ∅) : gmap string string) !! "--opt"
     = Some "second".
Proof.
  destruct (parse_last_occurrence cfg_opt1 "--opt"
              (Option.set_argSize (Option.ctor "--opt") 1)
              ["cmd"; "--opt"; "first"] ["second"] 3 0
              (<["--opt" := "first"]> ∅)
              (<["--opt" := "second"]> (<["--opt" := "first"]> ∅)))
    as [Hrun Hlook];
    [reflexivity | right; by apply N.leb_le | reflexivity | reflexivity
    | apply not_elem_of_nil | discriminate |].
  split; [|exact Hlook]. apply Hrun. vm_compute. lia.
Defined.

(** X5: a variadic option never fails the arity check.  Its occurrence
    stores the values that follow it, up to its [argSize] of them and up to
    the next recognized option or the end of the segment, and the outcome of
    the segment is the outcome of parsing what is left. *)
Theorem parse_variadic (cfg : CommandConfig.t) (o : string) (opt : Option.t)
    (pre rest : list string) (fuel0 : nat) (tbl1 : gmap string string) :
  CommandConfig.m_options cfg !! o = Some opt ->
  Option.variadicSize opt = true ->
  parse cfg fuel0 pre = Ret tbl1 ->
  let vs := supplied cfg rest in
  let m := Nat.min (N.to_nat (Option.argSize opt)) (length vs) in
  forall g r,
    parse_loop cfg g (drop m rest) (<[o := String.concat " " (take m vs)]> tbl1) = r ->
    r <> OutOfFuel ->
    forall fuel, length (pre ++ o :: rest) <= fuel ->
      parse cfg fuel (pre ++ o :: rest) = r.
Proof.
  intros Ho Hvar Hpre vs m g r Hr Hne fuel Hfuel.
  assert (Hhas : CommandConfig.has cfg o = true) by (apply has_lookup; eauto).
  apply (parse_loop_resume cfg fuel0 (S g) pre ∅ tbl1 o rest); try done.
  rewrite (parse_loop_option _ _ _ _ _ _ Ho). cbn zeta.
  rewrite Hvar, andb_false_r.
  assert (Hm : taken cfg (Option.argSize opt) rest = m) by (unfold taken, m, vs; lia).
  rewrite Hm. rewrite (take_supplied cfg m); [done|]. fold vs. lia.
Qed.

Lemma parse_variadic_witness :
  parse cfg_flags 7 ["cmd"; "--v"; "a"; "b"; "c"; "d"; "--z"]
  = Ret (<["--z" := EmptyString]> (<["unknown" := "d"]> (<["--v" := "a b c"]> ∅)))
  /\ parse cfg_flags 3 ["cmd"; "--v"; "a"] = Ret (<["--v" := "a"]> ∅).
Proof.
  split.
  - apply (parse_variadic cfg_flags "--v"
             (Option.set_variadicSize (Option.set_argSize (Option.ctor "--v") 3) true)
             ["cmd"] ["a"; "b"; "c"; "d"; "--z"] 1 ∅ eq_refl eq_refl eq_refl 2);
      [reflexivity | discriminate | vm_compute; lia].
  - apply (parse_variadic cfg_flags "--v"
             (Option.set_variadicSize (Option.set_argSize (Option.ctor "--v") 3) true)
             ["cmd"] ["a"] 1 ∅ eq_refl eq_refl eq_refl 0);
      [reflexivity | discriminate | vm_compute; lia].
Defined.

(** X6: a run of tokens that are no options, met by the loop's cursor and
    ending at the next recognized option or at the end of the segment, is
    stored under "unknown", joined by single spaces, and parsing goes on
    after it; this holds when the config does not itself declare "unknown"
    and the first token of the run is not the command name.  The entry is
    written anew by every such run, so the bucket keeps the last run
    only. *)
Theorem parse_loose_tokens (cfg : CommandConfig.t) (loose rest : list string)
    (tbl : gmap string string) :
  CommandConfig.m_options cfg !! "unknown" = None ->
  loose <> [] ->
  Forall (fun t => CommandConfig.has cfg t = false) loose ->
  head loose <> Some (CommandConfig.name cfg) ->
  supplied cfg rest = [] ->
  (N.of_nat (length loose) <= SIZE_MAX)%N ->
  forall fuel,
    parse_loop cfg (S fuel) (loose ++ rest) tbl
    = parse_loop cfg fuel rest (<["unknown" := String.concat " " loose]> tbl).
Proof.
  intros Hunk Hnil Hloose Hhead Hrest Hmax fuel.
  destruct loose as [|a loose]; [done|]. clear Hnil.
  apply Forall_cons in Hloose as Hl. destruct Hl as [Ha _].
  cbn [app]. rewrite parse_loop_value; [|done|].
  2:{ intros ->. by apply Hhead. }
  cbn zeta. rewrite (unknown_option_default _ Hunk).
  change (Option.variadicSize unk_opt) with true. rewrite andb_false_r.
  assert (Hsup : supplied cfg ((a :: loose) ++ rest) = a :: loose).
  { clear -Hloose Hrest. induction Hloose as [|t ts Ht _ IH]; simpl; [done|].
    by rewrite Ht, IH. }
  assert (Hm : taken cfg (Option.argSize unk_opt) (a :: loose ++ rest)
               = length (a :: loose)).
  { unfold taken. change (a :: loose ++ rest) with ((a :: loose) ++ rest).
    rewrite Hsup. change (Option.argSize unk_opt) with SIZE_MAX. lia. }
  rewrite Hm. change (a :: loose ++ rest) with ((a :: loose) ++ rest).
  by rewrite drop_app_length, take_app_length.
Qed.

Lemma parse_loose_tokens_witness :
  parse cfg_opt1 5 ["cmd"; "loose1"; "loose2"; "--opt"; "v"]
  = Ret (<["--opt" := "v"]> (<["unknown" := "loose1 loose2"]> ∅))
  /\ parse cfg_opt1 6 ["cmd"; "loose1"; "loose2"; "--opt"; "v"; "late"]
     = Ret (<["unknown" := "late"]>
              (<["--opt" := "v"]> (<["unknown" := "loose1 loose2"]> ∅))).
Proof.
  split.
  - unfold parse. rewrite (parse_loop_skip cfg_opt1 4 "cmd") by reflexivity.
    rewrite (parse_loose_tokens cfg_opt1 ["loose1"; "loose2"] ["--opt"; "v"] ∅);
      [reflexivity | reflexivity | discriminate | repeat constructor
      | discriminate | reflexivity | by apply N.leb_le].
  - unfold parse. rewrite (parse_loop_skip cfg_opt1 5 "cmd") by reflexivity.
    rewrite (parse_loose_tokens cfg_opt1 ["loose1"; "loose2"] ["--opt"; "v"; "late"] ∅);
      [reflexivity | reflexivity | discriminate | repeat constructor
      | discriminate | reflexivity | by apply N.leb_le].
Defined.

(** ** [CommandConfig] *)

(** X7: [append] files the option under its own name: afterwards [has] is
    true for that name and [option] returns the option appended last (an
    earlier option of the same name is replaced), other names are looked up
    as before, the config's name is unchanged and every option still sits
    under its own name.  [option] raises "key not found" exactly for the
    names for which [has] is false. *)
Theorem CommandConfig_append (c : CommandConfig.t) (opt : Option.t) :
  CommandConfig.has (CommandConfig.append c opt) (Option.name opt) = true
  /\ CommandConfig.option (CommandConfig.append c opt) (Option.name opt) = Ret opt
  /\ (forall k, k <> Option.name opt ->
        CommandConfig.has (CommandConfig.append c opt) k = CommandConfig.has c k
        /\ CommandConfig.option (CommandConfig.append c opt) k = CommandConfig.option c k)
  /\ (forall opt', Option.name opt' = Option.name opt ->
        CommandConfig.append (CommandConfig.append c opt') opt = CommandConfig.append c opt)
  /\ CommandConfig.name (CommandConfig.append c opt) = CommandConfig.name c
  /\ (keys_are_names c -> keys_are_names (CommandConfig.append c opt))
  /\ (forall k, CommandConfig.has c k = false <->
                CommandConfig.option c k = Throw (key_not_found k)).
Proof.
  unfold CommandConfig.has, CommandConfig.option, CommandConfig.append.
  cbn [CommandConfig.m_options CommandConfig.m_name].
  split; [by rewrite lookup_insert_eq|]. split; [by rewrite lookup_insert_eq|].
  split; [intros k Hk; by rewrite lookup_insert_ne|].
  split; [intros opt' ->; by rewrite insert_insert_eq|].
  split; [done|]. split.
  - unfold keys_are_names. cbn [CommandConfig.m_options].
    intros Hwf k o. destruct (decide (Option.name opt = k)) as [<-|Hne].
    + rewrite lookup_insert_eq. by intros [= <-].
    + rewrite lookup_insert_ne by done. apply Hwf.
  - intros k. by destruct (CommandConfig.m_options c !! k).
Qed.

Lemma CommandConfig_append_witness :
  keys_are_names cfg_flags
  /\ CommandConfig.option cfg_flags "--z" = Ret (Option.ctor "--z")
  /\ CommandConfig.option cfg_flags "--w" = Throw (key_not_found "--w").
Proof.
  split; [|split].
  - apply (CommandConfig_append _ (Option.ctor "--z")).
    apply (CommandConfig_append _
             (Option.set_variadicSize (Option.set_argSize (Option.ctor "--v") 3) true)).
    intros k o Hk. cbn [CommandConfig.ctor CommandConfig.m_options] in Hk.
    by rewrite lookup_empty in Hk.
  - apply (CommandConfig_append _ (Option.ctor "--z")).
  - apply (CommandConfig_append cfg_flags (Option.ctor "--z")). reflexivity.
Defined.

(** ** The accessors on a missing and on a present key *)

(** X8: on a key for which [has] is false, [getString] and
    [getStrVec(key, true)] raise "key not found", [getStrVec(key)] returns
    the empty sequence and [getString(key, def)] returns [def].  On a key for
    which [has] is true, [getString] returns the stored text,
    [getString(key, def)] returns the same text whatever [def] is, and
    [getStrVec] returns the same sequence with and without [throwEx]. *)
Theorem accessors_by_has (cargs : CommandArgs.t) (name : string) :
  (has cargs name = false ->
     getString cargs name = Throw (key_not_found name)
     /\ getStrVec cargs name true = Throw (key_not_found name)
     /\ getStrVec cargs name false = Ret []
     /\ forall defValue, getString_def cargs name defValue = defValue)
  /\ (has cargs name = true ->
      exists second,
        getString cargs name = Ret second
        /\ (forall defValue, getString_def cargs name defValue = second)
        /\ getStrVec cargs name true = getStrVec cargs name false).
Proof.
  unfold has, getString, getStrVec, getString_def.
  destruct (CommandArgs.m_argTable cargs !! name) as [second|]; split; try done.
  intros _. by exists second.
Qed.

Lemma accessors_by_has_witness :
  getStrVec (CommandArgs.mk (<["k" := "a b"]> ∅) cfg_opt1) "m" true
  = Throw (key_not_found "m")
  /\ exists second,
       getString (CommandArgs.mk (<["k" := "a b"]> ∅) cfg_opt1) "k" = Ret second
       /\ (forall defValue,
             getString_def (CommandArgs.mk (<["k" := "a b"]> ∅) cfg_opt1) "k" defValue
             = second)
       /\ getStrVec (CommandArgs.mk (<["k" := "a b"]> ∅) cfg_opt1) "k" true
          = getStrVec (CommandArgs.mk (<["k" := "a b"]> ∅) cfg_opt1) "k" false.
Proof.
  split.
  - apply (proj1 (accessors_by_has (CommandArgs.mk (<["k" := "a b"]> ∅) cfg_opt1) "m")).
    reflexivity.
  - apply (proj2 (accessors_by_has (CommandArgs.mk (<["k" := "a b"]> ∅) cfg_opt1) "k")).
    reflexivity.
Defined.

(** ** What [getStrVec] returns for any stored text *)

Lemma read_line_spec s :
  no_space (read_line s " "%char).1 = true
  /\ ((s = (read_line s " "%char).1 /\ (read_line s " "%char).2 = EmptyString)
      \/ s = (read_line s " "%char).1
             +:+ String " "%char (read_line s " "%char).2).
Proof.
  induction s as [|c s IH]; simpl; [by auto|].
  destruct (Ascii.eqb_spec c " "%char) as [->|Hc]; simpl; [by auto|].
  destruct (read_line s " "%char) as [val rest]; simpl in *.
  destruct IH as [Hval Hs]. split.
  - rewrite Hval, andb_true_r. by apply negb_true_iff, Ascii.eqb_neq.
  - destruct Hs as [[-> ->] | ->]; [by left | by right].
Qed.

Lemma length_after_token val (ch : ascii) rest :
  String.length rest < String.length (val +:+ String ch rest).
Proof. induction val; simpl; lia. Qed.

Lemma getline_loop_acc ss :
  forall res, getline_loop ss res = res ++ getline_loop ss [].
Proof.
  remember (String.length ss) as n eqn:Hn. revert ss Hn.
  induction n as [n IH] using lt_wf_ind; intros ss Hn res.
  destruct (getline ss " "%char) as [[val ss']|] eqn:Hget.
  - rewrite (getline_loop_step ss res val ss' Hget).
    rewrite (getline_loop_step ss [] val ss' Hget).
    assert (Hlt : String.length ss' < n).
    { subst n. destruct ss as [|c ss]; [done|].
      assert (Hr : read_line (String c ss) " "%char = (val, ss'))
        by (unfold getline in Hget; congruence).
      pose proof (read_line_spec (String c ss)) as [_ Hs].
      rewrite Hr in Hs. cbn [fst snd] in Hs.
      destruct Hs as [[_ ->] | Hs]; [simpl; lia|].
      rewrite Hs. apply length_after_token. }
    rewrite (IH _ Hlt ss' eq_refl (res ++ [val])).
    rewrite (IH _ Hlt ss' eq_refl ([] ++ [val])). by rewrite <- app_assoc.
  - destruct ss; [|done]. by rewrite !getline_loop_empty, app_nil_r.
Qed.

Lemma no_space_not_ends s : no_space s = true -> ends_with_space s = false.
Proof.
  induction s as [|c s IH]; [done|]. simpl.
  intros [Hc Hs]%andb_true_iff. apply negb_true_iff in Hc.
  destruct s; [done | by apply IH].
Qed.

Lemma ends_with_space_append s t :
  t <> EmptyString -> ends_with_space (s +:+ t) = ends_with_space t.
Proof.
  intros Ht. induction s as [|c s IH]; [done|].
  change (String c s +:+ t) with (String c (s +:+ t)). cbn [ends_with_space].
  destruct (s +:+ t) eqn:E; [|done].
  destruct s; simpl in E; [congruence | discriminate].
Qed.

Lemma getline_loop_split ss :
  Forall (fun t => no_space t = true) (getline_loop ss [])
  /\ String.concat " " (getline_loop ss [])
     = (if ends_with_space ss then pop_back ss else ss)
  /\ (ss <> EmptyString -> getline_loop ss [] <> []).
Proof.
  remember (String.length ss) as n eqn:Hn. revert ss Hn.
  induction n as [n IH] using lt_wf_ind; intros ss Hn.
  destruct ss as [|c s]. { by rewrite getline_loop_empty. }
  set (ss := String c s) in *.
  pose proof (read_line_spec ss) as [Hval Hs].
  destruct (read_line ss " "%char) as [val rest] eqn:Hr. cbn [fst snd] in *.
  assert (Hget : getline ss " "%char = Some (val, rest)) by (cbn [getline ss]; by rewrite <- Hr).
  rewrite (getline_loop_step ss [] val rest Hget), getline_loop_acc. cbn [app].
  split; [|split; [|done]].
  - constructor; [done|].
    destruct Hs as [[_ ->] | Hs]; [by rewrite getline_loop_empty|].
    apply (IH (String.length rest)); [|done].
    subst n. subst ss. rewrite Hs. apply length_after_token.
  - destruct Hs as [[Hs ->] | Hs].
    + rewrite getline_loop_empty. cbn [String.concat].
      rewrite <- Hs in Hval. by rewrite (no_space_not_ends _ Hval).
    + destruct rest as [|c' rest'].
      * rewrite getline_loop_empty. cbn [String.concat]. rewrite Hs.
        rewrite ends_with_space_append by done. cbn [ends_with_space].
        rewrite pop_back_append by done. simpl. by rewrite append_nil_r.
      * destruct (IH (String.length (String c' rest'))) with (ss := String c' rest')
          as (_ & Hcat & Hne); [|done|].
        { subst n. subst ss. rewrite Hs. apply length_after_token. }
        specialize (Hne ltac:(done)).
        destruct (getline_loop (String c' rest') []) as [|t l] eqn:El; [done|].
        change (String.concat " " (val :: t :: l))
          with (val +:+ " " +:+ String.concat " " (t :: l)).
        rewrite Hcat, Hs.
        change (val +:+ String " "%char (String c' rest'))
          with (val +:+ (" " +:+ String c' rest')).
        rewrite <- !append_assoc.
        rewrite ends_with_space_append by done.
        destruct (ends_with_space (String c' rest')); [|done].
        by rewrite pop_back_append.
Qed.

(** X9: for every stored text, [getStrVec] returns tokens that hold no
    space, and joining them with single spaces gives the text back, less
    one trailing space if the text ends with one.  So the only thing the
    splitting loses is a final space (an empty last token), and the empty
    text gives the empty sequence. *)
Theorem getStrVec_split (cargs : CommandArgs.t) (name second : string) (throwEx : bool) :
  CommandArgs.m_argTable cargs !! name = Some second ->
  exists v,
    getStrVec cargs name throwEx = Ret v
    /\ Forall (fun t => no_space t = true) v
    /\ String.concat " " v = (if ends_with_space second then pop_back second else second)
    /\ (v = [] <-> second = EmptyString).
Proof.
  intros Hlook. exists (getline_loop second []).
  destruct (getline_loop_split second) as (Hns & Hcat & Hne).
  unfold getStrVec. rewrite Hlook. split; [done|]. split; [done|]. split; [done|].
  split.
  - intros Hnil. destruct (decide (second = EmptyString)) as [|Hs]; [done|].
    by destruct (Hne Hs).
  - intros ->. apply getline_loop_empty.
Qed.

Lemma getStrVec_split_witness :
  exists v,
    getStrVec (CommandArgs.mk (<["k" := "a  b "]> ∅) cfg_opt1) "k" false = Ret v
    /\ Forall (fun t => no_space t = true) v
    /\ String.concat " " v = "a  b"
    /\ (v = [] <-> "a  b " = EmptyString).
Proof.
  apply (getStrVec_split (CommandArgs.mk (<["k" := "a  b "]> ∅) cfg_opt1) "k" "a  b " false).
  reflexivity.
Defined.

(** ** [tolower] *)

Lemma std_tolower_not_upper ch : not_upper (std_tolower ch) = true.
Proof. destruct ch as [[] [] [] [] [] [] [] []]; reflexivity. Qed.

Lemma std_tolower_fixes ch : not_upper ch = true -> std_tolower ch = ch.
Proof. destruct ch as [[] [] [] [] [] [] [] []]; (reflexivity || discriminate). Qed.

(** X10: [CommandArgs::tolower] keeps the length of the string, leaves no
    upper-case letter in it, changes nothing in a string that has none (so
    applying it twice is applying it once) and goes through
    concatenation. *)
Theorem tolower_properties (str tail : string) :
  String.length (tolower str) = String.length str
  /\ all_not_upper (tolower str) = true
  /\ (all_not_upper str = true -> tolower str = str)
  /\ tolower (tolower str) = tolower str
  /\ tolower (str +:+ tail) = tolower str +:+ tolower tail.
Proof.
  assert (Hfix : forall s, all_not_upper s = true -> tolower s = s).
  { induction s as [|ch s IH]; [done|]. simpl.
    intros [Hc Hs]%andb_true_iff. by rewrite (std_tolower_fixes _ Hc), IH. }
  assert (Hlow : forall s, all_not_upper (tolower s) = true).
  { induction s as [|ch s IH]; [done|]. simpl.
    by rewrite std_tolower_not_upper, IH. }
  split; [|split; [apply Hlow|split; [apply Hfix|split; [apply Hfix, Hlow|]]]].
  - induction str as [|ch s IH]; simpl; [done | by rewrite IH].
  - induction str as [|ch s IH]; simpl; [done | by rewrite IH].
Qed.

Lemma tolower_properties_witness : tolower "--opt" = "--opt".
Proof.
  apply (proj1 (proj2 (proj2 (tolower_properties "--opt" EmptyString)))). reflexivity.
Defined.

(** ** The segments of [Commander::run] *)

Lemma invoked_app tr1 tr2 : invoked (tr1 ++ tr2) = invoked tr1 ++ invoked tr2.
Proof.
  induction tr1 as [|e tr1 IH]; [done|]. destruct e; simpl; by rewrite IH.
Qed.

Lemma handled_app tr1 tr2 : handled (tr1 ++ tr2) = handled tr1 ++ handled tr2.
Proof.
  induction tr1 as [|e tr1 IH]; [done|]. destruct e; simpl; by rewrite IH.
Qed.

Lemma invoke_no_invoke_no_handle fuel caller args :
  invoked (CommandCaller.invoke fuel caller args).1 = []
  /\ handled (CommandCaller.invoke fuel caller args).1 = [].
Proof.
  unfold CommandCaller.invoke.
  destruct (CommandArgs_ctor fuel args _) as [cargs|ex|]; [|done|done].
  destruct (CommandCaller.m_callback caller); [done|].
  by destruct (CommandCaller.m_invoke caller).
Qed.

Section RunSegments.
Variable self : Commander.t.

Lemma collect_spec rest args :
  exists vs,
    (Commander.collect self rest args).1 = args ++ vs
    /\ rest = vs ++ (Commander.collect self rest args).2
    /\ Forall (fun v => Commander.isCommand self v = false) vs
    /\ (forall b rest'', (Commander.collect self rest args).2 = b :: rest'' ->
                        Commander.isCommand self b = true).
Proof.
  revert args. induction rest as [|b rest IH]; intros args; cbn [Commander.collect].
  { exists []. by rewrite app_nil_r. }
  destruct (Commander.isCommand self b) eqn:Hb.
  { exists []. rewrite app_nil_r. cbn [fst snd]. repeat split; [done|].
    by intros ? ? [= <- _]. }
  destruct (IH (args ++ [b])) as (vs & Hargs & Hrest & Hvs & Hnext).
  exists (b :: vs). rewrite Hargs, <- app_assoc. split; [done|].
  split; [by rewrite Hrest at 1|]. split; [by constructor | done].
Qed.

Lemma run_loop_shape pfuel fuel :
  forall args_i command0,
    (forall a rest, args_i = a :: rest -> Commander.isCommand self a = true) ->
    let res := Commander.run_loop pfuel fuel self args_i command0 in
    Forall (segment_ok self) (invoked res.1)
    /\ concat (invoked res.1) `prefix_of` args_i
    /\ (res.2.2 = Ret tt ->
        length (handled res.1) = length (invoked res.1)
        /\ concat (invoked res.1) = args_i)
    /\ (forall ex, res.2.2 = Throw ex ->
        length (invoked res.1) = S (length (handled res.1))
        /\ exists command args caller,
             Invoke command args ∈ res.1
             /\ Commander.m_commands self !! command = Some caller
             /\ (CommandCaller.invoke pfuel caller args).2 = Throw ex).
Proof.
  induction fuel as [|fuel IH]; intros args_i command0 Hhead.
  { destruct args_i; simpl; (split; [done|]); (split; [apply prefix_nil|]);
      by split. }
  destruct args_i as [|a rest].
  { simpl. split; [done|]. split; [done|]. by split. }
  specialize (Hhead a rest eq_refl).
  destruct (Commander.m_commands self !! a) as [caller|] eqn:Ha;
    [|by rewrite (isCommand_false _ _ Ha) in Hhead].
  rewrite (run_loop_command self _ _ _ _ _ _ Ha). cbn zeta.
  destruct (collect_spec rest [a]) as (vs & Hseg & Hrest & Hvs & Hnext).
  set (seg := (Commander.collect self rest [a]).1) in *.
  set (rest' := (Commander.collect self rest [a]).2) in *.
  assert (Hok : segment_ok self seg).
  { exists a, vs. by rewrite Hseg. }
  assert (Hsplit : a :: rest = seg ++ rest').
  { rewrite Hseg. cbn [app]. by rewrite Hrest at 1. }
  destruct (invoke_no_invoke_no_handle pfuel caller seg) as [Hinv Hhan].
  destruct (CommandCaller.invoke pfuel caller seg) as [tr1 r] eqn:Einv.
  cbn [fst snd] in *.
  destruct r as [stat|ex|]; cbn [fst snd].
  - destruct (IH rest' a Hnext) as (Hall & Hpre & Hret & Hthrow).
    destruct (Commander.run_loop pfuel fuel self rest' a) as [tr' [command' r']].
    cbn [fst snd] in *.
    change (Invoke a seg :: tr1 ++ [Handle stat] ++ tr')
      with ([Invoke a seg] ++ tr1 ++ [Handle stat] ++ tr').
    rewrite !invoked_app, !handled_app, Hinv, Hhan. cbn [invoked handled app].
    split; [by constructor|]. rewrite Hsplit. cbn [concat].
    split; [by apply prefix_app|]. split.
    + intros Hr. destruct (Hret Hr) as [Hcount Hcat].
      cbn [length]. by rewrite Hcount, Hcat.
    + intros ex Hr. destruct (Hthrow ex Hr) as (Hcount & c & args & clr & Hin & Hc & Hex).
      cbn [length]. split; [by rewrite Hcount|].
      exists c, args, clr. split; [|done].
      apply elem_of_cons. right. apply elem_of_app. right.
      apply elem_of_cons. by right.
  - change (Invoke a seg :: tr1) with ([Invoke a seg] ++ tr1).
    rewrite !invoked_app, !handled_app, Hinv, Hhan. cbn [invoked handled app concat].
    rewrite app_nil_r. split; [by constructor|]. rewrite Hsplit.
    split; [by apply prefix_app_r|]. split; [done|].
    intros ex' [= <-]. split; [done|]. exists a, seg, caller.
    split; [apply elem_of_cons; by left|]. split; [done|]. by rewrite Einv.
  - change (Invoke a seg :: tr1) with ([Invoke a seg] ++ tr1).
    rewrite !invoked_app, !handled_app, Hinv, Hhan. cbn [invoked handled app concat].
    rewrite app_nil_r. split; [by constructor|]. rewrite Hsplit.
    split; [by apply prefix_app_r|]. by split.
Qed.
End RunSegments.

(** X11: whatever the registry and the tokens, every segment that [run]
    hands to [invokeCommand] is a registered command name followed by
    tokens that are not registered, and the segments, one after the other,
    are a prefix of [m_args]: [run] invents no token, drops none between
    two segments and never passes a command name as a value.  When the
    first token is registered, the run returns and no invocation raised,
    the segments are the whole of [m_args]. *)
Theorem run_segments (fuel : nat) (self : Commander.t) :
  Forall (segment_ok self) (invoked (Commander.run fuel self).1)
  /\ concat (invoked (Commander.run fuel self).1) `prefix_of` Commander.m_args self
  /\ ((forall a rest, Commander.m_args self = a :: rest ->
                      Commander.isCommand self a = true) ->
      (Commander.run fuel self).2 = Ret tt ->
      (forall command args caller ex,
         Invoke command args ∈ (Commander.run fuel self).1 ->
         Commander.m_commands self !! command = Some caller ->
         (CommandCaller.invoke fuel caller args).2 <> Throw ex) ->
      concat (invoked (Commander.run fuel self).1) = Commander.m_args self).
Proof.
  unfold Commander.run.
  destruct (Commander.m_args self) as [|a rest] eqn:Hargs.
  { rewrite run_loop_nil. cbn. split; [done|]. split; [done|]. done. }
  destruct (Commander.m_commands self !! a) as [caller|] eqn:Ha.
  - pose proof (run_loop_shape self fuel fuel (a :: rest) EmptyString) as Hshape.
    cbn zeta in Hshape.
    destruct Hshape as (Hall & Hpre & Hret & Hthrow).
    { intros ? ? [= <- _]. by apply (isCommand_true _ _ _ Ha). }
    destruct (Commander.run_loop fuel fuel self (a :: rest) EmptyString)
      as [tr [command r]]. cbn [fst snd] in *.
    destruct r as [[]|ex|]; cbn [fst snd].
    + split; [done|]. split; [done|]. intros _ _ _. by apply Hret.
    + destruct (is_std_exception ex); cbn [fst snd];
        [|split; [done|]; split; [done|]; by intros _ ?].
      rewrite invoked_app. cbn [invoked StatusHandler.handle fst].
      rewrite app_nil_r. split; [done|]. split; [done|].
      intros _ _ Hno. destruct (Hthrow ex eq_refl) as (_ & c & args & clr & Hin & Hc & Hex).
      destruct (Hno c args clr ex); [|done|done].
      apply elem_of_app. by left.
    + split; [done|]. split; [done|]. by intros _ ?.
  - destruct fuel as [|fuel].
    { cbn. split; [done|]. split; [apply prefix_nil|]. by intros _ ?. }
    rewrite (run_loop_not_command self _ _ _ _ _ Ha). cbn.
    split; [done|]. split; [apply prefix_nil|].
    intros Hhead. specialize (Hhead a rest eq_refl).
    by rewrite (isCommand_false _ _ Ha) in Hhead.
Qed.

Lemma run_segments_witness :
  concat (invoked (Commander.run 5 commander_ab).1) = ["cmd1"; "a"; "cmd2"; "b"].
Proof.
  apply (proj2 (proj2 (run_segments 5 commander_ab))).
  - intros a rest [= <- _]. reflexivity.
  - reflexivity.
  - intros command args caller ex Hin Hc.
    vm_compute in Hin.
    repeat (apply elem_of_cons in Hin as [Hin|Hin];
            [first [discriminate Hin | injection Hin as -> ->;
                    vm_compute in Hc; injection Hc as <-; discriminate] |]).
    by apply elem_of_nil in Hin.
Defined.

(** X12: a run that returns has called [m_handler.handle] once for each
    segment it invoked, and once more exactly when the first token is not
    a registered command name; in that case it invoked nothing. *)
Theorem run_status_count (fuel : nat) (self : Commander.t) :
  (Commander.run fuel self).2 = Ret tt ->
  length (handled (Commander.run fuel self).1)
  = length (invoked (Commander.run fuel self).1)
    + match Commander.m_args self with
      | a :: _ => if Commander.isCommand self a then 0 else 1
      | [] => 0
      end
  /\ (forall a rest,
        Commander.m_args self = a :: rest ->
        Commander.isCommand self a = false ->
        invoked (Commander.run fuel self).1 = []).
Proof.
  unfold Commander.run.
  destruct (Commander.m_args self) as [|a rest] eqn:Hargs.
  { rewrite run_loop_nil. cbn. by intros _. }
  destruct (Commander.m_commands self !! a) as [caller|] eqn:Ha.
  - rewrite (isCommand_true _ _ _ Ha).
    pose proof (run_loop_shape self fuel fuel (a :: rest) EmptyString) as Hshape.
    cbn zeta in Hshape.
    destruct Hshape as (Hall & Hpre & Hret & Hthrow).
    { intros ? ? [= <- _]. by apply (isCommand_true _ _ _ Ha). }
    destruct (Commander.run_loop fuel fuel self (a :: rest) EmptyString)
      as [tr [command r]]. cbn [fst snd] in *.
    destruct r as [[]|ex|]; cbn [fst snd]; [| |done].
    + intros _. split; [|intros ? ? [= <- _]; by rewrite (isCommand_true _ _ _ Ha)].
      destruct Hret as [-> _]; [done | lia].
    + destruct (is_std_exception ex); cbn [fst snd]; [|done].
      intros _. split; [|intros ? ? [= <- _]; by rewrite (isCommand_true _ _ _ Ha)].
      destruct (Hthrow ex eq_refl) as [Hcount _].
      rewrite invoked_app, handled_app, !length_app, Hcount. simpl. lia.
  - rewrite (isCommand_false _ _ Ha). destruct fuel as [|fuel]; [done|].
    rewrite (run_loop_not_command self _ _ _ _ _ Ha). cbn. by intros _.
Qed.

Lemma run_status_count_witness :
  length (handled (Commander.run 5 commander_ab).1)
  = length (invoked (Commander.run 5 commander_ab).1) + 0.
Proof.
  apply (proj1 (run_status_count 5 commander_ab eq_refl)).
Defined.

(** ** The registry of a [Commander] *)

Lemma registry_ok_ctor args : registry_ok (Commander.ctor args).
Proof. intros k caller Hk. cbn in Hk. by rewrite lookup_empty in Hk. Qed.

Lemma registry_ok_appendCommand self caller :
  registry_ok self -> registry_ok (Commander.appendCommand self caller).
Proof.
  intros Hok k' caller'. cbn [Commander.appendCommand Commander.m_commands].
  destruct (decide (k' = CommandConfig.name (CommandCaller.config caller))) as [->|Hne].
  - rewrite lookup_insert_eq. by intros [= <-].
  - rewrite lookup_insert_ne by done. apply Hok.
Qed.

(** X13: [appendCommand] registers the caller under the name of its
    config: afterwards that name is a command and [invokeCommand] on it
    runs this caller, a caller registered before under the same name is
    replaced, every other name is as before, and the tokens are untouched.
    [invokeCommand] on a name that is not registered calls nothing and
    raises the [out_of_range] of [unordered_map::at]. *)
Theorem appendCommand_registry (self : Commander.t) (caller : CommandCaller.t)
    (fuel : nat) (v : string) (args : list string) :
  let self' := Commander.appendCommand self caller in
  let k := CommandConfig.name (CommandCaller.config caller) in
  Commander.isCommand self' v = (String.eqb v k || Commander.isCommand self v)
  /\ Commander.invokeCommand fuel self' k args
     = (Invoke k args :: (CommandCaller.invoke fuel caller args).1,
        (CommandCaller.invoke fuel caller args).2)
  /\ (v <> k ->
      Commander.invokeCommand fuel self' v args = Commander.invokeCommand fuel self v args)
  /\ (Commander.isCommand self v = false ->
      Commander.invokeCommand fuel self v args
      = ([], Throw (out_of_range "unordered_map::at")))
  /\ (forall caller0,
        CommandConfig.name (CommandCaller.config caller0) = k ->
        Commander.appendCommand (Commander.appendCommand self caller0) caller = self')
  /\ Commander.m_args self' = Commander.m_args self
  /\ (registry_ok self -> registry_ok self').
Proof.
  intros self' k. subst self'. unfold Commander.appendCommand. fold k.
  split; [|split; [|split; [|split; [|split; [|split]]]]].
  - unfold Commander.isCommand. cbn [Commander.m_commands].
    destruct (String.eqb_spec v k) as [->|Hne].
    + by rewrite lookup_insert_eq.
    + by rewrite lookup_insert_ne.
  - unfold Commander.invokeCommand. cbn [Commander.m_commands].
    rewrite lookup_insert_eq. by destruct (CommandCaller.invoke fuel caller args).
  - intros Hne. unfold Commander.invokeCommand. cbn [Commander.m_commands].
    by rewrite lookup_insert_ne.
  - unfold Commander.isCommand, Commander.invokeCommand.
    by destruct (Commander.m_commands self !! v).
  - intros caller0 ->. cbn [Commander.m_commands Commander.m_args Commander.m_handler].
    by rewrite insert_insert_eq.
  - done.
  - apply registry_ok_appendCommand.
Qed.

Lemma appendCommand_registry_witness :
  Commander.invokeCommand 3 commander_plain "cmd3" ["cmd3"]
  = ([], Throw (out_of_range "unordered_map::at")).
Proof.
  apply (proj1 (proj2 (proj2 (proj2
    (appendCommand_registry commander_plain CommandCaller.ctor 3 "cmd3" ["cmd3"]))))).
  reflexivity.
Defined.

(** ** What a handler is called with *)

Lemma invoke_call fuel caller args c cargs :
  Call c cargs ∈ (CommandCaller.invoke fuel caller args).1 ->
  c = CommandConfig.name (CommandCaller.config caller)
  /\ CommandArgs_ctor fuel args (CommandCaller.config caller) = Ret cargs
  /\ (CommandCaller.invoke fuel caller args).1 = [Call c cargs].
Proof.
  unfold CommandCaller.invoke, CommandCaller.config.
  destruct (CommandArgs_ctor fuel args _) as [cargs'|ex|]; cbn [fst];
    [|by intros ?%elem_of_nil..].
  destruct (CommandCaller.m_callback caller); cbn [fst].
  { by intros [= -> ->]%list_elem_of_singleton. }
  destruct (CommandCaller.m_invoke caller); cbn [fst]; [|by intros ?%elem_of_nil].
  by intros [= -> ->]%list_elem_of_singleton.
Qed.

Lemma run_loop_call (self : Commander.t) pfuel fuel :
  forall args_i command0 c cargs,
    Call c cargs ∈ (Commander.run_loop pfuel fuel self args_i command0).1 ->
    exists command vs caller,
      Invoke command (command :: vs)
        ∈ (Commander.run_loop pfuel fuel self args_i command0).1
      /\ Commander.m_commands self !! command = Some caller
      /\ c = CommandConfig.name (CommandCaller.config caller)
      /\ CommandArgs_ctor pfuel (command :: vs) (CommandCaller.config caller) = Ret cargs
      /\ (CommandCaller.invoke pfuel caller (command :: vs)).1 = [Call c cargs].
Proof.
  induction fuel as [|fuel IH]; intros args_i command0 c cargs Hin.
  { destruct args_i; simpl in Hin; by apply elem_of_nil in Hin. }
  destruct args_i as [|a rest]. { simpl in Hin. by apply elem_of_nil in Hin. }
  destruct (Commander.m_commands self !! a) as [caller|] eqn:Ha.
  - rewrite (run_loop_command self _ _ _ _ _ _ Ha) in *. cbn zeta in *.
    destruct (collect_spec self rest [a]) as (vs & Hseg & _).
    set (seg := (Commander.collect self rest [a]).1) in *.
    pose proof (invoke_call pfuel caller seg c cargs) as Hcall.
    destruct (CommandCaller.invoke pfuel caller seg) as [tr1 r] eqn:Einv.
    cbn [fst snd] in *. rewrite Hseg in *. cbn [app] in *.
    assert (Hhere : Call c cargs ∈ tr1 ->
              c = CommandConfig.name (CommandCaller.config caller)
              /\ CommandArgs_ctor pfuel (a :: vs) (CommandCaller.config caller) = Ret cargs
              /\ (CommandCaller.invoke pfuel caller (a :: vs)).1 = [Call c cargs]).
    { intros Hc. rewrite Einv. by apply Hcall. }
    destruct r as [stat|ex|]; cbn [fst snd] in *.
    + apply elem_of_cons in Hin as [Hin|Hin]; [done|].
      apply elem_of_app in Hin as [Hin|Hin].
      { destruct (Hhere Hin) as [-> Hct]. exists a, vs, caller.
        split; [apply elem_of_cons; by left | done]. }
      apply elem_of_cons in Hin as [Hin|Hin]; [done|].
      destruct (IH _ _ _ _ Hin) as (command & vs' & caller' & Hin' & Hrest).
      exists command, vs', caller'. split; [|done].
      apply elem_of_cons. right. apply elem_of_app. right.
      apply elem_of_cons. by right.
    + apply elem_of_cons in Hin as [Hin|Hin]; [done|].
      destruct (Hhere Hin) as [-> Hct]. exists a, vs, caller.
      split; [apply elem_of_cons; by left | done].
    + apply elem_of_cons in Hin as [Hin|Hin]; [done|].
      destruct (Hhere Hin) as [-> Hct]. exists a, vs, caller.
      split; [apply elem_of_cons; by left | done].
  - rewrite (run_loop_not_command self _ _ _ _ _ Ha) in Hin. cbn [fst] in Hin.
    by apply list_elem_of_singleton in Hin.
Qed.

(** X14: in a run of a dispatcher whose callers were registered with
    [appendCommand], every call of a handler is the call of the caller
    registered under the first token of a segment that the run invoked,
    and the [CommandArgs] it receives is the one built from exactly that
    segment with the caller's config: its [command()] is the segment's
    first token and its table is what [parse] returned on the segment.  So
    a handler is never called on a segment that failed to parse, and it is
    called once per invocation. *)
Theorem run_handler_arguments (fuel : nat) (self : Commander.t)
    (c : string) (cargs : CommandArgs.t) :
  registry_ok self ->
  Call c cargs ∈ (Commander.run fuel self).1 ->
  exists vs caller,
    Invoke c (c :: vs) ∈ (Commander.run fuel self).1
    /\ Commander.m_commands self !! c = Some caller
    /\ CommandArgs.m_config cargs = CommandCaller.config caller
    /\ command cargs = c
    /\ parse (CommandCaller.config caller) fuel (c :: vs) = Ret (CommandArgs.m_argTable cargs)
    /\ (CommandCaller.invoke fuel caller (c :: vs)).1 = [Call c cargs].
Proof.
  intros Hok Hin. unfold Commander.run in *.
  pose proof (run_loop_call self fuel fuel (Commander.m_args self) EmptyString c cargs)
    as Hcall.
  destruct (Commander.run_loop fuel fuel self (Commander.m_args self) EmptyString)
    as [tr [command r]]. cbn [fst snd] in *.
  assert (Hin' : Call c cargs ∈ tr).
  { destruct r as [[]|ex|]; cbn [fst] in Hin; [done| |done].
    destruct (is_std_exception ex); cbn [fst] in Hin; [|done].
    apply elem_of_app in Hin as [Hin|Hin]; [done|].
    cbn in Hin. by apply list_elem_of_singleton in Hin. }
  destruct (Hcall Hin') as (command' & vs & caller & Hinv & Hc & Hname & Hctor & Htr).
  rewrite (Hok _ _ Hc) in Hname. subst command'.
  exists vs, caller. split.
  { destruct r as [[]|ex|]; cbn [fst]; [done| |done].
    destruct (is_std_exception ex); cbn [fst]; [|done]. apply elem_of_app. by left. }
  split; [done|].
  unfold CommandArgs_ctor in Hctor.
  destruct (parse (CommandCaller.config caller) fuel (c :: vs)) as [tbl|ex|] eqn:Hp;
    cbn [mbind outcome_bind obind mret outcome_ret] in Hctor; [|done|done].
  injection Hctor as <-. cbn [CommandArgs.m_config CommandArgs.m_argTable].
  split; [done|]. split; [by apply Hok|]. by split.
Qed.

Lemma run_handler_arguments_witness :
  exists vs caller,
    Invoke "cmd2" ("cmd2" :: vs) ∈ (Commander.run 5 commander_ab).1
    /\ Commander.m_commands commander_ab !! "cmd2" = Some caller
    /\ CommandArgs.m_config (CommandArgs.mk (<["unknown" := "b"]> ∅) (CommandConfig.ctor "cmd2"))
       = CommandCaller.config caller
    /\ command (CommandArgs.mk (<["unknown" := "b"]> ∅) (CommandConfig.ctor "cmd2")) = "cmd2"
    /\ parse (CommandCaller.config caller) 5 ("cmd2" :: vs)
       = Ret (CommandArgs.m_argTable
                (CommandArgs.mk (<["unknown" := "b"]> ∅) (CommandConfig.ctor "cmd2")))
    /\ (CommandCaller.invoke 5 caller ("cmd2" :: vs)).1
       = [Call "cmd2" (CommandArgs.mk (<["unknown" := "b"]> ∅) (CommandConfig.ctor "cmd2"))].
Proof.
  apply (run_handler_arguments 5 commander_ab).
  - unfold commander_ab, commander_plain. intros k caller.
    cbn [Commander.init Commander.m_commands].
    apply (registry_ok_appendCommand _ _
             (registry_ok_appendCommand _ _ (registry_ok_ctor []))).
  - vm_compute. repeat (apply elem_of_cons; first [by left | right]).
Defined.

(** * Further properties of the other revisions *)

(** ** The earlier revision: [CommandArgs::parse] *)

Lemma revD_consume_length cfg argSize args :
  forall count val args2 count2 val2,
    RevD.consume cfg argSize args count val = Ret (args2, count2, val2) ->
    length args2 <= length args
    /\ (forall a rest, args = a :: rest -> isProperty cfg a = false ->
                       length args2 < length args).
Proof.
  induction args as [|a rest IH]; intros count val args2 count2 val2 Hc;
    cbn [RevD.consume] in Hc.
  { injection Hc as <- _ _. split; [done|]. by intros. }
  destruct (isProperty cfg a) eqn:Ha.
  { injection Hc as <- _ _. split; [done|]. intros ? ? [= <- _]. by rewrite Ha. }
  destruct (count <? argSize)%N; [|done].
  destruct (IH _ _ _ _ _ Hc) as [Hle _]. simpl. split; [lia|]. intros. lia.
Qed.

Lemma revD_consume_returns cfg argSize args :
  forall count val, RevD.consume cfg argSize args count val <> OutOfFuel.
Proof.
  induction args as [|a rest IH]; intros count val; cbn [RevD.consume]; [done|].
  destruct (isProperty cfg a); [done|]. by destruct (count <? argSize)%N.
Qed.

Lemma revD_parse_loop_total cfg fuel :
  forall args command_count tbl,
    length args <= fuel ->
    (forall k, is_Some (tbl !! k) -> CommandConfig.has cfg k = true) ->
    RevD.parse_loop cfg fuel args command_count tbl <> OutOfFuel
    /\ (forall tbl' k,
          RevD.parse_loop cfg fuel args command_count tbl = Ret tbl' ->
          is_Some (tbl' !! k) -> CommandConfig.has cfg k = true).
Proof.
  induction fuel as [|fuel IH]; intros args command_count tbl Hlen Htbl.
  { destruct args; [|simpl in Hlen; lia]. simpl. split; [done|].
    intros tbl' k [= <-]. apply Htbl. }
  destruct args as [|a rest].
  { simpl. split; [done|]. intros tbl' k [= <-]. apply Htbl. }
  cbn [RevD.parse_loop]. simpl in Hlen.
  destruct (isProperty cfg a) eqn:Ha.
  - unfold isProperty in Ha. unfold CommandConfig.option.
    pose proof Ha as Ha'. unfold CommandConfig.has in Ha'.
    destruct (CommandConfig.m_options cfg !! a) as [opt|]; [|done].
    cbn [mbind outcome_bind obind].
    destruct (RevD.consume cfg (Option.argSize opt) rest 0 EmptyString)
      as [[[args2 count] val]|ex|] eqn:Hc; cbn [mbind outcome_bind obind];
      [|by split|by destruct (revD_consume_returns _ _ _ _ _ Hc)].
    destruct (_ && _); [by split|].
    destruct (revD_consume_length _ _ _ _ _ _ _ _ Hc) as [Hle _].
    apply IH; [lia|]. intros k [v Hk].
    destruct (decide (k = a)) as [->|Hne]; [done|].
    rewrite lookup_insert_ne in Hk by done. by apply Htbl.
  - unfold CommandConfig.option.
    destruct (CommandConfig.m_options cfg !! CommandConfig.name cfg) as [opt|] eqn:Hn;
      cbn [mbind outcome_bind obind]; [|by split].
    destruct (RevD.consume cfg (Option.argSize opt) (a :: rest) command_count EmptyString)
      as [[[args2 count] val]|ex|] eqn:Hc; cbn [mbind outcome_bind obind];
      [|by split|by destruct (revD_consume_returns _ _ _ _ _ Hc)].
    destruct (_ && _); [by split|].
    destruct (revD_consume_length _ _ _ _ _ _ _ _ Hc) as [_ Hlt].
    specialize (Hlt a rest eq_refl Ha). simpl in Hlt.
    apply IH; [lia|]. intros k [v Hk].
    destruct (decide (k = CommandConfig.name cfg)) as [->|Hne].
    + unfold CommandConfig.has. by rewrite Hn.
    + rewrite lookup_insert_ne in Hk by done. by apply Htbl.
Qed.

(** X15: in the earlier revision [parse] always comes to an end, every key
    of the table it returns is an option the config declares, and a
    segment that starts with a token that is no option is refused with
    "key ... not found" unless the config declares an option named after
    the command itself: there is no "unknown" entry in that revision. *)
Theorem revD_parse_declared_keys (cfg : CommandConfig.t) (fuel : nat)
    (args : list string) :
  length args <= fuel ->
  RevD.parse cfg fuel args <> OutOfFuel
  /\ (forall tbl k,
        RevD.parse cfg fuel args = Ret tbl ->
        is_Some (tbl !! k) -> CommandConfig.has cfg k = true)
  /\ (forall a rest,
        args = a :: rest ->
        CommandConfig.has cfg a = false ->
        CommandConfig.has cfg (CommandConfig.name cfg) = false ->
        RevD.parse cfg fuel args = Throw (key_not_found (CommandConfig.name cfg))).
Proof.
  intros Hlen. unfold RevD.parse.
  destruct (revD_parse_loop_total cfg fuel args 0%N ∅ Hlen) as [Hfuel Hkeys].
  { intros k [v Hk]. by rewrite lookup_empty in Hk. }
  split; [done|]. split; [done|].
  intros a rest -> Ha Hn. destruct fuel as [|fuel]; [simpl in Hlen; lia|].
  cbn [RevD.parse_loop]. unfold isProperty. rewrite Ha.
  unfold CommandConfig.has in Hn. unfold CommandConfig.option.
  by destruct (CommandConfig.m_options cfg !! CommandConfig.name cfg).
Qed.

Lemma revD_parse_declared_keys_witness :
  RevD.parse cfg_opt1 2 ["v"; "--opt"] = Throw (key_not_found "cmd").
Proof.
  apply (proj2 (proj2 (revD_parse_declared_keys cfg_opt1 2 ["v"; "--opt"] ltac:(simpl; lia)))
           "v" ["--opt"]); reflexivity.
Defined.

(** ** The later revision: [CommandParser::parseCommand] *)

Lemma revB_consume_drop conf argSize args :
  forall count val,
    exists m,
      (RevB.consume conf argSize args count val).1.1 = drop m args
      /\ (forall a rest, args = a :: rest -> RevB.conf_has conf a = false ->
                         (count < argSize)%N -> 0 < m)
      /\ (count <= (RevB.consume conf argSize args count val).1.2)%N.
Proof.
  induction args as [|a rest IH]; intros count val; cbn [RevB.consume].
  { exists 0. cbn. split; [done|]. split; [by intros|lia]. }
  destruct (RevB.conf_has conf a) eqn:Ha.
  { exists 0. cbn. split; [done|]. split; [|lia]. intros ? ? [= <- _]. by rewrite Ha. }
  destruct (N.ltb_spec count argSize) as [Hlt|Hge].
  - destruct (IH (count + 1)%N (val +:+ (a +:+ " "))) as (m & Hm & _ & Hle).
    exists (S m). split; [done|]. split; [intros; lia | lia].
  - exists 0. cbn. split; [done|]. split; [|lia]. intros ? ? _ _ ?. lia.
Qed.

Lemma revB_parseCommand_loop_returns conf command fuel :
  forall args comargs,
    length args <= fuel ->
    RevB.parseCommand_loop conf command fuel args comargs <> OutOfFuel
    /\ (forall comargs',
          RevB.parseCommand_loop conf command fuel args comargs = Ret comargs' ->
          RevB.m_command comargs' = RevB.m_command comargs)
    /\ (forall ex,
          RevB.parseCommand_loop conf command fuel args comargs = Throw ex ->
          exists cfg key opt,
            conf = Some cfg
            /\ key ∈ args
            /\ CommandConfig.m_options cfg !! key = Some opt
            /\ ex = arity_error (Option.name opt)
            /\ Option.variadicSize opt = false
            /\ (0 < Option.argSize opt)%N).
Proof.
  induction fuel as [|fuel IH]; intros args comargs Hlen.
  { destruct args; [|simpl in Hlen; lia]. simpl. split; [done|]. split; [|done].
    by intros ? [= <-]. }
  destruct args as [|a rest].
  { simpl. split; [done|]. split; [|done]. by intros ? [= <-]. }
  cbn [RevB.parseCommand_loop]. simpl in Hlen.
  destruct (bool_decide (a = command) && negb (RevB.conf_has conf command)) eqn:Hskip.
  { destruct (IH rest comargs ltac:(lia)) as (Hfuel & Hname & Hthrow).
    split; [done|]. split; [done|]. intros ex Hex.
    destruct (Hthrow ex Hex) as (cfg & key & opt & ? & Hin & ?).
    exists cfg, key, opt. split; [done|]. split; [|done].
    apply elem_of_cons. by right. }
  assert (Hdeclared :
    forall cfg opt,
      conf = Some cfg -> CommandConfig.m_options cfg !! a = Some opt ->
      let res := RevB.consume conf (Option.argSize opt) rest 0 EmptyString in
      let val := if negb (empty res.2) then pop_back res.2 else res.2 in
      let out :=
        if (res.1.2 <? Option.argSize opt)%N && negb (Option.variadicSize opt)
        then Throw (runtime_error ("not enough arguments " +:+ dquote
                                     +:+ Option.name opt +:+ dquote))
        else RevB.parseCommand_loop conf command fuel res.1.1
               (RevB.insert comargs (Option.name opt) val) in
      out <> OutOfFuel
      /\ (forall comargs', out = Ret comargs' ->
            RevB.m_command comargs' = RevB.m_command comargs)
      /\ (forall ex, out = Throw ex ->
            exists cfg key opt,
              conf = Some cfg /\ key ∈ a :: rest
              /\ CommandConfig.m_options cfg !! key = Some opt
              /\ ex = arity_error (Option.name opt)
              /\ Option.variadicSize opt = false
              /\ (0 < Option.argSize opt)%N)).
  { intros cfg opt Hconf Hopt res val out. subst out val.
    destruct (revB_consume_drop conf (Option.argSize opt) rest 0%N EmptyString)
      as (m & Hm & _ & _). fold res in Hm.
    destruct (N.ltb_spec res.1.2 (Option.argSize opt)) as [Hlt|Hge];
      cbn [andb]; [destruct (Option.variadicSize opt) eqn:Hvar; cbn [negb]|].
    2:{ split; [done|]. split; [done|]. intros ex [= <-].
        exists cfg, a, opt. split; [done|]. split; [apply elem_of_cons; by left|].
        split; [done|]. split; [done|]. split; [done|].
        eapply N.le_lt_trans; [apply N.le_0_l | exact Hlt]. }
    all: rewrite Hm;
      destruct (IH (drop m rest)
                  (RevB.insert comargs (Option.name opt)
                     (if negb (empty res.2) then pop_back res.2 else res.2)))
        as (Hfuel & Hname & Hthrow); [rewrite length_drop; lia|];
      (split; [done|]); (split; [done|]); intros ex Hex;
      destruct (Hthrow ex Hex) as (cfg' & key & opt' & ? & Hin & ?);
      exists cfg', key, opt'; (split; [done|]); (split; [|done]);
      apply elem_of_cons; right; revert Hin; apply subseteq_drop. }
  assert (Hloose :
    RevB.conf_has conf a = false ->
    let res := RevB.consume conf (Option.argSize unk_opt) (a :: rest) 0 EmptyString in
    let val := if negb (empty res.2) then pop_back res.2 else res.2 in
    let out :=
      if (res.1.2 <? Option.argSize unk_opt)%N && negb (Option.variadicSize unk_opt)
      then Throw (runtime_error ("not enough arguments " +:+ dquote
                                   +:+ Option.name unk_opt +:+ dquote))
      else RevB.parseCommand_loop conf command fuel res.1.1
             (RevB.insert comargs (Option.name unk_opt) val) in
    out <> OutOfFuel
    /\ (forall comargs', out = Ret comargs' ->
          RevB.m_command comargs' = RevB.m_command comargs)
    /\ (forall ex, out = Throw ex ->
          exists cfg key opt,
            conf = Some cfg /\ key ∈ a :: rest
            /\ CommandConfig.m_options cfg !! key = Some opt
            /\ ex = arity_error (Option.name opt)
            /\ Option.variadicSize opt = false
            /\ (0 < Option.argSize opt)%N)).
  { intros Ha res val out. subst out val.
    destruct (revB_consume_drop conf (Option.argSize unk_opt) (a :: rest) 0%N EmptyString)
      as (m & Hm & Hpos & _). fold res in Hm.
    specialize (Hpos a rest eq_refl Ha ltac:(done)).
    change (Option.variadicSize unk_opt) with true. rewrite andb_false_r.
    rewrite Hm.
    destruct (IH (drop m (a :: rest))
                (RevB.insert comargs (Option.name unk_opt)
                   (if negb (empty res.2) then pop_back res.2 else res.2)))
      as (Hfuel & Hname & Hthrow); [rewrite length_drop; simpl; lia|].
    split; [done|]. split; [done|]. intros ex Hex.
    destruct (Hthrow ex Hex) as (cfg' & key & opt' & ? & Hin & ?).
    exists cfg', key, opt'. split; [done|]. split; [|done].
    revert Hin. apply subseteq_drop. }
  destruct conf as [cfg|].
  - destruct (CommandConfig.has cfg a) eqn:Ha.
    + unfold CommandConfig.option. unfold CommandConfig.has in Ha.
      destruct (CommandConfig.m_options cfg !! a) as [opt|] eqn:Hopt; [|done].
      cbn [mbind outcome_bind obind mret outcome_ret].
      specialize (Hdeclared cfg opt eq_refl Hopt). cbn zeta in Hdeclared.
      by destruct (RevB.consume (Some cfg) (Option.argSize opt) rest 0 EmptyString)
        as [[args2 count] val].
    + cbn [mbind outcome_bind obind mret outcome_ret].
      specialize (Hloose Ha). cbn zeta in Hloose.
      by destruct (RevB.consume (Some cfg) (Option.argSize unk_opt) (a :: rest) 0 EmptyString)
        as [[args2 count] val].
  - cbn [mbind outcome_bind obind mret outcome_ret].
    specialize (Hloose eq_refl). cbn zeta in Hloose.
    by destruct (RevB.consume None (Option.argSize unk_opt) (a :: rest) 0 EmptyString)
      as [[args2 count] val].
Qed.

(** X16: in the later revision [parseCommand] always comes to an end,
    whatever the config declares (the sentinel is local there, so an
    option named "unknown" cannot stall the loop).  What it returns
    carries the command name it was called with, and the only error it
    raises is "not enough arguments" for an option that the config
    declares, that occurs in the segment and that is not variadic; a
    segment of a name without config never fails. *)
Theorem revB_parseCommand_returns (self : RevB.CommandParser) (command : string)
    (args : list string) (fuel : nat) :
  length args <= fuel ->
  RevB.parseCommand fuel self command args <> OutOfFuel
  /\ (forall comargs,
        RevB.parseCommand fuel self command args = Ret comargs ->
        RevB.m_command comargs = command)
  /\ (forall ex,
        RevB.parseCommand fuel self command args = Throw ex ->
        exists cfg key opt,
          RevB.config self command = Some cfg
          /\ key ∈ args
          /\ CommandConfig.m_options cfg !! key = Some opt
          /\ ex = arity_error (Option.name opt)
          /\ Option.variadicSize opt = false
          /\ (0 < Option.argSize opt)%N)
  /\ (RevB.config self command = None ->
      exists comargs, RevB.parseCommand fuel self command args = Ret comargs).
Proof.
  intros Hlen. unfold RevB.parseCommand.
  destruct (revB_parseCommand_loop_returns (RevB.config self command) command fuel args
              (RevB.mkCommandArgs command ∅) Hlen) as (Hfuel & Hname & Hthrow).
  split; [done|]. split; [done|]. split; [done|].
  intros Hnone.
  destruct (RevB.parseCommand_loop _ command fuel args _) as [comargs|ex|]; [eauto| |done].
  destruct (Hthrow ex eq_refl) as (cfg & _ & _ & Hconf & _). congruence.
Qed.

Lemma revB_parseCommand_returns_witness :
  RevB.parseCommand 3 (RevB.m_parser revB_commander_cmd1) "unknown" ["unknown"; "a"; "b"]
  <> OutOfFuel.
Proof.
  apply (revB_parseCommand_returns (RevB.m_parser revB_commander_cmd1) "unknown"
           ["unknown"; "a"; "b"] 3).
  simpl. lia.
Defined.

(** ** The later revision: [CommandParser::parse] *)

Lemma revB_collect_spec self rest args :
  exists vs,
    (RevB.collect self rest args).1 = args ++ vs
    /\ rest = vs ++ (RevB.collect self rest args).2
    /\ List.filter (RevB.hasConfig self) vs = []
    /\ (forall b rest'', (RevB.collect self rest args).2 = b :: rest'' ->
                        RevB.hasConfig self b = true).
Proof.
  revert args. induction rest as [|b rest IH]; intros args; cbn [RevB.collect].
  { exists []. by rewrite app_nil_r. }
  destruct (RevB.hasConfig self b) eqn:Hb.
  { exists []. rewrite app_nil_r. cbn [fst snd].
    split; [done|]. split; [done|]. split; [done|]. by intros ? ? [= <- _]. }
  destruct (IH (args ++ [b])) as (vs & Hargs & Hrest & Hvs & Hnext).
  exists (b :: vs). rewrite Hargs, <- app_assoc. split; [done|].
  split; [by rewrite Hrest at 1|]. split; [|done].
  cbn [List.filter]. by rewrite Hb.
Qed.

Lemma revB_command_names_next self rest' :
  (forall b rest'', rest' = b :: rest'' -> RevB.hasConfig self b = true) ->
  revB_command_names self rest' = List.filter (RevB.hasConfig self) rest'.
Proof.
  destruct rest' as [|b rest'']; [done|]. intros Hb.
  unfold revB_command_names. by rewrite (Hb b rest'' eq_refl).
Qed.

Lemma revB_parseCommand_loop_command conf command fuel :
  forall args comargs comargs',
    RevB.parseCommand_loop conf command fuel args comargs = Ret comargs' ->
    RevB.m_command comargs' = RevB.m_command comargs.
Proof.
  induction fuel as [|fuel IH]; intros args comargs comargs' Hret.
  { destruct args; [|done]. by injection Hret as <-. }
  destruct args as [|a rest]. { by injection Hret as <-. }
  cbn [RevB.parseCommand_loop] in Hret.
  destruct (bool_decide (a = command) && negb (RevB.conf_has conf command)).
  { by apply (IH _ _ _ Hret). }
  destruct (match conf with
            | Some c =>
                if CommandConfig.has c a
                then o ← CommandConfig.option c a; Ret (o, rest)
                else Ret (unk_opt, a :: rest)
            | None => Ret (unk_opt, a :: rest)
            end) as [[option args1]|ex|]; cbn [mbind outcome_bind obind] in Hret;
    [|done|done].
  destruct (RevB.consume conf (Option.argSize option) args1 0 EmptyString)
    as [[args2 count] val].
  destruct (_ && _); [done|]. by rewrite (IH _ _ _ Hret).
Qed.

Lemma revB_parse_loop_names self pfuel fuel :
  forall args_i acc,
    (length args_i <= fuel -> length args_i < pfuel ->
     RevB.parse_loop pfuel fuel self args_i acc <> OutOfFuel)
    /\ (forall cmds,
          RevB.parse_loop pfuel fuel self args_i acc = Ret cmds ->
          exists news,
            cmds = acc ++ news
            /\ map RevB.m_command news = revB_command_names self args_i).
Proof.
  induction fuel as [|fuel IH]; intros args_i acc.
  { destruct args_i; simpl.
    - split; [done|]. intros cmds [= <-]. exists []. by rewrite app_nil_r.
    - split; [lia | done]. }
  destruct args_i as [|a rest].
  { simpl. split; [done|]. intros cmds [= <-]. exists []. by rewrite app_nil_r. }
  cbn [RevB.parse_loop].
  set (command := if RevB.hasConfig self a then a else "unknown").
  set (rest0 := if RevB.hasConfig self a then rest else a :: rest).
  replace (if RevB.hasConfig self a then (a, rest) else ("unknown", a :: rest))
    with (command, rest0) by (subst command rest0; by destruct (RevB.hasConfig self a)).
  destruct (revB_collect_spec self rest0 [command]) as (vs & Hseg & Hrest & Hvs & Hnext).
  destruct (RevB.collect self rest0 [command]) as [seg rest'] eqn:Hcol.
  cbn [fst snd] in *. subst seg.
  assert (Hshort : length rest' <= length rest).
  { subst rest0. destruct (RevB.hasConfig self a) eqn:Ha.
    - rewrite Hrest, length_app. lia.
    - destruct vs as [|v vs'].
      + cbn [app] in Hrest. subst rest'. by rewrite (Hnext a rest eq_refl) in Ha.
      + injection Hrest as _ ->. rewrite length_app. lia. }
  assert (Hlenseg : length ([command] ++ vs) <= S (length (a :: rest))).
  { assert (length vs <= length rest0) by (rewrite Hrest, length_app; lia).
    subst rest0. cbn [app length]. destruct (RevB.hasConfig self a); simpl in *; lia. }
  assert (Hnames : revB_command_names self (a :: rest)
                   = command :: List.filter (RevB.hasConfig self) rest').
  { unfold revB_command_names. subst command rest0.
    destruct (RevB.hasConfig self a) eqn:Ha.
    - cbn [app List.filter]. rewrite Ha, Hrest, List.filter_app, Hvs. done.
    - cbn [app]. by rewrite Hrest, List.filter_app, Hvs. }
  pose proof (revB_parseCommand_loop_returns (RevB.config self command) command pfuel
                ([command] ++ vs) (RevB.mkCommandArgs command ∅)) as Hpc.
  pose proof (revB_parseCommand_loop_command (RevB.config self command) command pfuel
                ([command] ++ vs) (RevB.mkCommandArgs command ∅)) as Hpn.
  fold (RevB.parseCommand pfuel self command ([command] ++ vs)) in Hpc, Hpn.
  destruct (RevB.parseCommand pfuel self command ([command] ++ vs))
    as [comargs|ex|] eqn:Hparse; cbn [mbind outcome_bind obind]; [|by split|].
  - destruct (IH rest' (acc ++ [comargs])) as [Hfuel Hret]. split.
    + intros Hlen Hp. simpl in Hlen, Hp. apply Hfuel; lia.
    + intros cmds Hcmds. destruct (Hret cmds Hcmds) as (news & -> & Hmap).
      exists (comargs :: news). rewrite <- app_assoc. split; [done|].
      cbn [map]. rewrite Hmap, Hnames, (revB_command_names_next _ _ Hnext).
      f_equal. by apply Hpn.
  - split; [|done]. intros Hlen Hp. simpl in Hp.
    destruct Hpc as [Hfuel _]; [simpl in *; lia | done].
Qed.

(** X17: in the later revision [CommandParser::parse(args)] never empties
    [m_commands]: it appends to what earlier calls left there, one entry
    per token of [args] that has a config, in order, after an entry named
    "unknown" when the first token has none; the configs are untouched.
    So parsing the same tokens twice leaves every command twice.  With one
    more unit of fuel than tokens the parse comes to an end. *)
Theorem revB_parse_appends (fuel : nat) (self : RevB.CommandParser)
    (args : list string) :
  (length args < fuel -> RevB.parse fuel self args <> OutOfFuel)
  /\ (forall parser,
        RevB.parse fuel self args = Ret parser ->
        RevB.p_args parser = args
        /\ RevB.p_configs parser = RevB.p_configs self
        /\ exists news,
             RevB.p_commands parser = RevB.p_commands self ++ news
             /\ map RevB.m_command news = revB_command_names self args
             /\ forall parser2,
                  RevB.parse fuel parser args = Ret parser2 ->
                  map RevB.m_command (RevB.p_commands parser2)
                  = map RevB.m_command (RevB.p_commands self)
                      ++ revB_command_names self args ++ revB_command_names self args).
Proof.
  unfold RevB.parse.
  destruct (revB_parse_loop_names self fuel fuel args (RevB.p_commands self))
    as [Hfuel Hret].
  split.
  { intros Hlen.
    destruct (RevB.parse_loop fuel fuel self args (RevB.p_commands self)) eqn:Hp;
      cbn [mbind outcome_bind obind mret outcome_ret]; [done|done|].
    destruct Hfuel; [lia|lia|done]. }
  intros parser Hparse.
  destruct (RevB.parse_loop fuel fuel self args (RevB.p_commands self)) as [cmds|ex|];
    cbn [mbind outcome_bind obind mret outcome_ret] in Hparse; [|done|done].
  injection Hparse as <-. cbn [RevB.p_args RevB.p_configs RevB.p_commands].
  split; [done|]. split; [done|].
  destruct (Hret cmds eq_refl) as (news & -> & Hmap).
  exists news. split; [done|]. split; [done|].
  intros parser2 Hparse2.
  set (parser1 := RevB.mkCommandParser args (RevB.p_commands self ++ news)
                    (RevB.p_configs self)) in *.
  destruct (revB_parse_loop_names parser1 fuel fuel args (RevB.p_commands self ++ news))
    as [_ Hret2].
  destruct (RevB.parse_loop fuel fuel parser1 args (RevB.p_commands self ++ news))
    as [cmds2|ex|]; cbn [mbind outcome_bind obind mret outcome_ret] in Hparse2;
    [|done|done].
  injection Hparse2 as <-. cbn [RevB.p_commands].
  destruct (Hret2 cmds2 eq_refl) as (news2 & -> & Hmap2).
  rewrite !map_app, Hmap, Hmap2, <- app_assoc. reflexivity.
Qed.

Lemma revB_parse_appends_witness :
  RevB.parse 4 (RevB.m_parser revB_commander_cmd1) ["a"; "cmd1"; "b"] <> OutOfFuel.
Proof.
  apply (proj1 (revB_parse_appends 4 (RevB.m_parser revB_commander_cmd1)
                  ["a"; "cmd1"; "b"])).
  simpl. lia.
Defined.

(** ** The later revision: [Commander::run] *)

Lemma revB_handled_app tr1 tr2 :
  revB_handled (tr1 ++ tr2) = revB_handled tr1 ++ revB_handled tr2.
Proof.
  induction tr1 as [|e tr1 IH]; [done|]. destruct e; simpl; by rewrite IH.
Qed.

Lemma revB_invokeCommand_trace self commandArgs :
  (RevB.invokeCommand self commandArgs).1 = []
  \/ (RevB.invokeCommand self commandArgs).1 = [RevB.Call commandArgs].
Proof.
  unfold RevB.invokeCommand, RevB.invoke.
  destruct (RevB.m_commands self !! RevB.m_command commandArgs) as [caller|]; [|by left].
  destruct (RevB.c_callback caller); [by right | by left].
Qed.

Lemma revB_invokeCommand_not_std self commandArgs ex :
  (RevB.invokeCommand self commandArgs).2 = Throw ex ->
  is_std_exception ex = false ->
  exists caller f,
    RevB.m_commands self !! RevB.m_command commandArgs = Some caller
    /\ RevB.c_callback caller = Some f
    /\ f commandArgs = Throw ex.
Proof.
  unfold RevB.invokeCommand, RevB.invoke.
  destruct (RevB.m_commands self !! RevB.m_command commandArgs) as [caller|];
    [|by intros [= <-]].
  destruct (RevB.c_callback caller) as [f|] eqn:Hf; [|by intros [= <-]].
  intros Hex _. by exists caller, f.
Qed.

Lemma revB_run_loop_statuses self commands :
  let res := RevB.run_loop self commands 0%Z in
  (forall ex,
     res.2 = Throw ex ->
     is_std_exception ex = false
     /\ exists ca caller f,
          ca ∈ commands
          /\ RevB.m_commands self !! RevB.m_command ca = Some caller
          /\ RevB.c_callback caller = Some f
          /\ f ca = Throw ex)
  /\ (res.2 = Ret tt ->
      length (revB_handled res.1) = length commands
      /\ forall ca,
           ca ∈ commands ->
           RevB.isCommand self (RevB.m_command ca) = false ->
           RevB.Handle (CommandStatus.mk (RevB.m_command ca) CommandStatus.ERROR
                          "not a command") ∈ res.1)
  /\ (forall ca,
        RevB.Call ca ∈ res.1 ->
        ca ∈ commands /\ RevB.isCommand self (RevB.m_command ca) = true).
Proof.
  induction commands as [|c commands IH]; cbn zeta.
  { cbn. split; [done|]. split.
    - intros _. split; [done|]. by intros ? ?%elem_of_nil.
    - by intros ? ?%elem_of_nil. }
  cbn zeta in IH. destruct IH as (Hno & Hret & Hcalls).
  assert (Hno' : forall out ex,
            (RevB.run_loop self commands 0).2 = out -> out = Throw ex ->
            is_std_exception ex = false
            /\ exists ca caller f,
                 ca ∈ c :: commands
                 /\ RevB.m_commands self !! RevB.m_command ca = Some caller
                 /\ RevB.c_callback caller = Some f
                 /\ f ca = Throw ex).
  { intros out ex <- Hex. destruct (Hno ex Hex) as (Hstd & ca & caller & f & Hin & Hrest).
    split; [done|]. exists ca, caller, f. split; [apply elem_of_cons; by right | done]. }
  cbn [RevB.run_loop]. change (negb (0 =? 0)%Z) with false. cbv iota.
  change (RevB.handle ?s).2 with 0%Z.
  destruct (RevB.isCommand self (RevB.m_command c)) eqn:Hc.
  - pose proof (revB_invokeCommand_trace self c) as Htr.
    pose proof (revB_invokeCommand_not_std self c) as Hns.
    destruct (RevB.invokeCommand self c) as [tr r]. cbn [fst snd] in Htr, Hns.
    assert (Hh : revB_handled tr = []) by (by destruct Htr as [-> | ->]).
    assert (Hcall : forall ca, RevB.Call ca ∈ tr -> ca = c).
    { intros ca Hin. destruct Htr as [-> | ->].
      - by apply elem_of_nil in Hin.
      - apply list_elem_of_singleton in Hin. by injection Hin. }
    assert (Hgo : forall stat,
      let res := (tr ++ (RevB.handle stat).1 ++ (RevB.run_loop self commands 0).1,
                  (RevB.run_loop self commands 0).2) in
      (forall ex,
         res.2 = Throw ex ->
         is_std_exception ex = false
         /\ exists ca caller f,
              ca ∈ c :: commands
              /\ RevB.m_commands self !! RevB.m_command ca = Some caller
              /\ RevB.c_callback caller = Some f
              /\ f ca = Throw ex)
      /\ (res.2 = Ret tt ->
          length (revB_handled res.1) = length (c :: commands)
          /\ forall ca,
               ca ∈ c :: commands ->
               RevB.isCommand self (RevB.m_command ca) = false ->
               RevB.Handle (CommandStatus.mk (RevB.m_command ca) CommandStatus.ERROR
                              "not a command") ∈ res.1)
      /\ (forall ca,
            RevB.Call ca ∈ res.1 ->
            ca ∈ c :: commands /\ RevB.isCommand self (RevB.m_command ca) = true)).
    { intros stat res. subst res. cbn [fst snd].
      split; [intros ex; by apply Hno'|]. split.
      * intros Hout. destruct (Hret Hout) as [Hlen Hnot].
        rewrite !revB_handled_app, Hh. cbn. split; [by rewrite Hlen|].
        intros ca [->|Hin]%elem_of_cons Hca; [congruence|].
        apply elem_of_app. right. apply elem_of_cons. right. by apply Hnot.
      * intros ca [Hin|Hin]%elem_of_app.
        { rewrite (Hcall _ Hin). split; [apply elem_of_cons; by left | done]. }
        apply elem_of_cons in Hin as [Hin|Hin]; [done|].
        destruct (Hcalls _ Hin). split; [apply elem_of_cons; by right | done]. }
    destruct r as [stat|ex|].
    + specialize (Hgo stat). cbn zeta in Hgo.
      by destruct (RevB.run_loop self commands 0) as [tr' out].
    + destruct (is_std_exception ex) eqn:Hstd.
      * specialize (Hgo (CommandStatus.mk (RevB.m_command c) CommandStatus.ERROR (what ex))).
        cbn zeta in Hgo. by destruct (RevB.run_loop self commands 0) as [tr' out].
      * cbn [fst snd]. split; [|split; [done|]].
        { intros ex' [= <-]. split; [done|].
          destruct (Hns ex eq_refl Hstd) as (caller & f & ? & ? & ?).
          exists c, caller, f. split; [apply elem_of_cons; by left | done]. }
        intros ca Hin. rewrite (Hcall _ Hin).
        split; [apply elem_of_cons; by left | done].
    + cbn [fst snd]. split; [done|]. split; [done|].
      intros ca Hin. rewrite (Hcall _ Hin). split; [apply elem_of_cons; by left | done].
  - destruct (RevB.run_loop self commands 0) as [tr' out]. cbn [fst snd] in *.
    split; [intros ex; by apply Hno'|]. split.
    + intros Hout. destruct (Hret Hout) as [Hlen Hnot]. cbn.
      split; [by rewrite Hlen|].
      intros ca [->|Hin]%elem_of_cons Hca; [apply elem_of_cons; by left|].
      apply elem_of_cons. right. by apply Hnot.
    + intros ca [Hin|Hin]%elem_of_cons; [done|].
      destruct (Hcalls _ Hin). split; [apply elem_of_cons; by right | done].
Qed.

(** X18: in the later revision, once the tokens are parsed, [run] lets no
    exception derived from [std::exception] out: the only thing that can
    leave it is an object of another type thrown by the callable of a
    registered command on an entry of [m_commands].  When [run] returns,
    it has called [m_handler.handle] exactly once for every entry of the
    parser's [m_commands], those of earlier runs included: the
    [StatusHandler] held by value always answers 0, so the loop never
    stops early.  An entry whose name is not registered is reported as
    "not a command" and the loop goes on; a callable is only ever called
    with an entry of [m_commands] whose name is registered. *)
Theorem revB_run_one_status_each (fuel : nat) (self : RevB.Commander)
    (parser : RevB.CommandParser) :
  RevB.parse fuel (RevB.m_parser self) (RevB.m_args self) = Ret parser ->
  (forall ex,
     (RevB.run fuel self).2 = Throw ex ->
     is_std_exception ex = false
     /\ exists ca caller f,
          ca ∈ RevB.p_commands parser
          /\ RevB.m_commands self !! RevB.m_command ca = Some caller
          /\ RevB.c_callback caller = Some f
          /\ f ca = Throw ex)
  /\ ((RevB.run fuel self).2 = Ret tt ->
      length (revB_handled (RevB.run fuel self).1) = length (RevB.p_commands parser)
      /\ forall ca,
           ca ∈ RevB.p_commands parser ->
           RevB.isCommand self (RevB.m_command ca) = false ->
           RevB.Handle (CommandStatus.mk (RevB.m_command ca) CommandStatus.ERROR
                          "not a command") ∈ (RevB.run fuel self).1)
  /\ (forall ca,
        RevB.Call ca ∈ (RevB.run fuel self).1 ->
        ca ∈ RevB.p_commands parser /\ RevB.isCommand self (RevB.m_command ca) = true).
Proof.
  intros Hparse. unfold RevB.run. rewrite Hparse.
  apply revB_run_loop_statuses.
Qed.

Lemma revB_run_one_status_each_witness :
  exists parser,
    RevB.parse 5 (RevB.m_parser revB_commander_cmd1) ["a"; "cmd1"; "v1"; "x"; "y"]
    = Ret parser
    /\ length (revB_handled
                 (RevB.run 5 (RevB.init revB_commander_cmd1
                                ["a"; "cmd1"; "v1"; "x"; "y"])).1)
       = length (RevB.p_commands parser).
Proof.
  eexists. split; [reflexivity|].
  apply (revB_run_one_status_each 5
           (RevB.init revB_commander_cmd1 ["a"; "cmd1"; "v1"; "x"; "y"]));
    reflexivity.
Defined.

(** ** The later revision: [hasCommand], the registry, the table *)

(** X19: in the later revision [CommandParser::hasCommand(name)] answers
    [true] exactly when NO parsed command has that name, that is exactly
    when [command(name)] throws "Out of range"; it answers [false] exactly
    when [command(name)] returns a command, the first of that name.  On a
    parser that has parsed nothing it is [true] for every name. *)
Theorem revB_hasCommand_inverted (self : RevB.CommandParser) (name : string) :
  (RevB.hasCommand self name = true
   <-> Forall (fun comm => RevB.m_command comm <> name) (RevB.p_commands self))
  /\ (RevB.hasCommand self name = true
      <-> RevB.command_named self name = Throw (runtime_error "Out of range"))
  /\ (RevB.hasCommand self name = false
      <-> exists comm,
            RevB.command_named self name = Ret comm
            /\ RevB.m_command comm = name
            /\ comm ∈ RevB.p_commands self)
  /\ (RevB.p_commands self = [] -> RevB.hasCommand self name = true).
Proof.
  unfold RevB.hasCommand, RevB.command_named, RevB.find_command.
  assert (Hfind :
    match List.find (fun comm => bool_decide (RevB.m_command comm = name))
            (RevB.p_commands self) with
    | Some comm => RevB.m_command comm = name /\ comm ∈ RevB.p_commands self
    | None => Forall (fun comm => RevB.m_command comm <> name) (RevB.p_commands self)
    end).
  { induction (RevB.p_commands self) as [|c l IH]; cbn [List.find]; [done|].
    destruct (bool_decide_reflect (RevB.m_command c = name)) as [Hc|Hc].
    - split; [done | apply elem_of_cons; by left].
    - destruct (List.find _ l) as [comm|].
      + destruct IH. split; [done | apply elem_of_cons; by right].
      + by constructor. }
  destruct (List.find _ (RevB.p_commands self)) as [comm|] eqn:Hf.
  - destruct Hfind as [Hname Hin]. split; [|split; [done|split]].
    + split; [done|]. intros Hall. rewrite Forall_forall in Hall.
      by destruct (Hall comm Hin).
    + split; [eauto | done].
    + intros Hnil. rewrite Hnil in Hin. by apply elem_of_nil in Hin.
  - split; [done|]. split; [done|]. split; [|done].
    split; [done|]. by intros (? & ? & _).
Qed.

Lemma revB_hasCommand_inverted_witness :
  RevB.hasCommand (RevB.mkCommandParser [] [] ∅) "cmd" = true.
Proof.
  apply (proj2 (proj2 (proj2 (revB_hasCommand_inverted
                                (RevB.mkCommandParser [] [] ∅) "cmd")))).
  reflexivity.
Defined.

Lemma revB_in_sync_appendCommand self caller :
  revB_in_sync self -> revB_in_sync (RevB.appendCommand self caller).
Proof.
  intros Hs k. specialize (Hs k). unfold RevB.isCommand, RevB.hasConfig in *.
  cbn [RevB.appendCommand RevB.m_commands RevB.m_parser RevB.p_configs].
  destruct (decide (k = CommandConfig.name (RevB.c_config caller))) as [->|Hne].
  - by rewrite !lookup_insert_eq.
  - by rewrite !lookup_insert_ne.
Qed.

(** X20: in the later revision the dispatcher's table and its parser's
    configs always hold the same names: this is so for a new dispatcher
    and [appendCommand], [removeCommand] and [init] keep it.
    [removeCommand] undoes a registration under that name, leaves the
    other names alone and does nothing for a name that is not
    registered. *)
Theorem revB_registry_in_sync (self : RevB.Commander) (caller : RevB.CommandCaller)
    (name k : string) (args : list string) :
  revB_in_sync RevB.ctor
  /\ (revB_in_sync self -> revB_in_sync (RevB.appendCommand self caller))
  /\ (revB_in_sync self -> revB_in_sync (RevB.removeCommand self name))
  /\ (revB_in_sync self -> revB_in_sync (RevB.init self args))
  /\ RevB.isCommand (RevB.appendCommand self caller)
       (CommandConfig.name (RevB.c_config caller)) = true
  /\ RevB.isCommand (RevB.removeCommand self name) name = false
  /\ (k <> name ->
      RevB.isCommand (RevB.removeCommand self name) k = RevB.isCommand self k)
  /\ (RevB.isCommand self name = false ->
      RevB.m_commands (RevB.removeCommand self name) = RevB.m_commands self)
  /\ (RevB.isCommand self (CommandConfig.name (RevB.c_config caller)) = false ->
      RevB.m_commands
        (RevB.removeCommand (RevB.appendCommand self caller)
           (CommandConfig.name (RevB.c_config caller)))
      = RevB.m_commands self).
Proof.
  split; [done|]. split; [apply revB_in_sync_appendCommand|].
  split; [|split; [done|]].
  { intros Hs k'. specialize (Hs k'). unfold RevB.isCommand, RevB.hasConfig in *.
    cbn [RevB.removeCommand RevB.removeConfig RevB.m_commands RevB.m_parser
         RevB.p_configs].
    destruct (decide (name = k')) as [->|Hne].
    - by rewrite !lookup_delete_eq.
    - by rewrite !lookup_delete_ne. }
  unfold RevB.isCommand.
  cbn [RevB.appendCommand RevB.removeCommand RevB.m_commands].
  split; [by rewrite lookup_insert_eq|].
  split; [by rewrite lookup_delete_eq|].
  split; [intros Hne; by rewrite lookup_delete_ne|].
  split.
  - intros Hno. apply delete_id.
    by destruct (RevB.m_commands self !! name).
  - intros Hno. rewrite delete_insert_eq. apply delete_id.
    by destruct (RevB.m_commands self !! _).
Qed.

Lemma revB_registry_in_sync_witness :
  revB_in_sync revB_commander_cmd1.
Proof.
  apply (proj1 (proj2 (revB_registry_in_sync RevB.ctor
           (RevB.mkCommandCaller cfg_cmd1
              (Some (fun _ => Ret (CommandStatus.mk "cmd1" CommandStatus.OK EmptyString))))
           EmptyString EmptyString []))).
  done.
Defined.

(** X21: in the later revision, when the dispatcher's table and its
    parser's configs hold the same names and nothing was parsed before,
    every entry that [parse] produces is named after a registered command
    or is named "unknown"; and there is an entry "unknown" only for the
    tokens before the first command name. *)
Theorem revB_segments_registered (fuel : nat) (self : RevB.Commander)
    (parser : RevB.CommandParser) :
  revB_in_sync self ->
  RevB.p_commands (RevB.m_parser self) = [] ->
  RevB.parse fuel (RevB.m_parser self) (RevB.m_args self) = Ret parser ->
  map RevB.m_command (RevB.p_commands parser)
  = revB_command_names (RevB.m_parser self) (RevB.m_args self)
  /\ (forall ca,
        ca ∈ RevB.p_commands parser ->
        RevB.isCommand self (RevB.m_command ca) = true
        \/ RevB.m_command ca = "unknown")
  /\ (forall a rest,
        RevB.m_args self = a :: rest ->
        RevB.isCommand self a = true ->
        Forall (fun ca => RevB.isCommand self (RevB.m_command ca) = true)
          (RevB.p_commands parser)).
Proof.
  intros Hs Hnil Hparse. unfold RevB.parse in Hparse.
  destruct (revB_parse_loop_names (RevB.m_parser self) fuel fuel (RevB.m_args self)
              (RevB.p_commands (RevB.m_parser self))) as [_ Hret].
  destruct (RevB.parse_loop fuel fuel _ _ _) as [cmds|ex|];
    cbn [mbind outcome_bind obind mret outcome_ret] in Hparse; [|done|done].
  injection Hparse as <-. cbn [RevB.p_commands].
  destruct (Hret cmds eq_refl) as (news & -> & Hmap). rewrite Hnil. cbn [app].
  split; [done|].
  assert (Hfilter : forall n,
            n ∈ List.filter (RevB.hasConfig (RevB.m_parser self)) (RevB.m_args self) ->
            RevB.isCommand self n = true).
  { intros n Hin. apply list_elem_of_In, List.filter_In in Hin as [_ Hn].
    by rewrite Hs. }
  split.
  - intros ca Hin.
    assert (Hn : RevB.m_command ca ∈ map RevB.m_command news).
    { apply list_elem_of_fmap. by exists ca. }
    rewrite Hmap in Hn. unfold revB_command_names in Hn.
    destruct (RevB.m_args self) as [|a rest]; [by apply elem_of_nil in Hn|].
    apply elem_of_app in Hn as [Hn|Hn]; [|left; by apply Hfilter].
    destruct (RevB.hasConfig _ a); [by apply elem_of_nil in Hn|].
    apply list_elem_of_singleton in Hn. by right.
  - intros a rest Hargs Ha. rewrite Forall_forall. intros ca Hin.
    assert (Hn : RevB.m_command ca ∈ map RevB.m_command news).
    { apply list_elem_of_fmap. by exists ca. }
    rewrite Hmap in Hn. unfold revB_command_names in Hn. rewrite Hargs in *.
    rewrite <- Hs, Ha in Hn. by apply Hfilter.
Qed.

Lemma revB_segments_registered_witness :
  exists parser,
    RevB.parse 5 (RevB.m_parser revB_commander_cmd1) ["a"; "cmd1"; "v1"; "x"; "y"]
    = Ret parser
    /\ map RevB.m_command (RevB.p_commands parser) = ["unknown"; "cmd1"].
Proof.
  eexists. split; [reflexivity|].
  apply (revB_segments_registered 5
           (RevB.init revB_commander_cmd1 ["a"; "cmd1"; "v1"; "x"; "y"])).
  - apply (revB_in_sync_appendCommand RevB.ctor). done.
  - reflexivity.
  - reflexivity.
Defined.

(** X22: the table of a [CommandArgs] of the later revision: what
    [insert] puts under a key is what [getString] and [has] find there,
    [remove] makes the key missing again, neither touches another key or
    the command name, and removing a key that was inserted into a table
    without it gives the table back. *)
Theorem revB_insert_remove (self : RevB.CommandArgs) (key val k defValue : string) :
  RevB.getString (RevB.insert self key val) key = Ret val
  /\ RevB.has (RevB.insert self key val) key = true
  /\ RevB.getString (RevB.remove self key) key = Throw (key_not_found key)
  /\ RevB.getString_def (RevB.remove self key) key defValue = defValue
  /\ RevB.has (RevB.remove self key) key = false
  /\ (k <> key ->
      RevB.getString (RevB.insert self key val) k = RevB.getString self k
      /\ RevB.getString (RevB.remove self key) k = RevB.getString self k)
  /\ RevB.m_command (RevB.insert self key val) = RevB.m_command self
  /\ RevB.m_command (RevB.remove self key) = RevB.m_command self
  /\ (RevB.has self key = false -> RevB.remove (RevB.insert self key val) key = self)
  /\ (RevB.has self key = false -> RevB.remove self key = self).
Proof.
  unfold RevB.getString, RevB.getString_def, RevB.has, RevB.insert, RevB.remove.
  cbn [RevB.m_argTable RevB.m_command].
  rewrite lookup_insert_eq, lookup_delete_eq.
  do 5 (split; [done|]).
  split. { intros Hne. by rewrite lookup_insert_ne, lookup_delete_ne. }
  split; [done|]. split; [done|].
  destruct self as [c tbl]. cbn [RevB.m_argTable RevB.m_command].
  split; intros Hno.
  - rewrite delete_insert_eq, delete_id; [done|]. by destruct (tbl !! key).
  - rewrite delete_id; [done|]. by destruct (tbl !! key).
Qed.

Lemma revB_insert_remove_witness :
  RevB.remove (RevB.insert (RevB.mkCommandArgs "cmd" ∅) "k" "v") "k"
  = RevB.mkCommandArgs "cmd" ∅.
Proof.
  apply (proj1 (proj2 (proj2 (proj2 (proj2 (proj2 (proj2 (proj2 (proj2
    (revB_insert_remove (RevB.mkCommandArgs "cmd" ∅) "k" "v" "k" EmptyString)))))))))).
  reflexivity.
Defined.

(** ** The later revision: [CommandCaller::invoke] on a token sequence *)

Lemma revB_collect_all self rest :
  forall args,
    Forall (fun t => RevB.hasConfig self t = false) rest ->
    RevB.collect self rest args = (args ++ rest, []).
Proof.
  induction rest as [|b rest IH]; intros args Hall; cbn [RevB.collect].
  { by rewrite app_nil_r. }
  apply Forall_cons in Hall as [Hb Hall]. rewrite Hb, IH by done.
  by rewrite <- app_assoc.
Qed.

Lemma revB_parse_loop_first self pfuel fuel a rest cmds :
  RevB.parse_loop pfuel fuel self (a :: rest) [] = Ret cmds ->
  exists comargs,
    cmds !! 0 = Some comargs
    /\ RevB.m_command comargs = (if RevB.hasConfig self a then a else "unknown").
Proof.
  intros Hp.
  destruct (revB_parse_loop_names self pfuel fuel (a :: rest) []) as [_ Hret].
  destruct (Hret cmds Hp) as (news & -> & Hmap). cbn [app].
  unfold revB_command_names in Hmap.
  destruct news as [|comargs news].
  { destruct (RevB.hasConfig self a) eqn:Ha; [|done].
    cbn [List.filter] in Hmap. by rewrite Ha in Hmap. }
  exists comargs. split; [done|].
  destruct (RevB.hasConfig self a) eqn:Ha.
  - cbn [List.filter app] in Hmap. rewrite Ha in Hmap. by injection Hmap.
  - by injection Hmap.
Qed.

(** X23: [CommandCaller::invoke(const ArgVec&)] of the later revision, for
    a caller built with a config.  On no token at all it calls nothing and
    throws "Out of range".  When the first token is not the name of the
    caller's config, the callable, if it is called, receives a command
    named "unknown".  When the first token is that name and the name does
    not occur again, the call is [parseCommand] on the whole sequence
    followed by the callable on its result. *)
Theorem revB_invoke_args (fuel : nat) (self : RevB.CommandCaller)
    (a : string) (rest : list string) :
  let cparser := RevB.appendConfig (RevB.mkCommandParser [] [] ∅) (RevB.c_config self) in
  RevB.invoke_args fuel self [] = ([], Throw (runtime_error "Out of range"))
  /\ (a <> CommandConfig.name (RevB.c_config self) ->
      forall ca,
        RevB.Call ca ∈ (RevB.invoke_args fuel self (a :: rest)).1 ->
        RevB.m_command ca = "unknown")
  /\ (a = CommandConfig.name (RevB.c_config self) ->
      a ∉ rest ->
      RevB.invoke_args (S fuel) self (a :: rest)
      = match RevB.parseCommand (S fuel) cparser a (a :: rest) with
        | Ret cargs => RevB.invoke self cargs
        | Throw ex => ([], Throw ex)
        | OutOfFuel => ([], OutOfFuel)
        end).
Proof.
  intros cparser.
  assert (Hcfg : forall t,
            RevB.hasConfig cparser t
            = bool_decide (t = CommandConfig.name (RevB.c_config self))).
  { intros t. unfold RevB.hasConfig. subst cparser.
    cbn [RevB.appendConfig RevB.p_configs].
    destruct (bool_decide_reflect (t = CommandConfig.name (RevB.c_config self)))
      as [->|Hne].
    - by rewrite lookup_insert_eq.
    - by rewrite lookup_insert_ne, lookup_empty. }
  split; [by destruct fuel|]. split.
  - intros Hne ca. unfold RevB.invoke_args. fold cparser. unfold RevB.parse.
    destruct (RevB.parse_loop fuel fuel cparser (a :: rest) (RevB.p_commands cparser))
      as [cmds|ex|] eqn:Hp; cbn [mbind outcome_bind obind mret outcome_ret];
      [|by intros ?%elem_of_nil..].
    destruct (revB_parse_loop_first cparser fuel fuel a rest cmds Hp)
      as (comargs & Hfirst & Hname).
    unfold RevB.command_at. cbn [RevB.p_commands]. rewrite Hfirst.
    rewrite Hcfg, bool_decide_eq_false_2 in Hname by done.
    unfold RevB.invoke. destruct (RevB.c_callback self); cbn [fst].
    + intros Hin%list_elem_of_singleton. by injection Hin as ->.
    + by intros ?%elem_of_nil.
  - intros Ha Hnot. unfold RevB.invoke_args. fold cparser. unfold RevB.parse.
    cbn [RevB.parse_loop].
    rewrite Hcfg, bool_decide_eq_true_2 by done.
    rewrite revB_collect_all.
    2:{ rewrite Forall_forall. intros t Ht. rewrite Hcfg.
        apply bool_decide_eq_false_2. intros ->. by rewrite <- Ha in Ht. }
    cbn [app].
    destruct (RevB.parseCommand (S fuel) cparser a (a :: rest)) as [cargs|ex|];
      cbn [mbind outcome_bind obind mret outcome_ret]; [|done|done].
    by destruct fuel.
Qed.

Lemma revB_invoke_args_witness :
  RevB.invoke_args 4
    (RevB.mkCommandCaller cfg_cmd1 (Some (ok_callback_B "cmd1")))
    ["cmd1"; "v1"; "x"; "y"]
  = ([RevB.Call (RevB.mkCommandArgs "cmd1" (<["v1" := "x y"]> ∅))],
     Ret (CommandStatus.mk "cmd1" CommandStatus.OK EmptyString)).
Proof.
  rewrite (proj2 (proj2 (revB_invoke_args 3
             (RevB.mkCommandCaller cfg_cmd1 (Some (ok_callback_B "cmd1")))
             "cmd1" ["v1"; "x"; "y"]))).
  - reflexivity.
  - reflexivity.
  - intros Hin.
    repeat (apply elem_of_cons in Hin as [Hin|Hin]; [discriminate Hin|]).
    by apply elem_of_nil in Hin.
Defined.

(** * What [getUInt] reads of a stored text *)

Lemma skip_space_append sp s : all_space sp = true -> skip_space (sp +:+ s) = skip_space s.
Proof.
  induction sp as [|c sp IH]; [done|]. simpl.
  intros [Hc Hsp]%andb_true_iff. rewrite Hc. by apply IH.
Qed.

Lemma digit_plain c d :
  digit c = Some d -> isspace c = false /\ c <> "-"%char /\ c <> "+"%char.
Proof.
  destruct c as [[] [] [] [] [] [] [] []]; vm_compute; intros H;
    first [discriminate H | by repeat split].
Qed.

Lemma read_digits_append d t :
  all_digits d = true -> starts_with_digit t = false ->
  forall acc, read_digits (d +:+ t) acc = read_digits d acc.
Proof.
  intros Hd Ht. induction d as [|c d IH]; intros acc.
  { simpl. by apply read_digits_None. }
  change (String c d +:+ t) with (String c (d +:+ t)). cbn [read_digits].
  cbn [all_digits] in Hd. destruct (digit c) as [k|]; [|done].
  by rewrite IH.
Qed.

Lemma stoul_first_numeral w sp d t :
  all_space sp = true -> valid_uint d = true -> starts_with_digit t = false ->
  stoul w (sp +:+ d +:+ t) = stoul w d.
Proof.
  intros Hsp [Hne Hd]%andb_true_iff Ht. unfold stoul.
  rewrite skip_space_append by done.
  destruct d as [|c d]; [done|].
  change (String c d +:+ t) with (String c (d +:+ t)).
  pose proof Hd as Hc. cbn [all_digits] in Hc.
  destruct (digit c) as [k|] eqn:Hk; [|done].
  destruct (digit_plain c k Hk) as (Hs & Hm & Hp).
  cbn [skip_space]. rewrite Hs.
  assert (Hsign : forall s : string,
            match String c s with
            | String "-"%char s' => (true, s')
            | String "+"%char s' => (false, s')
            | _ => (false, String c s)
            end = (false, String c s)).
  { intros s. clear -Hm Hp.
    destruct c as [[] [] [] [] [] [] [] []]; try reflexivity; by destruct Hm || by destruct Hp. }
  rewrite !Hsign.
  change (String c (d +:+ t)) with (String c d +:+ t).
  by rewrite read_digits_append.
Qed.

(** X24: [getUInt] reads the first numeral of the stored text and nothing
    else: white space before it is skipped and whatever follows its digits
    is ignored, be it a letter or the space and the further values of an
    option that took several.  The result, value or error, is the one for
    the numeral alone. *)
Theorem getUInt_first_numeral (cargs cargs' : CommandArgs.t) (ulong_bits : N)
    (name sp d t : string) (defValue : N) :
  all_space sp = true ->
  valid_uint d = true ->
  starts_with_digit t = false ->
  CommandArgs.m_argTable cargs !! name = Some (sp +:+ d +:+ t) ->
  CommandArgs.m_argTable cargs' !! name = Some d ->
  getUInt cargs ulong_bits name = getUInt cargs' ulong_bits name
  /\ getUInt_def cargs ulong_bits name defValue = getUInt cargs' ulong_bits name.
Proof.
  intros Hsp Hd Ht Hfull Hnum. unfold getUInt, getUInt_def.
  by rewrite Hfull, Hnum, stoul_first_numeral.
Qed.

Lemma getUInt_first_numeral_witness :
  getUInt (CommandArgs.mk (<["n" := " 12 34"]> ∅) cfg_opt1) 64 "n"
  = getUInt (CommandArgs.mk (<["n" := "12"]> ∅) cfg_opt1) 64 "n".
Proof.
  apply (getUInt_first_numeral (CommandArgs.mk (<["n" := " 12 34"]> ∅) cfg_opt1)
           (CommandArgs.mk (<["n" := "12"]> ∅) cfg_opt1) 64 "n" " " "12" " 34" 0%N);
    reflexivity.
Defined.

(** * The earlier revision: the segments of [Commander::run] *)

Lemma invoked_named_app tr1 tr2 :
  invoked_named (tr1 ++ tr2) = invoked_named tr1 ++ invoked_named tr2.
Proof.
  induction tr1 as [|e tr1 IH]; [done|]. destruct e; simpl; by rewrite IH.
Qed.

Lemma revD_invoke_no_invoke fuel caller args :
  invoked_named (RevD.invoke fuel caller args).1 = [].
Proof.
  unfold RevD.invoke.
  destruct (RevD.parse _ fuel args) as [tbl|ex|]; [|done|done].
  destruct (CommandCaller.m_callback caller); [done|].
  by destruct (CommandCaller.m_invoke caller).
Qed.

Lemma revD_run_loop_shape (self : Commander.t) pfuel fuel :
  forall args_i command0,
    let res := RevD.run_loop pfuel fuel self args_i command0 in
    Forall (segment_ok self) (invoked_named res.1)
    /\ concat (invoked_named res.1) `prefix_of` args_i.
Proof.
  induction fuel as [|fuel IH]; intros args_i command0.
  { destruct args_i; simpl; (split; [done | apply prefix_nil]). }
  destruct args_i as [|a rest].
  { simpl. split; [done | apply prefix_nil]. }
  cbn [RevD.run_loop]. cbn zeta.
  destruct (Commander.isCommand self a) eqn:Ha.
  2:{ cbn. split; [done | apply prefix_nil]. }
  destruct (collect_spec self rest []) as (vs & Hseg & Hrest & Hvs & Hnext).
  destruct (Commander.collect self rest []) as [seg rest']. cbn [fst snd app] in *.
  subst seg. unfold RevD.invokeCommand.
  pose proof Ha as Ha'. unfold Commander.isCommand in Ha'.
  destruct (Commander.m_commands self !! a) as [caller|]; [|done].
  pose proof (revD_invoke_no_invoke pfuel caller vs) as Hinv.
  destruct (RevD.invoke pfuel caller vs) as [tr1 r]. cbn [fst] in Hinv.
  assert (Hok : segment_ok self (a :: vs)) by (by exists a, vs).
  destruct r as [stat|ex|]; cbn [fst snd].
  - destruct (IH rest' a) as [Hall Hpre].
    destruct (RevD.run_loop pfuel fuel self rest' a) as [tr' [command' r']].
    cbn [fst snd] in *.
    rewrite !invoked_named_app.
    cbn [invoked_named StatusHandler.handle fst]. rewrite Hinv. cbn [app].
    split; [by constructor|]. cbn [concat]. rewrite Hrest.
    change (a :: vs ++ rest') with ((a :: vs) ++ rest'). by apply prefix_app.
  - cbn [invoked_named]. rewrite Hinv. cbn [concat].
    rewrite app_nil_r. split; [by constructor|]. rewrite Hrest.
    change (a :: vs ++ rest') with ((a :: vs) ++ rest'). by apply prefix_app_r.
  - cbn [invoked_named]. rewrite Hinv. cbn [concat].
    rewrite app_nil_r. split; [by constructor|]. rewrite Hrest.
    change (a :: vs ++ rest') with ((a :: vs) ++ rest'). by apply prefix_app_r.
Qed.

(** X26: in the earlier revision [run] cuts the tokens as the embedded one
    does, but hands each command its values only: for every invocation of
    a run, the command name followed by the segment handed over is a
    registered name followed by tokens that are not registered, and these,
    one after the other, are a prefix of [m_args].  So the command name is
    never among the tokens that [parse] of that revision sees. *)
Theorem revD_run_segments (fuel : nat) (self : Commander.t) :
  Forall (segment_ok self) (invoked_named (RevD.run fuel self).1)
  /\ concat (invoked_named (RevD.run fuel self).1) `prefix_of` Commander.m_args self
  /\ (forall command args,
        Invoke command args ∈ (RevD.run fuel self).1 ->
        Commander.isCommand self command = true
        /\ Forall (fun v => Commander.isCommand self v = false) args).
Proof.
  unfold RevD.run.
  destruct (revD_run_loop_shape self fuel fuel (Commander.m_args self) EmptyString)
    as [Hall Hpre].
  destruct (RevD.run_loop fuel fuel self (Commander.m_args self) EmptyString)
    as [tr [command r]]. cbn [fst snd] in *.
  assert (Hgen : forall c args,
            Invoke c args ∈ tr ->
            Commander.isCommand self c = true
            /\ Forall (fun v => Commander.isCommand self v = false) args).
  { intros c args Hc. clear -Hc Hall.
    induction tr as [|e tr IH]; [by apply elem_of_nil in Hc|].
    apply elem_of_cons in Hc as [<-|Hc].
    - cbn [invoked_named] in Hall. apply Forall_cons in Hall as [Hok _].
      by destruct Hok as (c' & vs & [= <- <-] & Hreg & Hvs).
    - apply IH; [|done]. destruct e; cbn [invoked_named] in Hall; [|done..].
      by apply Forall_cons in Hall as [_ ?]. }
  destruct r as [[]|ex|]; cbn [fst snd]; [done| |done].
  destruct (is_std_exception ex); cbn [fst snd]; [|done].
  rewrite invoked_named_app. cbn [invoked_named StatusHandler.handle fst].
  rewrite app_nil_r. split; [done|]. split; [done|].
  intros c args [Hin|Hin]%elem_of_app; [by apply Hgen|].
  by apply list_elem_of_singleton in Hin.
Qed.

(** * The unregistered first token *)

(** C6, amended: in the revision whose loop breaks, when the first token
    is not a registered command name, [run] hands exactly one status to
    [m_handler.handle], with status [ERROR], the token as name and the
    message "not a command"; it invokes no handler and returns, whatever
    follows the token.  In the later revision, whose loop has no [break],
    the same holds for a sequence of two tokens, with the status named
    "unknown", when the names registered are those of the parser's
    configs, nothing was parsed before, and neither the second token nor
    "unknown" is registered either. *)
Theorem run_not_a_command (fuel : nat) (self : Commander.t) (selfB : RevB.Commander)
    (tok x : string) (rest : list string) :
  (Commander.m_commands self !! tok = None ->
   Commander.run_args (S fuel) self (tok :: rest)
   = ([Handle (CommandStatus.mk tok CommandStatus.ERROR "not a command")], Ret tt))
  /\ (revB_in_sync selfB ->
      RevB.p_commands (RevB.m_parser selfB) = [] ->
      RevB.isCommand selfB tok = false ->
      RevB.isCommand selfB x = false ->
      RevB.isCommand selfB "unknown" = false ->
      RevB.run (S (S (S fuel))) (RevB.init selfB [tok; x])
      = ([RevB.Handle (CommandStatus.mk "unknown" CommandStatus.ERROR "not a command")],
         Ret tt)).
Proof.
  split.
  - intros Htok. unfold Commander.run_args, Commander.run.
    cbn [Commander.init Commander.m_args].
    by rewrite run_loop_not_command.
  - intros Hsync Hempty Htok Hx Hunk.
    set (p := RevB.m_parser selfB) in *.
    rewrite (Hsync tok) in Htok. rewrite (Hsync x) in Hx.
    pose proof Hunk as Hconf. rewrite (Hsync "unknown") in Hconf. fold p in Htok, Hx, Hconf.
    assert (Hnone : RevB.config p "unknown" = None).
    { unfold RevB.hasConfig in Hconf. unfold RevB.config.
      by destruct (RevB.p_configs p !! "unknown"). }
    destruct (revB_parseCommand_loop_returns (RevB.config p "unknown") "unknown"
                (S (S (S fuel))) ["unknown"; tok; x] (RevB.mkCommandArgs "unknown" ∅))
      as (Hfuel & Hname & Hthrow); [simpl; lia|].
    fold (RevB.parseCommand (S (S (S fuel))) p "unknown" ["unknown"; tok; x])
      in Hfuel, Hname, Hthrow.
    unfold RevB.run, RevB.parse.
    cbn [RevB.init RevB.m_parser RevB.m_args]. fold p.
    cbn [RevB.parse_loop]. rewrite Htok. cbn [RevB.collect]. rewrite Htok, Hx. cbn [app].
    destruct (RevB.parseCommand (S (S (S fuel))) p "unknown" ["unknown"; tok; x])
      as [comargs|ex|]; [| |done].
    2:{ destruct (Hthrow ex eq_refl) as (cfg & _ & _ & Hcfg & _). congruence. }
    cbn [mbind outcome_bind obind mret outcome_ret RevB.parse_loop]. rewrite Hempty.
    cbn [RevB.p_commands app RevB.run_loop Z.eqb negb].
    rewrite (Hname comargs eq_refl). cbn [RevB.m_command].
    change (RevB.isCommand (RevB.init selfB [tok; x]) "unknown")
      with (RevB.isCommand selfB "unknown").
    by rewrite Hunk.
Qed.

Lemma run_not_a_command_witness :
  Commander.run_args 2 commander2 ["notacommand"; "x"]
  = ([Handle (CommandStatus.mk "notacommand" CommandStatus.ERROR "not a command")],
     Ret tt)
  /\ RevB.run 3 (RevB.init revB_commander_cmd1 ["notacommand"; "x"])
     = ([RevB.Handle (CommandStatus.mk "unknown" CommandStatus.ERROR "not a command")],
        Ret tt).
Proof.
  split.
  - apply (proj1 (run_not_a_command 1 commander2 revB_commander_cmd1
                    "notacommand" "x" ["x"])). reflexivity.
  - apply (proj2 (run_not_a_command 0 commander2 revB_commander_cmd1
                    "notacommand" "x" ["x"])).
    + apply (revB_in_sync_appendCommand RevB.ctor). done.
    + reflexivity.
    + reflexivity.
    + reflexivity.
    + reflexivity.
Defined.

(** C6 as stated fails in the later revision, where no handler is
    registered under "notacommand" in any of these dispatchers.  With "x"
    registered, the loop does not stop at the "not a command" status, the
    handler of "x" is invoked, and two statuses are handed over.  With
    "unknown" registered, the segment of the unregistered token is handed
    to that handler and no "not a command" status is made.  And a
    dispatcher that has run on the two tokens before reports them twice,
    because the parser keeps what it parsed. *)
Lemma run_not_a_command_counterexample :
  (RevB.isCommand revB_commander_x "notacommand" = false
   /\ RevB.run 3 (RevB.init revB_commander_x ["notacommand"; "x"])
      = ([RevB.Handle (CommandStatus.mk "unknown" CommandStatus.ERROR "not a command");
          RevB.Call (RevB.mkCommandArgs "x" ∅);
          RevB.Handle (CommandStatus.mk "x" CommandStatus.OK EmptyString)],
         Ret tt))
  /\ (RevB.isCommand revB_commander_unknown "notacommand" = false
      /\ RevB.run 3 (RevB.init revB_commander_unknown ["notacommand"; "x"])
         = ([RevB.Call (RevB.mkCommandArgs "unknown" (<["unknown" := "notacommand x"]> ∅));
             RevB.Handle (CommandStatus.mk "unknown" CommandStatus.OK EmptyString)],
            Ret tt))
  /\ (RevB.parse 3 (RevB.m_parser RevB.ctor) ["notacommand"; "x"]
      = Ret (RevB.m_parser revB_commander_ran)
      /\ RevB.isCommand revB_commander_ran "notacommand" = false
      /\ RevB.run 3 revB_commander_ran
         = ([RevB.Handle (CommandStatus.mk "unknown" CommandStatus.ERROR "not a command");
             RevB.Handle (CommandStatus.mk "unknown" CommandStatus.ERROR "not a command")],
            Ret tt)).
Proof. repeat split; reflexivity. Qed.
